(** * Pianolizer: the sliding DFT prototype and its audio-worklet wrapper

    A shallow embedding of [src/sdft.js] (classes [Complex], [RingBuffer] and
    the single-bin [SlidingDFT] processor) and of [src/js/pianolizer.js]
    (the [PianolizerNode] processor and the classes of the display,
    [Palette], [PianoKeyboard] and [Spectrogram]), followed by the
    properties the specification states about them and by further
    properties of the code.

    JavaScript numbers are kept abstract behind the class [Arith]; the code is
    translated once and read at two instances:
    - [R], exact arithmetic, where the algebraic identities of the sliding
      transform are proved;
    - [float], IEEE 754 binary64 as the JavaScript engine computes, where
      NaN and the rounding of a [Float32Array] are visible. *)

From Stdlib Require Import ZArith List Bool Lia.
From Stdlib Require Import Reals Lra.
From Stdlib Require Import Floats.
From Stdlib Require Ascii String.
Import ListNotations.


(** ** Numbers *)

(** The arithmetic the two source files use on JavaScript numbers.
    [fround] is the rounding a [Float32Array] applies when a number is stored
    into it; [NaN] is what arithmetic makes of [undefined], the result of
    reading a typed array outside its bounds. *)
Class Arith (T : Type) : Type := {
  ofZ : Z -> T;
  nadd : T -> T -> T;
  nsub : T -> T -> T;
  nmul : T -> T -> T;
  ndiv : T -> T -> T;
  nltb : T -> T -> bool;
  nleb : T -> T -> bool;
  Math_sqrt : T -> T;
  fround : T -> T;
  NaN : T
}.

(** The part of the [Math] object that ECMAScript leaves
    implementation-approximated, and the constant [Math.PI]. *)
Class MathLib (T : Type) : Type := {
  Math_PI : T;
  Math_exp : T -> T;
  Math_cos : T -> T;
  Math_sin : T -> T
}.

Declare Scope js_scope.
Delimit Scope js_scope with js.
Infix "+" := nadd : js_scope.
Infix "-" := nsub : js_scope.
Infix "*" := nmul : js_scope.
Infix "/" := ndiv : js_scope.
Infix "<?" := nltb : js_scope.
Infix "<=?" := nleb : js_scope.

(** ** 32-bit integer operators *)

(** [ToInt32] of an integral number: reduction modulo [2^32] into
    [-2^31 .. 2^31 - 1]. *)
Definition ToInt32 (x : Z) : Z := (x + 2 ^ 31) mod 2 ^ 32 - 2 ^ 31.

(** [a & b] *)
Definition int32_and (a b : Z) : Z := Z.land (ToInt32 a) (ToInt32 b).

(** [~a] *)
Definition int32_not (a : Z) : Z := Z.lnot (ToInt32 a).

(** [a << b]: the shift count is taken modulo 32, the result wraps. *)
Definition int32_shl (a b : Z) : Z :=
  ToInt32 (Z.shiftl (ToInt32 a) (Z.land b 31)).

(** [a | b] *)
Definition int32_or (a b : Z) : Z := Z.lor (ToInt32 a) (ToInt32 b).

(** [a >> b]: the shift count is taken modulo 32, the sign is kept. *)
Definition int32_shr (a b : Z) : Z := Z.shiftr (ToInt32 a) (Z.land b 31).

(** [ToUint32] of an integral number, the conversion a [Uint32Array]
    applies to what is stored into it. *)
Definition ToUint32 (x : Z) : Z := x mod 2 ^ 32.

(** [new Uint32Array(n)]: [n] zeros. *)
Definition Uint32Array (n : Z) : list Z := repeat 0%Z (Z.to_nat n).

(** ** Typed arrays *)

Section TypedArray.
Context {T : Type} `{Arith T}.

(** [new Float32Array(n)]: [n] zeros. *)
Definition Float32Array (n : Z) : list T := repeat (ofZ 0) (Z.to_nat n).

Fixpoint set_nth (l : list T) (n : nat) (v : T) : list T :=
  match l, n with
  | [], _ => []
  | _ :: l', O => v :: l'
  | x :: l', S n' => x :: set_nth l' n' v
  end.

(** [a[i] = v]: the value is rounded to single precision; a store outside
    the array is ignored. *)
Definition typed_set (a : list T) (i : Z) (v : T) : list T :=
  if (i <? 0)%Z then a else set_nth a (Z.to_nat i) (fround v).

(** [a[i]] used as a number: [undefined] outside the array. *)
Definition typed_get (a : list T) (i : Z) : T :=
  if (i <? 0)%Z then NaN else nth (Z.to_nat i) a NaN.
End TypedArray.

(** [a[i] = v] on a [Uint32Array]: the value is reduced modulo [2^32]; a
    store outside the array is ignored. *)
Definition uint32_set (a : list Z) (i : Z) (v : Z) : list Z :=
  if (i <? 0)%Z then a else set_nth a (Z.to_nat i) (ToUint32 v).

(** [a[i]] of an array of integers where the code takes it as an integer
    (an operand of [&] or [|], the bound of a counter, a value stored
    into a [Uint32Array]): [undefined], outside the array, counts as 0. *)
Definition int_get (a : list Z) (i : Z) : Z :=
  if (i <? 0)%Z then 0%Z else nth (Z.to_nat i) a 0%Z.

(** ** class Complex *)

Module Complex.
Section Complex.
Context {T : Type} `{Arith T}.

Record Complex : Type := new { re : T; im : T }.

Definition add (this z : Complex) : Complex :=
  new (re this + re z)%js (im this + im z)%js.

Definition sub (this z : Complex) : Complex :=
  new (re this - re z)%js (im this - im z)%js.

Definition mul (this z : Complex) : Complex :=
  new (re this * re z - im this * im z)%js
      (re this * im z + im this * re z)%js.

Definition exp `{MathLib T} (this : Complex) : Complex :=
  let tmp := Math_exp (re this) in
  new (tmp * Math_cos (im this))%js (tmp * Math_sin (im this))%js.

Definition magnitude (this : Complex) : T :=
  Math_sqrt (re this * re this + im this * im this)%js.
End Complex.
Arguments Complex T : clear implicits.
End Complex.

(** ** class RingBuffer *)

Module RingBuffer.
Section RingBuffer.
Context {T : Type} `{Arith T}.

(** [index] counts the writes: an integral JavaScript number, exact as long
    as it stays below [2^53], kept here as an integer. *)
Record RingBuffer : Type := Build { mask : Z; buffer : list T; index : Z }.

(** The constructor. [new Float32Array(size)] throws a [RangeError] on a
    negative size ([1 << 31]); [None] stands for the exception. *)
Definition new (bits : Z) : option RingBuffer :=
  let size := int32_shl 1 bits in
  if (size <? 0)%Z then None
  else Some (Build (size - 1) (Float32Array size) 0).

(** [this.buffer[(this.index++) & this.mask] = value] *)
Definition write (this : RingBuffer) (value : T) : RingBuffer :=
  Build (mask this)
        (typed_set (buffer this) (int32_and (index this) (mask this)) value)
        (index this + 1).

(** [return this.buffer[(this.index + (~index)) & this.mask]] *)
Definition read (this : RingBuffer) (index_ : Z) : T :=
  typed_get (buffer this)
            (int32_and (index this + int32_not index_) (mask this)).
End RingBuffer.
Arguments RingBuffer T : clear implicits.
End RingBuffer.

(** ** class SlidingDFT (src/sdft.js) *)

(** The audio host hands [process] its [input] as a list of ports, each a list
    of channels, each a [Float32Array] of samples. *)
Definition AudioInput (T : Type) : Type := list (list (list T)).

(** [0, 1, ..., n - 1], the values of a loop counter. *)
Definition upto (n : Z) : list Z := map Z.of_nat (seq 0 (Z.to_nat n)).

Module SlidingDFT.
Section SlidingDFT.
Context {T : Type} `{Arith T}.

Record SlidingDFT : Type := Build {
  updateIntervalInMS : T;
  nextUpdateFrame : T;
  ringBuffer : RingBuffer.RingBuffer T;
  k : Z;
  N : Z;
  coeff : Complex.Complex T;
  dft : Complex.Complex T;
  totalPower : T
}.

(** The constructor; [sampleRate] is the global of the audio worklet scope,
    passed explicitly. It fails only if [new RingBuffer()] does. *)
Definition new `{MathLib T} (sampleRate : Z) : option SlidingDFT :=
  let updateIntervalInMS := (ofZ 1000 / ofZ 30)%js in
  match RingBuffer.new 16 with
  | None => None
  | Some ringBuffer =>
      let k := 440%Z in
      let N := sampleRate in
      Some (Build updateIntervalInMS updateIntervalInMS ringBuffer k N
              (Complex.exp
                 (Complex.new (ofZ 0) (ofZ 2 * Math_PI * (ofZ k / ofZ N))%js))
              (Complex.new (ofZ 0) (ofZ 0))
              (ofZ 0))
  end.

Definition intervalInFrames (this : SlidingDFT) : T :=
  (updateIntervalInMS this / ofZ 1000 * ofZ (N this))%js.

Definition windowSize : Z := 128.

(** Lines 96-101, one channel: [samples[sampleIndex] += sample; count++] for
    every sample of the channel, [sampleIndex] counting from its argument. *)
Fixpoint mix_channel (channel : list T) (sampleIndex : Z)
    (acc : list T * Z) : list T * Z :=
  match channel with
  | [] => acc
  | sample :: rest =>
      let (samples, count) := acc in
      mix_channel rest (sampleIndex + 1)
        (typed_set samples sampleIndex (typed_get samples sampleIndex + sample)%js,
         (count + 1)%Z)
  end.

(** Lines 89-103: the mixed-down block and the number of samples seen. *)
Definition mix_down (input : AudioInput T) : list T * Z :=
  fold_left
    (fun acc port => fold_left (fun acc channel => mix_channel channel 0 acc) port acc)
    input (Float32Array windowSize, 0%Z).

(** Lines 109-118, the body of the loop after [currentSample] is computed. *)
Definition update (this : SlidingDFT) (currentSample : T) : SlidingDFT :=
  let ringBuffer' := RingBuffer.write (ringBuffer this) currentSample in
  let previousSample := RingBuffer.read ringBuffer' (N this) in
  let dft' :=
    Complex.mul
      (Complex.add
         (Complex.sub (dft this) (Complex.new previousSample (ofZ 0)))
         (Complex.new currentSample (ofZ 0)))
      (coeff this) in
  let totalPower' := (totalPower this - previousSample * previousSample)%js in
  let totalPower'' := (totalPower' + currentSample * currentSample)%js in
  Build (updateIntervalInMS this) (nextUpdateFrame this) ringBuffer'
        (k this) (N this) (coeff this) dft' totalPower''.

(** Line 108 for every [i = 0 .. windowSize - 1]: the values
    [currentSample = samples[i] / n] takes, in order. *)
Definition normalized (n : T) (samples : list T) : list T :=
  map (fun i => (typed_get samples i / n)%js) (upto windowSize).

(** Lines 107-119: the loop. *)
Definition feed (n : T) (samples : list T) (this : SlidingDFT) : SlidingDFT :=
  fold_left update (normalized n samples) this.

(** Line 121. *)
Definition level (this : SlidingDFT) : T :=
  (Complex.magnitude (dft this) / Math_sqrt (totalPower this / ofZ (N this)))%js.

(** What a call of [process] yields besides the new state of the processor:
    the samples stored into [output] (the input passed through, [output]
    having the shape of [input]), the level posted to the port if any, and
    the returned boolean. *)
Record Outcome : Type := Done {
  self : SlidingDFT;
  output : AudioInput T;
  posted : option T;
  returned : bool
}.

Definition process (this : SlidingDFT) (input : AudioInput T) : Outcome :=
  let (samples, count) := mix_down input in
  let n := (ofZ count / ofZ windowSize)%js in
  let this1 := feed n samples this in
  let level := level this1 in
  let nextUpdateFrame' := (nextUpdateFrame this1 - ofZ windowSize)%js in
  let (nextUpdateFrame'', posted) :=
    if (nextUpdateFrame' <? ofZ 0)%js
    then ((nextUpdateFrame' + intervalInFrames this1)%js, Some level)
    else (nextUpdateFrame', None) in
  Done (Build (updateIntervalInMS this1) nextUpdateFrame'' (ringBuffer this1)
              (k this1) (N this1) (coeff this1) (dft this1) (totalPower this1))
       (map (map (map fround)) input) posted true.

(** The values [currentSample] takes during one call, in order. *)
Definition currentSamples (input : AudioInput T) : list T :=
  let (samples, count) := mix_down input in
  normalized (ofZ count / ofZ windowSize)%js samples.

(** Successive calls of [process], one per block. *)
Definition run (this : SlidingDFT) (blocks : list (AudioInput T)) : SlidingDFT :=
  fold_left (fun this input => self (process this input)) blocks this.
End SlidingDFT.
Arguments SlidingDFT T : clear implicits.
Arguments Outcome T : clear implicits.
End SlidingDFT.

(** ** class PianolizerNode (src/js/pianolizer.js) *)

(** The class of the [SlidingDFT] filter bank this node drives (built from
    a [PianoTuning]) is defined outside the two files embedded here: its
    state [Engine] and its method [process(samples, smooth)] are
    parameters, the method reading the block it is handed, leaving it as
    it is, and returning the levels. *)
Module PianolizerNode.
Section PianolizerNode.
Context {T : Type} `{Arith T}.
Variable Engine : Type.
Variable Engine_process : Engine -> list T -> T -> Engine * list T.

(** [samples] is [None] while the field holds [null]. *)
Record PianolizerNode : Type := Build {
  samples : option (list T);
  updateInterval : T;
  nextUpdateFrame : T;
  slidingDFT : Engine
}.

(** The constructor, given the engine [new SlidingDFT(tuning, -1)]. *)
Definition new (engine : Engine) : PianolizerNode :=
  Build None (ofZ 1 / ofZ 60)%js (ofZ 0) engine.

Record Parameters : Type := { smooth : list T }.

(** Lines 76-81 for one channel and the sample indices [indices]:
    [this.samples[sampleIndex] += sample; count++]. *)
Definition mix_channel (channel : list T) (indices : list Z)
    (acc : list T * Z) : list T * Z :=
  fold_left
    (fun (acc : list T * Z) sampleIndex =>
       let (samples, count) := acc in
       let sample := typed_get channel sampleIndex in
       (typed_set samples sampleIndex (typed_get samples sampleIndex + sample)%js,
        (count + 1)%Z))
    indices acc.

(** Lines 71-83. *)
Definition mix_down (input : AudioInput T) (windowSize : Z)
    (samples : list T) : list T * Z :=
  fold_left
    (fun acc port =>
       fold_left (fun acc channel => mix_channel channel (upto windowSize) acc)
                 port acc)
    input (samples, 0%Z).

(** Lines 86-89: [this.samples[i] /= n] for every [i]. *)
Definition normalize (samples : list T) (windowSize : Z) (n : T) : list T :=
  fold_left (fun samples i => typed_set samples i (typed_get samples i / n)%js)
            (upto windowSize) samples.

(** What a call yields besides the new state: the levels posted to the
    port, if any, and the returned boolean. *)
Record Outcome : Type := Done {
  self : PianolizerNode;
  posted : option (list T);
  returned : bool
}.

(** [process(input, output, parameters)], with the global [currentTime]
    passed explicitly. [None] stands for the [TypeError] of reading
    [input[0].length] or [input[0][0].length] where there is no such
    element. *)
Definition process (this : PianolizerNode) (input : AudioInput T)
    (parameters : Parameters) (currentTime : T) : option Outcome :=
  match input with
  | [] => None
  | input0 :: _ =>
      if (Z.of_nat (length input0) =? 0)%Z then Some (Done this None true)
      else
        match input0 with
        | [] => None
        | input00 :: _ =>
            let windowSize := Z.of_nat (length input00) in
            let samples0 :=
              match samples this with
              | None => Float32Array windowSize
              | Some samples =>
                  if negb (Z.of_nat (length samples) =? windowSize)%Z
                  then Float32Array windowSize
                  else samples
              end in
            let (samples1, count) := mix_down input windowSize samples0 in
            let n := (ofZ count / ofZ windowSize)%js in
            let samples2 := normalize samples1 windowSize n in
            let (engine', levels) :=
              Engine_process (slidingDFT this) samples2
                             (typed_get (smooth parameters) 0) in
            let (nextUpdateFrame', posted) :=
              if (nextUpdateFrame this <=? currentTime)%js
              then ((currentTime + updateInterval this)%js, Some levels)
              else (nextUpdateFrame this, None) in
            Some (Done (Build (Some samples2) (updateInterval this)
                              nextUpdateFrame' engine')
                       posted true)
        end
  end.
End PianolizerNode.
Arguments samples {T Engine} _.
Arguments updateInterval {T Engine} _.
Arguments nextUpdateFrame {T Engine} _.
Arguments slidingDFT {T Engine} _.
Arguments self {T Engine} _.
Arguments posted {T Engine} _.
Arguments returned {T Engine} _.
Arguments Done {T Engine} _ _ _.
Arguments Build {T Engine} _ _ _ _.
End PianolizerNode.

(** ** The display: [Palette], [PianoKeyboard.update], [Spectrogram] *)

(** [Math.round], and the conversion to an integer that the bitwise
    operators start with: the number without its fraction, 0 for NaN and
    the infinities ([ToInt32] reduces that integer modulo [2^32]). *)
Class Integral (T : Type) : Type := {
  Math_round : T -> T;
  truncate : T -> Z
}.

Definition keysNum : Z := 88.

Module Palette.
Section Palette.
Context {T : Type} `{Arith T} `{Integral T}.

Record Palette : Type := Build {
  palette : list (list T);
  keyColors : list Z
}.

Definition new (palette : list (list T)) : Palette :=
  Build palette (Uint32Array keysNum).

(** [rgbArray[i]] under [<<] and [|]: [undefined] counts as 0. *)
Definition component (rgbArray : list Z) (i : nat) : Z := nth i rgbArray 0%Z.

(** The body of the loop for one [key]. [None] stands for the [TypeError]
    of calling [map] on a row the palette does not have. *)
Definition getKeyColor (this : Palette) (levels : list T) (key : Z)
    : option Palette :=
  let level := typed_get levels key in
  match nth_error (palette this) (Z.to_nat (Z.rem (key + 9) 12)) with
  | None => None
  | Some row =>
      let rgbArray :=
        map (fun value => int32_or (truncate (Math_round (level * value)%js)) 0)
            row in
      Some (Build (palette this)
              (uint32_set (keyColors this) key
                 (int32_or
                    (int32_or (int32_shl (component rgbArray 2) 16)
                              (int32_shl (component rgbArray 1) 8))
                    (component rgbArray 0))))
  end.

(** [getKeyColors(levels)]: the object after the call and the array it
    returns, which is its own [keyColors]. *)
Definition getKeyColors (this : Palette) (levels : list T)
    : option (Palette * list Z) :=
  match
    fold_left
      (fun acc key =>
         match acc with
         | None => None
         | Some this' => getKeyColor this' levels key
         end)
      (upto keysNum) (Some this)
  with
  | None => None
  | Some this' => Some (this', keyColors this')
  end.
End Palette.
Arguments Palette T : clear implicits.
End Palette.

Module PianoKeyboard.
Import Ascii String.
Local Open Scope string_scope.

(** One digit of [toString(16)]. *)
Definition hex_digit (d : Z) : ascii :=
  match get (Z.to_nat d) "0123456789abcdef" with
  | Some c => c
  | None => "0"%char
  end.

(** The digits of a positive integer in base 16, most significant first;
    [fuel] bounds their number. *)
Fixpoint to_hex (fuel : nat) (n : Z) : string :=
  match fuel with
  | O => ""
  | S fuel' =>
      if (n <? 16)%Z then String (hex_digit n) ""
      else to_hex fuel' (n / 16) ++ String (hex_digit (n mod 16)) ""
  end.

(** [n.toString(16)] for an integer [n]. *)
Definition toString16 (n : Z) : string :=
  if (n <? 0)%Z then "-" ++ to_hex (S (Z.to_nat (Z.log2 (- n)))) (- n)
  else to_hex (S (Z.to_nat (Z.log2 n))) n.

Fixpoint repeat_string (s : string) (n : nat) : string :=
  match n with
  | O => ""
  | S n' => s ++ repeat_string s n'
  end.

(** [s.padStart(targetLength, c)] for a filler [c] of one character. *)
Definition padStart (s : string) (targetLength : nat) (c : string) : string :=
  repeat_string c (targetLength - length s) ++ s.

(** Lines 198-202. *)
Definition rgbInteger (bgrInteger : Z) : Z :=
  int32_or
    (int32_or (int32_shl (int32_and bgrInteger 255) 16)
              (int32_and bgrInteger 65280))
    (int32_shr (int32_and bgrInteger 16711680) 16).

(** Lines 203-205. *)
Definition rgbString (bgrInteger : Z) : string :=
  padStart (toString16 (rgbInteger bgrInteger)) 6 "0".

(** [update(keyColors)] on the [style.fill] of the 88 elements of
    [this.keys]: the fills after the call. [None] stands for the
    [TypeError] of a key that [this.keys] does not have. *)
Definition update (keys : list string) (keyColors : list Z)
    : option (list string) :=
  fold_left
    (fun acc key =>
       match acc with
       | None => None
       | Some keys' =>
           if (Z.to_nat key <? List.length keys')%nat
           then Some (set_nth keys' (Z.to_nat key)
                              ("#" ++ rgbString (int_get keyColors key)))
           else None
       end)
    (upto keysNum) (Some keys).

(** The constructor and [drawKeyboard]. Of the document, the model keeps
    what the code gives it: for each [rect] element its attributes and the
    group it is appended to (the elements of a group are in the order of
    the keys), and the size set on the [svg] element. *)
Inductive Group : Type := whiteKeyGroup | blackKeyGroup.

Section Keyboard.
Context {T : Type} `{Arith T} `{Integral T}.

Record Key : Type := rect {
  x : T;
  y : T;
  rx : T;
  width : T;
  height : T;
  group : Group
}.

Record PianoKeyboard : Type := Build {
  scale : T;
  roundCorners : T;
  whiteHeight : T;
  blackHeight : T;
  whiteKeys : list T;
  whiteTone : list Z;
  blackKeys : list T;
  blackTone : list Z;
  keys : list (option Key);
  keySlices : option (list Z);
  svg_width : option T;
  svg_height : option T
}.

(** [a[index] = v] on an [Array]: a store past the end extends the array,
    leaving the slots in between empty. *)
Definition array_set {A : Type} (a : list (option A)) (index : nat) (v : A)
    : list (option A) :=
  if (index <? List.length a)%nat then set_nth a index (Some v)
  else (a ++ repeat None (index - List.length a) ++ [Some v])%list.

(** [a[i % a.length]] used as a number; [undefined] (for an empty array,
    where the index is NaN) counts as NaN. *)
Definition cyclic (a : list T) (i : Z) : T :=
  if (Z.of_nat (List.length a) =? 0)%Z then NaN
  else nth (Z.to_nat (Z.rem i (Z.of_nat (List.length a)))) a NaN.

(** [a[i % n]] used as a condition; [undefined] counts as false. *)
Definition cyclic_tone (a : list Z) (i n : Z) : bool :=
  if (n =? 0)%Z then false
  else negb (nth (Z.to_nat (Z.rem i n)) a 0 =? 0)%Z.

(** [drawKey(index, offset, width, height, group)]: lines 149-158. *)
Definition drawKey (this : PianoKeyboard) (index : nat)
    (offset width height : T) (group : Group) : PianoKeyboard :=
  Build (scale this) (roundCorners this) (whiteHeight this)
        (blackHeight this) (whiteKeys this) (whiteTone this)
        (blackKeys this) (blackTone this)
        (array_set (keys this) index
                   (rect offset (ofZ 0) (roundCorners this) width height
                         group))
        (keySlices this) (svg_width this) (svg_height this).

(** What the loop of [drawKeyboard] carries from one key to the next. *)
Record Pen : Type := pen {
  drawn : PianoKeyboard;
  blackOffset : T;
  whiteOffset : T;
  whiteIndex : Z;
  slices : list T
}.

(** The body of the loop for one [i]: lines 172-184. *)
Definition drawKeyboard_step (p : Pen) (i : Z) : Pen :=
  let this := drawn p in
  let blackWidth := cyclic (blackKeys this) i in
  let slices' := (slices p ++ [blackWidth])%list in
  if cyclic_tone (blackTone this) i (Z.of_nat (List.length (blackKeys this)))
  then
    pen (drawKey this (Z.to_nat (i - 9)) (blackOffset p) blackWidth
                 (blackHeight this) blackKeyGroup)
        (blackOffset p + blackWidth)%js (whiteOffset p) (whiteIndex p) slices'
  else
    let whiteWidth := cyclic (whiteKeys this) (whiteIndex p) in
    pen (drawKey this (Z.to_nat (i - 9)) (whiteOffset p) whiteWidth
                 (whiteHeight this) whiteKeyGroup)
        (blackOffset p + blackWidth)%js (whiteOffset p + whiteWidth)%js
        (whiteIndex p + 1)%Z slices'.

(** What a [Uint8Array] makes of a number: the integer modulo 256, and 0
    of NaN and the infinities. *)
Definition ToUint8 (v : T) : Z := truncate v mod 256.

(** [drawKeyboard()]: lines 161-194. *)
Definition drawKeyboard (this : PianoKeyboard) : PianoKeyboard :=
  let p :=
    fold_left drawKeyboard_step (map (fun j => (j + 9)%Z) (upto keysNum))
              (pen this (ofZ 7 * scale this)%js (ofZ 0) 5%Z []) in
  let this' := drawn p in
  Build (scale this') (roundCorners this') (whiteHeight this')
        (blackHeight this') (whiteKeys this') (whiteTone this')
        (blackKeys this') (blackTone this') (keys this')
        (Some (map ToUint8 (slices p)))
        (Some (whiteOffset p)) (Some (whiteHeight this')).

(** [new PianoKeyboard(svgElement, scale)]: lines 129-146. *)
Definition new (scale : T) : PianoKeyboard :=
  drawKeyboard
    (Build scale (ofZ 2) (ofZ 150 * scale)%js (ofZ 100 * scale)%js
           (map (fun x => (ofZ x * scale)%js) [23; 24; 23; 24; 23; 23; 24]%Z)
           [1; 3; 5; 6; 8; 10; 12]%Z
           (map (fun x => (ofZ x * scale)%js)
                [14; 14; 14; 14; 14; 13; 14; 13; 14; 13; 14; 13]%Z)
           [0; 2; 0; 4; 0; 0; 7; 0; 9; 0; 11; 0]%Z
           (repeat None (Z.to_nat keysNum)) None None None).
End Keyboard.
End PianoKeyboard.

Module Spectrogram.

Record Spectrogram : Type := Build {
  keySlices : list Z;
  width : Z;
  height : Z;
  buf32 : list Z
}.

(** The constructor, without the canvas. [None] stands for the [TypeError]
    of [reduce] on an empty array and for the [RangeError] of an
    [ArrayBuffer] of negative size; a size beyond what the engine
    allocates is not modelled. *)
Definition new (keySlices : list Z) (height : Z) : option Spectrogram :=
  match keySlices with
  | [] => None
  | a :: rest =>
      let width := fold_left Z.add rest a in
      if (width * height * 4 <? 0)%Z then None
      else Some (Build keySlices width height (Uint32Array (width * height)))
  end.

(** Lines 233-236: the buffer moved up by one line, in place. *)
Definition shift (width lastLine : Z) (buf32 : list Z) : list Z :=
  fold_left (fun buf i => uint32_set buf i (int_get buf (i + width)))
            (upto lastLine) buf32.

(** Lines 242-244: [slice] pixels of [color] from position [j] on. *)
Definition fill (color slice : Z) (acc : list Z * Z) : list Z * Z :=
  fold_left (fun (acc : list Z * Z) (_ : Z) =>
               let (buf, j) := acc in (uint32_set buf j color, (j + 1)%Z))
            (upto slice) acc.

(** [update(keyColors)], up to the copy of the buffer to the canvas. *)
Definition update (this : Spectrogram) (keyColors : list Z) : Spectrogram :=
  let lastLine := (width this * (height this - 1))%Z in
  let shifted := shift (width this) lastLine (buf32 this) in
  let (filled, _) :=
    fold_left
      (fun acc key =>
         let color := int32_or 4278190080 (int_get keyColors key) in
         let slice := int_get (keySlices this) key in
         fill color slice acc)
      (upto keysNum) (shifted, lastLine) in
  Build (keySlices this) (width this) (height this) filled.
End Spectrogram.

(** ** The two readings of JavaScript numbers *)

(** Exact arithmetic: the real numbers, no rounding. [R] has no NaN; the
    field is never reached by an access inside an array. Nor has [R] the
    NaN of [0 / 0], which is 0 there: what is stated over [R] about the
    samples of [SlidingDFT.process] is stated of inputs [with_samples],
    whose divisor is not 0. *)
#[export] Instance Exact : Arith R := {
  ofZ := IZR;
  nadd := Rplus;
  nsub := Rminus;
  nmul := Rmult;
  ndiv := Rdiv;
  nltb := fun x y => if Rlt_dec x y then true else false;
  nleb := fun x y => if Rle_dec x y then true else false;
  Math_sqrt := R_sqrt.sqrt;
  fround := fun x => x;
  NaN := 0%R
}.

#[export] Instance ExactMath : MathLib R := {
  Math_PI := PI;
  Math_exp := Rtrigo_def.exp;
  Math_cos := cos;
  Math_sin := sin
}.

(** IEEE 754 binary64. *)

(** An integer literal or counter as a double (exact below [2^53]; the
    conversion is meant for integers below [2^63]). *)
Definition float_ofZ (z : Z) : float :=
  if (z <? 0)%Z then PrimFloat.opp (PrimFloat.of_uint63 (Uint63.of_Z (- z)))
  else PrimFloat.of_uint63 (Uint63.of_Z z).

(** [Math.fround]: rounding to binary32 (24 bits of precision, exponents
    below 128), to nearest, ties to even. *)
Definition float_fround (x : float) : float :=
  match Prim2SF x with
  | S754_finite s m e => SF2Prim (binary_round 24 128 s m e)
  | _ => x
  end.

#[export] Instance Double : Arith float := {
  ofZ := float_ofZ;
  nadd := PrimFloat.add;
  nsub := PrimFloat.sub;
  nmul := PrimFloat.mul;
  ndiv := PrimFloat.div;
  nltb := PrimFloat.ltb;
  nleb := PrimFloat.leb;
  Math_sqrt := PrimFloat.sqrt;
  fround := float_fround;
  NaN := PrimFloat.nan
}.

(** [Math.round] of a real number is the integer below it once a half has
    been added; the fraction is dropped towards zero. *)
#[export] Instance ExactIntegral : Integral R := {
  Math_round := fun x => IZR (Int_part (x + / 2));
  truncate := fun x =>
    if Rle_dec 0 x then Int_part x else (- Int_part (- x))%Z
}.

(** [Math.round] of a double: a number without a fraction is its own
    rounding; otherwise the integer below [x + 1/2], computed exactly, and
    a zero of the sign of [x] where that integer is 0. *)
Definition float_round (x : float) : float :=
  match Prim2SF x with
  | S754_finite s m e =>
      if (0 <=? e)%Z then x
      else
        let n := Z.shiftr ((if s then - (2 * Z.pos m) else 2 * Z.pos m)
                           + 2 ^ (- e)) (1 - e) in
        if (n =? 0)%Z then (if s then PrimFloat.opp 0 else 0)%float
        else float_ofZ n
  | _ => x
  end.

Definition float_truncate (x : float) : Z :=
  match Prim2SF x with
  | S754_finite s m e =>
      let a := if (0 <=? e)%Z then Z.shiftl (Z.pos m) e
               else Z.shiftr (Z.pos m) (- e) in
      if s then (- a)%Z else a
  | _ => 0%Z
  end.

#[export] Instance DoubleIntegral : Integral float := {
  Math_round := float_round;
  truncate := float_truncate
}.

(** ** Specification-side notions *)

Section History.
Context {T : Type} `{Arith T}.

(** What the buffer holds for the [j]-th write (counting from 0) of the
    values [hist]: the value as a [Float32Array] stores it; zero, the
    content of a new array, before the first write. *)
Definition history_at (hist : list T) (j : Z) : T :=
  if (j <? 0)%Z then ofZ 0 else fround (nth (Z.to_nat j) hist (ofZ 0)).

(** A number a [Float32Array] stores unchanged: a single-precision sample. *)
Definition single (v : T) : Prop := fround v = v.
End History.

Module RingBufferCalls.
Section RingBufferCalls.
Context {T : Type} `{Arith T}.

(** A call of one of the two methods of a [RingBuffer]. *)
Inductive Call : Type :=
| Write (value : T)
| Read (index : Z).

(** A sequence of calls in order: the final buffer and what the reads
    returned. *)
Fixpoint exec (this : RingBuffer.RingBuffer T) (calls : list Call)
    : RingBuffer.RingBuffer T * list T :=
  match calls with
  | [] => (this, [])
  | Write value :: rest => exec (RingBuffer.write this value) rest
  | Read index :: rest =>
      let result := RingBuffer.read this index in
      let (this', results) := exec this rest in
      (this', result :: results)
  end.

(** The values written by a sequence of calls, oldest first. *)
Fixpoint written (calls : list Call) : list T :=
  match calls with
  | [] => []
  | Write value :: rest => value :: written rest
  | Read _ :: rest => written rest
  end.

(** What the reads of a sequence of calls are to return, [hist] being the
    values written before it: each the value written [index] writes
    before the latest one at that point. *)
Fixpoint expected (hist : list T) (calls : list Call) : list T :=
  match calls with
  | [] => []
  | Write value :: rest => expected (hist ++ [value]) rest
  | Read index :: rest =>
      history_at hist (Z.of_nat (length hist) - 1 - index)
      :: expected hist rest
  end.

(** The lookback of every read is below [c]. *)
Definition lookbacks_below (c : Z) (calls : list Call) : Prop :=
  Forall (fun call => match call with
                      | Read index => (0 <= index < c)%Z
                      | Write _ => True
                      end) calls.
End RingBufferCalls.
End RingBufferCalls.

(** The number of slots of a ring buffer. *)
Definition capacity {T : Type} `{Arith T} (rb : RingBuffer.RingBuffer T) : Z :=
  (RingBuffer.mask rb + 1)%Z.

(** A buffer as the constructor makes it and [write] keeps it: [2^b] slots
    for some [b <= 30], and the matching mask. *)
Definition wf {T : Type} `{Arith T} (rb : RingBuffer.RingBuffer T) : Prop :=
  exists b : Z,
    (0 <= b <= 30)%Z /\ RingBuffer.mask rb = (2 ^ b - 1)%Z /\
    Z.of_nat (length (RingBuffer.buffer rb)) = (2 ^ b)%Z.

(** The buffer holds the last [capacity] writes of [hist] (zeros where
    [hist] is shorter), the [j]-th write in slot [j mod capacity]. *)
Definition holds {T : Type} `{Arith T} (rb : RingBuffer.RingBuffer T)
    (hist : list T) : Prop :=
  wf rb /\
  RingBuffer.index rb = Z.of_nat (length hist) /\
  forall j : Z,
    (Z.of_nat (length hist) - capacity rb <= j < Z.of_nat (length hist))%Z ->
    typed_get (RingBuffer.buffer rb) (j mod capacity rb) = history_at hist j.

(** Two processor states that agree on everything but the throttle of the
    port messages ([nextUpdateFrame]). *)
Definition core_eq {T : Type} `{Arith T} (a b : SlidingDFT.SlidingDFT T) : Prop :=
  SlidingDFT.updateIntervalInMS a = SlidingDFT.updateIntervalInMS b /\
  SlidingDFT.ringBuffer a = SlidingDFT.ringBuffer b /\
  SlidingDFT.k a = SlidingDFT.k b /\
  SlidingDFT.N a = SlidingDFT.N b /\
  SlidingDFT.coeff a = SlidingDFT.coeff b /\
  SlidingDFT.dft a = SlidingDFT.dft b /\
  SlidingDFT.totalPower a = SlidingDFT.totalPower b.

(** The values [currentSample] takes over successive calls of [process]. *)
Definition stream {T : Type} `{Arith T} (blocks : list (AudioInput T)) : list T :=
  concat (map SlidingDFT.currentSamples blocks).

(** An input that holds at least one sample, in some channel of some
    port: [count] is then not 0, and neither is the [n] the loop divides
    by. With no sample at all (no port, no channel, or empty channels
    only) the code computes [0 / 0], NaN, for every [currentSample]; the
    real numbers have no such value. *)
Definition with_samples {T : Type} (input : AudioInput T) : Prop :=
  concat (concat input) <> [].

(** What the mix-down loop of [SlidingDFT.process] makes of the scratch
    array [samples] for one channel: sample by sample, [samples[i] += x],
    as far as both the array and the channel reach. *)
Fixpoint accumulate {T : Type} `{Arith T} (samples channel : list T) : list T :=
  match samples, channel with
  | a :: samples', x :: channel' =>
      fround (a + x)%js :: accumulate samples' channel'
  | _, [] => samples
  | [], _ => []
  end.

(** The number of messages posted to the port over successive calls of
    [SlidingDFT.process]. *)
Fixpoint posts {T : Type} `{Arith T} (this : SlidingDFT.SlidingDFT T)
    (blocks : list (AudioInput T)) : nat :=
  match blocks with
  | [] => O
  | input :: rest =>
      let out := SlidingDFT.process this input in
      ((match SlidingDFT.posted out with Some _ => 1 | None => 0 end)
       + posts (SlidingDFT.self out) rest)%nat
  end.

(** The times at which successive calls of [PianolizerNode.process], each
    with its input, parameters and [currentTime], post the levels;
    [None] if a call throws. *)
Fixpoint post_times {T : Type} `{Arith T} (Engine : Type)
    (Engine_process : Engine -> list T -> T -> Engine * list T)
    (this : PianolizerNode.PianolizerNode Engine)
    (calls : list (AudioInput T * PianolizerNode.Parameters * T))
    : option (list T) :=
  match calls with
  | [] => Some []
  | (input, parameters, currentTime) :: rest =>
      match PianolizerNode.process Engine Engine_process this input
                                   parameters currentTime with
      | None => None
      | Some out =>
          match post_times Engine Engine_process (PianolizerNode.self out)
                           rest with
          | None => None
          | Some times =>
              Some (match PianolizerNode.posted out with
                    | Some _ => currentTime :: times
                    | None => times
                    end)
          end
      end
  end.

(** The scratch array a call of [PianolizerNode.process] on blocks of [L]
    samples starts from: the array of the call before if that one had [L]
    slots, a new array of zeros otherwise. *)
Definition scratch_before {T : Type} `{Arith T} (Engine : Type)
    (this : PianolizerNode.PianolizerNode Engine) (L : nat) : list T :=
  match PianolizerNode.samples this with
  | None => Float32Array (Z.of_nat L)
  | Some samples =>
      if Nat.eqb (length samples) L then samples
      else Float32Array (Z.of_nat L)
  end.

(** *** Exact arithmetic *)

(** The sum of [f 0], ..., [f (n - 1)]. *)
Fixpoint Rsum (f : nat -> R) (n : nat) : R :=
  match n with
  | O => 0%R
  | S n' => (Rsum f n' + f n')%R
  end.

(** The analysis window after the samples [cs]: the last [N] of them (all
    of them while fewer than [N] have arrived). *)
Definition window (N : Z) (cs : list R) : list R :=
  skipn (length cs - Z.to_nat N) cs.

(** The sum of the squares of the samples of a window. *)
Definition sum_squares (y : list R) : R :=
  fold_right (fun x acc => (x * x + acc)%R) 0%R y.

(** The single-frequency DFT coefficient of the [N] samples [y], at bin [k]:
    the sum of [y_m * e^(-i 2 pi k m / N)] for [m = 0 .. N - 1]. *)
Definition DFT_coefficient (k N : Z) (y : list R) : Complex.Complex R :=
  Complex.new
    (Rsum (fun m => nth m y 0 * cos (2 * PI * IZR k * INR m / IZR N))%R
          (Z.to_nat N))
    (- Rsum (fun m => nth m y 0 * sin (2 * PI * IZR k * INR m / IZR N))%R
            (Z.to_nat N))%R.

(** The angle of the rotation coefficient of the processor at sample rate
    [N]: [2 * Math.PI * (this.k / this.N)]. *)
Definition theta (N : Z) : R := (2 * PI * (440 / IZR N))%R.

(** The sums the state of the processor is compared with, over the lags
    [1 .. N] behind the next sample to come: with [x] the samples so far
    (zero before the first), the sum of [x (t - l) * cos (l * theta)], of
    [x (t - l) * sin (l * theta)] and of [x (t - l) ^ 2]. *)
Definition lag_sample (cs : list R) (i : nat) : R :=
  history_at cs (Z.of_nat (length cs) - 1 - Z.of_nat i).

Definition lag_re (N : Z) (cs : list R) : R :=
  Rsum (fun i => lag_sample cs i * cos (INR (S i) * theta N))%R (Z.to_nat N).

Definition lag_im (N : Z) (cs : list R) : R :=
  Rsum (fun i => lag_sample cs i * sin (INR (S i) * theta N))%R (Z.to_nat N).

Definition lag_power (N : Z) (cs : list R) : R :=
  Rsum (fun i => lag_sample cs i * lag_sample cs i)%R (Z.to_nat N).

(** The state of a processor at sample rate [N] that has consumed the
    samples [cs]. *)
Definition tracks (N : Z) (e : SlidingDFT.SlidingDFT R) (cs : list R) : Prop :=
  holds (SlidingDFT.ringBuffer e) cs /\
  capacity (SlidingDFT.ringBuffer e) = 65536%Z /\
  SlidingDFT.N e = N /\
  SlidingDFT.coeff e = Complex.new (cos (theta N)) (sin (theta N)) /\
  Complex.re (SlidingDFT.dft e) = lag_re N cs /\
  Complex.im (SlidingDFT.dft e) = lag_im N cs /\
  SlidingDFT.totalPower e = lag_power N cs.

(** The sum of the samples at index [i] of the channels [channels]. *)
Definition sum_at (channels : list (list R)) (i : nat) : R :=
  fold_right Rplus 0%R (map (fun channel => nth i channel 0%R) channels).

(** An input with every sample multiplied by [a]. *)
Definition scale_input (a : R) (input : AudioInput R) : AudioInput R :=
  map (map (map (Rmult a))) input.

(** Times of which each is at least [d] after the one before, by the
    comparison [t + d <= t'] of the numbers at hand. *)
Fixpoint spaced {T : Type} `{Arith T} (d : T) (times : list T) : Prop :=
  match times with
  | t :: (t' :: _) as rest => (t + d <=? t')%js = true /\ spaced d rest
  | _ => True
  end.

(** Sample [j] of a sine wave of amplitude [A] and phase [phi] at 440 Hz,
    the frequency of the bin, taken at sample rate [N]:
    [A sin (2 pi 440 j / N + phi)]. *)
Definition sine (A phi : R) (N : Z) (j : nat) : R :=
  (A * sin (INR j * theta N + phi))%R.

(** The wave cut into the blocks the audio host delivers: block [b] is one
    port with one channel, samples [128 b .. 128 b + 127]. *)
Definition sine_block (A phi : R) (N : Z) (b : nat) : AudioInput R :=
  [[map (sine A phi N) (seq (128 * b) 128)]].

Definition sine_blocks (A phi : R) (N : Z) (n : nat) : list (AudioInput R) :=
  map (sine_block A phi N) (seq 0 n).

(** *** IEEE arithmetic *)

(** A double that is a zero (of either sign) or NaN. *)
Definition zero_or_nan (x : float) : Prop :=
  match Prim2SF x with
  | S754_zero _ | S754_nan => True
  | _ => False
  end.

(** One block of silence: one port, one channel, 128 zero samples. *)
Definition silence : AudioInput float := [[repeat 0%float 128]].

(** A processor that has seen nothing but silence, at 48 kHz: the state the
    constructor makes, the rotation coefficient being the doubles nearest
    to [cos] and [sin] of [2 pi 440 / 48000]. *)
Definition silent_48000 : SlidingDFT.SlidingDFT float :=
  SlidingDFT.Build
    0x1.0aaaaaaaaaaabp+5%float 0x1.0aaaaaaaaaaabp+5%float
    (RingBuffer.Build 65535 (Float32Array 65536) 0)
    440 48000
    (Complex.new 0x1.ff26a8992c474p-1%float 0x1.d79083a6f4f8cp-5%float)
    (Complex.new 0%float 0%float)
    0%float.

(** A processor all of whose history is zero: the ring buffer holds zeros,
    the accumulated [dft] is zero (or NaN, should the coefficient be), the
    window power is zero. *)
Definition quiet (e : SlidingDFT.SlidingDFT float) : Prop :=
  (exists i : Z,
     SlidingDFT.ringBuffer e = RingBuffer.Build 65535 (Float32Array 65536) i) /\
  zero_or_nan (Complex.re (SlidingDFT.dft e)) /\
  zero_or_nan (Complex.im (SlidingDFT.dft e)) /\
  SlidingDFT.totalPower e = 0%float.

(** *** The display *)

(** Byte [k] of an integer, counted from the least significant one. *)
Definition byte (c k : Z) : Z := (c / 256 ^ k) mod 256.

(** The two hexadecimal digits of a byte. *)
Definition hex2 (b : Z) : String.string :=
  String.String (PianoKeyboard.hex_digit (b / 16))
    (String.String (PianoKeyboard.hex_digit (b mod 16)) String.EmptyString).

(** The last [k] hexadecimal digits of an integer. *)
Fixpoint fixed_hex (k : nat) (n : Z) : String.string :=
  match k with
  | O => String.EmptyString
  | S k' =>
      String.append (fixed_hex k' (n / 16))
        (String.String (PianoKeyboard.hex_digit (n mod 16)) String.EmptyString)
  end.

(** Component [i] of a palette row at a level: the component times the
    level, rounded to the nearest integer, a half upwards; 0 where the row
    has no such component. *)
Definition shade (level : R) (row : list R) (i : nat) : Z :=
  nth i (map (fun value => Int_part (level * value + / 2)) row) 0%Z.

(** The colour of a key as [Palette.getKeyColors] packs it: red in the
    lowest byte, then green, then blue. *)
Definition key_color (palette : list (list R)) (levels : list R) (key : Z)
    : Z :=
  let level := typed_get levels key in
  let row := nth (Z.to_nat ((key + 9) mod 12)) palette [] in
  (shade level row 0 + 256 * shade level row 1 + 65536 * shade level row 2)%Z.


(** The keys of the pitch classes C#, D#, F#, G# and A#, key 0 being an
    A. *)
Definition sharp (key : Z) : bool :=
  let c := ((key + 9) mod 12)%Z in
  ((c =? 1) || (c =? 3) || (c =? 6) || (c =? 8) || (c =? 10))%Z.

(** The width of the slice of a key, and of a white key, at scale 1. *)
Definition slice_unit (key : Z) : Z :=
  nth (Z.to_nat ((key + 9) mod 12))
      [14; 14; 14; 14; 14; 13; 14; 13; 14; 13; 14; 13]%Z 0%Z.

Definition naturals_below (key : Z) : list Z :=
  filter (fun k => negb (sharp k)) (upto key).

Definition white_unit (key : Z) : Z :=
  nth (Z.to_nat ((5 + Z.of_nat (length (naturals_below key))) mod 7))
      [23; 24; 23; 24; 23; 23; 24]%Z 0%Z.

(** The left edge and the width of a key at scale 1: a white key starts
    where the white keys below it end, a black key 7 units after where
    the slices of the keys below it end. *)
Definition left_unit (key : Z) : Z :=
  if sharp key
  then (7 + fold_right Z.add 0 (map slice_unit (upto key)))%Z
  else fold_right Z.add 0%Z (map white_unit (naturals_below key)).

Definition width_unit (key : Z) : Z :=
  if sharp key then slice_unit key else white_unit key.

(** [init + w1 * scale + w2 * scale + ...], added in this order. *)
Definition scaled_sum {T : Type} `{Arith T} (scale : T) (units : list Z)
    (init : T) : T :=
  fold_left (fun acc w => (acc + ofZ w * scale)%js) units init.

(** The [rect] of a key as the constructor of [PianoKeyboard] draws it
    at a scale. *)
Definition drawn_key {T : Type} `{Arith T} (scale : T) (key : Z)
    : PianoKeyboard.Key (T:=T) :=
  if sharp key
  then PianoKeyboard.rect
         (scaled_sum scale (map slice_unit (upto key)) (ofZ 7 * scale)%js)
         (ofZ 0) (ofZ 2) (ofZ (slice_unit key) * scale)%js
         (ofZ 100 * scale)%js PianoKeyboard.blackKeyGroup
  else PianoKeyboard.rect
         (scaled_sum scale (map white_unit (naturals_below key)) (ofZ 0))
         (ofZ 0) (ofZ 2) (ofZ (white_unit key) * scale)%js
         (ofZ 150 * scale)%js PianoKeyboard.whiteKeyGroup.

(** The colour [Palette.getKeyColors] stores for a key of level [level]
    whose pitch class has the palette row [row], in the arithmetic of the
    code. *)
Definition mixed {T : Type} `{Arith T} `{Integral T} (level : T)
    (row : list T) : Z :=
  let rgbArray :=
    map (fun value => int32_or (truncate (Math_round (level * value)%js)) 0)
        row in
  ToUint32
    (int32_or
       (int32_or (int32_shl (Palette.component rgbArray 2) 16)
                 (int32_shl (Palette.component rgbArray 1) 8))
       (Palette.component rgbArray 0)).



(** ** 32-bit integer operators: facts *)

Section Int32.
Local Open Scope Z_scope.

Lemma ToInt32_small (x : Z) : - 2 ^ 31 <= x < 2 ^ 31 -> ToInt32 x = x.
Proof.
  intros Hx. unfold ToInt32.
  rewrite Z.mod_small; lia.
Qed.

Lemma pow2_le_mono (a b : Z) : 0 <= a <= b -> 2 ^ a <= 2 ^ b.
Proof. intros. apply Z.pow_le_mono_r; lia. Qed.

Lemma pow2_pos (b : Z) : 0 <= b -> 0 < 2 ^ b.
Proof. intros. apply Z.pow_pos_nonneg; lia. Qed.

Lemma ToInt32_mod (x b : Z) : 0 <= b <= 32 -> ToInt32 x mod 2 ^ b = x mod 2 ^ b.
Proof.
  intros Hb. unfold ToInt32.
  pose proof (Z.div_mod (x + 2 ^ 31) (2 ^ 32) ltac:(lia)) as Hdm.
  set (q := (x + 2 ^ 31) / 2 ^ 32) in *.
  replace ((x + 2 ^ 31) mod 2 ^ 32 - 2 ^ 31) with (x + (- q * 2 ^ (32 - b)) * 2 ^ b).
  - apply Z_mod_plus_full.
  - replace (- q * 2 ^ (32 - b) * 2 ^ b) with (- q * (2 ^ (32 - b) * 2 ^ b)) by ring.
    rewrite <- Z.pow_add_r by lia.
    replace (32 - b + b) with 32 by lia. lia.
Qed.

Lemma int32_and_mask (x b : Z) :
  0 <= b <= 30 -> int32_and x (2 ^ b - 1) = x mod 2 ^ b.
Proof.
  intros Hb. unfold int32_and.
  pose proof (pow2_pos b ltac:(lia)).
  pose proof (pow2_le_mono b 30 ltac:(lia)).
  rewrite (ToInt32_small (2 ^ b - 1)) by lia.
  replace (2 ^ b - 1) with (Z.ones b) by (rewrite Z.ones_equiv; lia).
  rewrite Z.land_ones by lia.
  apply ToInt32_mod. lia.
Qed.

Lemma int32_not_spec (d : Z) : int32_not d = - ToInt32 d - 1.
Proof. unfold int32_not, Z.lnot. lia. Qed.

(** The slot [read] addresses. *)
Lemma read_slot (i d b : Z) :
  0 <= b <= 30 ->
  int32_and (i + int32_not d) (2 ^ b - 1) = (i - d - 1) mod 2 ^ b.
Proof.
  intros Hb. rewrite int32_and_mask by lia. rewrite int32_not_spec.
  replace (i + (- ToInt32 d - 1)) with ((i - 1) - ToInt32 d) by lia.
  rewrite Zminus_mod, ToInt32_mod by lia.
  rewrite <- Zminus_mod. f_equal. lia.
Qed.

Lemma int32_shl_1 (bits : Z) :
  int32_shl 1 bits = ToInt32 (2 ^ (bits mod 32)).
Proof.
  unfold int32_shl. rewrite (ToInt32_small 1) by lia.
  change 31 with (Z.ones 5). rewrite Z.land_ones by lia.
  change (2 ^ 5) with 32.
  rewrite Z.shiftl_1_l. reflexivity.
Qed.
End Int32.

(** ** Typed arrays: facts *)

Section TypedArrayFacts.
Context {T : Type} `{Arith T}.
Local Open Scope Z_scope.

Lemma length_set_nth (l : list T) (n : nat) (v : T) :
  length (set_nth l n v) = length l.
Proof.
  revert n; induction l as [|x l IH]; intros [|n]; simpl; auto.
Qed.

Lemma nth_set_nth_eq (l : list T) (n : nat) (v d : T) :
  (n < length l)%nat -> nth n (set_nth l n v) d = v.
Proof.
  revert n; induction l as [|x l IH]; intros [|n] Hn; simpl in *;
    try lia; auto.
  apply IH; lia.
Qed.

Lemma nth_set_nth_neq (l : list T) (n m : nat) (v d : T) :
  n <> m -> nth m (set_nth l n v) d = nth m l d.
Proof.
  revert n m; induction l as [|x l IH]; intros [|n] [|m] Hnm; simpl;
    try congruence; auto.
Qed.

Lemma length_typed_set (a : list T) (i : Z) (v : T) :
  length (typed_set a i v) = length a.
Proof.
  unfold typed_set. destruct (i <? 0); auto using length_set_nth.
Qed.

Lemma typed_get_set_eq (a : list T) (i : Z) (v : T) :
  0 <= i < Z.of_nat (length a) ->
  typed_get (typed_set a i v) i = fround v.
Proof.
  intros Hi. unfold typed_get, typed_set.
  destruct (Z.ltb_spec i 0); [lia|].
  apply nth_set_nth_eq. lia.
Qed.

Lemma typed_get_set_neq (a : list T) (i j : Z) (v : T) :
  i <> j -> typed_get (typed_set a i v) j = typed_get a j.
Proof.
  intros Hij. unfold typed_get, typed_set.
  destruct (Z.ltb_spec j 0); auto.
  destruct (Z.ltb_spec i 0); auto.
  apply nth_set_nth_neq. lia.
Qed.

Lemma length_Float32Array (n : Z) :
  0 <= n -> Z.of_nat (length (Float32Array (T:=T) n)) = n.
Proof.
  intros Hn. unfold Float32Array. rewrite repeat_length. lia.
Qed.

Lemma typed_get_Float32Array (n i : Z) :
  0 <= i < n -> typed_get (Float32Array n) i = ofZ 0.
Proof.
  intros Hi. unfold typed_get, Float32Array.
  destruct (Z.ltb_spec i 0); [lia|].
  apply nth_repeat_lt. lia.
Qed.
End TypedArrayFacts.

(** ** RingBuffer: facts *)

Section RingBufferFacts.
Context {T : Type} `{Arith T}.
Local Open Scope Z_scope.

Lemma capacity_pos (rb : RingBuffer.RingBuffer T) : wf rb -> 0 < capacity rb.
Proof.
  intros (b & Hb & Hm & _). unfold capacity. rewrite Hm.
  pose proof (pow2_pos b ltac:(lia)). lia.
Qed.

(** The constructor succeeds unless [bits] is 31 modulo 32, and makes an
    all-zero buffer of [2 ^ (bits mod 32)] slots. *)
Lemma new_Some (bits : Z) :
  bits mod 32 <> 31 ->
  RingBuffer.new (T:=T) bits =
  Some (RingBuffer.Build (2 ^ (bits mod 32) - 1)
                         (Float32Array (2 ^ (bits mod 32))) 0).
Proof.
  intros Hb. unfold RingBuffer.new. rewrite int32_shl_1.
  pose proof (Z.mod_pos_bound bits 32 ltac:(lia)).
  pose proof (pow2_pos (bits mod 32) ltac:(lia)).
  pose proof (pow2_le_mono (bits mod 32) 30 ltac:(lia)).
  rewrite ToInt32_small by lia.
  destruct (Z.ltb_spec (2 ^ (bits mod 32)) 0); [lia|reflexivity].
Qed.

Lemma new_None (bits : Z) :
  bits mod 32 = 31 -> RingBuffer.new (T:=T) bits = None.
Proof.
  intros Hb. unfold RingBuffer.new. rewrite int32_shl_1, Hb. reflexivity.
Qed.

Lemma new_holds (bits : Z) (rb : RingBuffer.RingBuffer T) :
  RingBuffer.new bits = Some rb -> holds rb [].
Proof.
  intros Hnew.
  destruct (Z.eq_dec (bits mod 32) 31) as [E|E].
  - rewrite new_None in Hnew by assumption. discriminate.
  - rewrite new_Some in Hnew by assumption. injection Hnew as <-.
    pose proof (Z.mod_pos_bound bits 32 ltac:(lia)).
    set (b := bits mod 32) in *.
    pose proof (pow2_pos b ltac:(lia)).
    repeat split.
    + exists b. simpl. rewrite length_Float32Array by lia.
      repeat split; lia.
    + unfold capacity; simpl. intros j Hj.
      replace (2 ^ b - 1 + 1) with (2 ^ b) in * by lia.
      rewrite typed_get_Float32Array
        by (apply Z.mod_pos_bound; lia).
      unfold history_at. destruct (Z.ltb_spec j 0); [reflexivity|lia].
Qed.

Lemma mod_neq_near (c j n : Z) : 0 < n - j < c -> j mod c <> n mod c.
Proof.
  intros Hjn E.
  assert (Hz : (n - j) mod c = 0).
  { rewrite Zminus_mod, E, Z.sub_diag. apply Z.mod_0_l. lia. }
  rewrite Z.mod_small in Hz by lia. lia.
Qed.

Lemma history_at_app (hist : list T) (v : T) (j : Z) :
  j < Z.of_nat (length hist) ->
  history_at (hist ++ [v]) j = history_at hist j.
Proof.
  intros Hj. unfold history_at.
  destruct (Z.ltb_spec j 0); [reflexivity|].
  rewrite app_nth1 by lia. reflexivity.
Qed.

Lemma history_at_last (hist : list T) (v : T) :
  history_at (hist ++ [v]) (Z.of_nat (length hist)) = fround v.
Proof.
  unfold history_at.
  destruct (Z.ltb_spec (Z.of_nat (length hist)) 0); [lia|].
  rewrite Nat2Z.id, nth_middle. reflexivity.
Qed.

Lemma write_holds (rb : RingBuffer.RingBuffer T) (hist : list T) (v : T) :
  holds rb hist -> holds (RingBuffer.write rb v) (hist ++ [v]).
Proof.
  intros (Hwf & Hidx & Hslots).
  pose proof (capacity_pos rb Hwf) as Hcap.
  destruct Hwf as (b & Hb & Hm & Hlen).
  assert (Hc : capacity rb = 2 ^ b) by (unfold capacity; lia).
  assert (Hw : int32_and (RingBuffer.index rb) (RingBuffer.mask rb)
               = Z.of_nat (length hist) mod capacity rb).
  { rewrite Hm, int32_and_mask, Hidx, Hc by lia. reflexivity. }
  repeat split.
  - exists b. simpl. rewrite length_typed_set. auto.
  - simpl. rewrite Hidx, length_app. simpl. lia.
  - unfold capacity in *; simpl in *. rewrite length_app; simpl.
    intros j Hj. rewrite Hw.
    destruct (Z.eq_dec j (Z.of_nat (length hist))) as [->|Hne].
    + rewrite typed_get_set_eq, history_at_last; [reflexivity|].
      rewrite Hlen, <- Hc. apply Z.mod_pos_bound. lia.
    + rewrite typed_get_set_neq
        by (apply not_eq_sym, mod_neq_near; lia).
      rewrite history_at_app by lia. apply Hslots. lia.
Qed.

Lemma read_holds (rb : RingBuffer.RingBuffer T) (hist : list T) (d : Z) :
  holds rb hist -> 0 <= d < capacity rb ->
  RingBuffer.read rb d = history_at hist (Z.of_nat (length hist) - 1 - d).
Proof.
  intros (Hwf & Hidx & Hslots) Hd.
  destruct Hwf as (b & Hb & Hm & Hlen).
  assert (Hc : capacity rb = 2 ^ b) by (unfold capacity; lia).
  unfold RingBuffer.read. rewrite Hm, read_slot, Hidx, <- Hc by lia.
  replace (Z.of_nat (length hist) - d - 1)
    with (Z.of_nat (length hist) - 1 - d) by lia.
  apply Hslots. lia.
Qed.

Lemma exec_holds (calls : list (RingBufferCalls.Call (T:=T)))
    (rb : RingBuffer.RingBuffer T) (hist : list T) :
  holds rb hist ->
  holds (fst (RingBufferCalls.exec rb calls))
        (hist ++ RingBufferCalls.written calls).
Proof.
  revert rb hist; induction calls as [|[v|d] calls IH]; intros rb hist Hh;
    simpl.
  - rewrite app_nil_r. assumption.
  - replace (hist ++ v :: RingBufferCalls.written calls)
      with ((hist ++ [v]) ++ RingBufferCalls.written calls)
      by (rewrite <- app_assoc; reflexivity).
    apply IH, write_holds, Hh.
  - specialize (IH rb hist Hh).
    destruct (RingBufferCalls.exec rb calls). exact IH.
Qed.

(** Every read of an interleaving returns the value written that many
    writes before the latest one. *)
Lemma exec_reads (calls : list (RingBufferCalls.Call (T:=T)))
    (rb : RingBuffer.RingBuffer T) (hist : list T) :
  holds rb hist ->
  RingBufferCalls.lookbacks_below (capacity rb) calls ->
  snd (RingBufferCalls.exec rb calls) = RingBufferCalls.expected hist calls.
Proof.
  revert rb hist; induction calls as [|[v|d] calls IH];
    intros rb hist Hh Hcalls; simpl.
  - reflexivity.
  - inversion Hcalls; subst. apply IH; [apply write_holds, Hh|assumption].
  - inversion Hcalls as [|? ? Hd Hrest]; subst.
    specialize (IH rb hist Hh Hrest).
    destruct (RingBufferCalls.exec rb calls) as [rb' results]. simpl in *.
    rewrite IH, (read_holds rb hist d Hh Hd). reflexivity.
Qed.

(** The ring buffer [new RingBuffer()] makes. *)
Lemma default_ringBuffer_holds :
  holds (RingBuffer.Build (T:=T) 65535 (Float32Array 65536) 0) [].
Proof.
  apply (new_holds 16).
  pose proof (new_Some 16) as Hrb.
  change (16 mod 32) with 16 in Hrb.
  change (2 ^ 16) with 65536 in Hrb.
  change (65536 - 1) with 65535 in Hrb.
  apply Hrb. lia.
Qed.

End RingBufferFacts.

Section RingBufferClaims.
Context {T : Type} `{Arith T}.
Local Open Scope Z_scope.

(** C3. After any interleaving [calls] of [write] and [read] on a new ring
    buffer, [read(d)] with [0 <= d < capacity] returns the sample written
    [d] writes before the most recently written one, provided that many
    samples have been written (the samples being single-precision numbers,
    which a [Float32Array] stores unchanged). A [read] in the middle of a
    sequence is the case of the calls before it. *)
Theorem read_returns_sample_written
    (bits : Z) (rb0 : RingBuffer.RingBuffer T)
    (calls : list (RingBufferCalls.Call (T:=T))) (d : Z) :
  RingBuffer.new bits = Some rb0 ->
  Forall single (RingBufferCalls.written calls) ->
  0 <= d < capacity rb0 ->
  d < Z.of_nat (length (RingBufferCalls.written calls)) ->
  RingBuffer.read (fst (RingBufferCalls.exec rb0 calls)) d =
  nth (length (RingBufferCalls.written calls) - 1 - Z.to_nat d)
      (RingBufferCalls.written calls) (ofZ 0).
Proof.
  intros Hnew Hsingle Hd Hlen.
  pose proof (exec_holds calls rb0 [] (new_holds bits rb0 Hnew)) as Hh.
  simpl in Hh.
  set (ws := RingBufferCalls.written calls) in *.
  assert (Hcap : capacity (fst (RingBufferCalls.exec rb0 calls)) = capacity rb0).
  { destruct Hh as ((b & _ & Hm & Hl) & _).
    destruct (new_holds bits rb0 Hnew) as ((b0 & _ & Hm0 & Hl0) & _).
    clear - Hm Hl Hm0 Hl0 Hnew.
    unfold capacity.
    assert (Hmask : forall cs (rb : RingBuffer.RingBuffer T),
               RingBuffer.mask (fst (RingBufferCalls.exec rb cs))
               = RingBuffer.mask rb).
    { induction cs as [|[v|i] cs IH]; intros rb; simpl; auto.
      - rewrite IH. reflexivity.
      - specialize (IH rb). destruct (RingBufferCalls.exec rb cs); auto. }
    rewrite Hmask. reflexivity. }
  rewrite (read_holds _ ws d Hh) by lia.
  unfold history_at.
  destruct (Z.ltb_spec (Z.of_nat (length ws) - 1 - d) 0); [lia|].
  replace (Z.to_nat (Z.of_nat (length ws) - 1 - d))
    with (length ws - 1 - Z.to_nat d)%nat by lia.
  rewrite Forall_forall in Hsingle. apply Hsingle.
  apply nth_In. lia.
Qed.

(** C9. Immediately after [write(v)], [read(0)] returns [v], the most
    recently written sample, whatever calls came before ([v] being a
    single-precision number). *)
Theorem read_0_after_write
    (bits : Z) (rb0 : RingBuffer.RingBuffer T)
    (calls : list (RingBufferCalls.Call (T:=T))) (v : T) :
  RingBuffer.new bits = Some rb0 ->
  single v ->
  RingBuffer.read
    (RingBuffer.write (fst (RingBufferCalls.exec rb0 calls)) v) 0 = v.
Proof.
  intros Hnew Hv.
  pose proof (exec_holds calls rb0 [] (new_holds bits rb0 Hnew)) as Hh.
  simpl in Hh. apply (write_holds _ _ v) in Hh.
  pose proof (capacity_pos _ (proj1 Hh)) as Hcap.
  rewrite (read_holds _ _ 0 Hh) by lia.
  rewrite length_app. simpl.
  replace (Z.of_nat (length (RingBufferCalls.written calls) + 1) - 1 - 0)
    with (Z.of_nat (length (RingBufferCalls.written calls))) by lia.
  rewrite history_at_last. exact Hv.
Qed.
End RingBufferClaims.

Section RingBufferWitnesses.
Local Open Scope float_scope.

(** C3 at a buffer of four slots: after writing 0.5, 0.25, -1 (with a read
    in between), [read(1)] is 0.25. *)
Lemma read_returns_sample_written_witness :
  RingBuffer.read
    (fst (RingBufferCalls.exec
            (RingBuffer.Build 3%Z [0; 0; 0; 0] 0%Z)
            [RingBufferCalls.Write 0.5; RingBufferCalls.Read 0%Z;
             RingBufferCalls.Write 0.25; RingBufferCalls.Write (-1)]))
    1%Z = 0.25.
Proof.
  apply (read_returns_sample_written (T:=float) 2%Z
           (RingBuffer.Build 3%Z [0; 0; 0; 0] 0%Z)
           [RingBufferCalls.Write 0.5; RingBufferCalls.Read 0%Z;
            RingBufferCalls.Write 0.25; RingBufferCalls.Write (-1)] 1%Z).
  - reflexivity.
  - repeat constructor.
  - unfold capacity; simpl; lia.
  - simpl; lia.
Defined.

(** C9 at a buffer of four slots that has wrapped around. *)
Lemma read_0_after_write_witness :
  RingBuffer.read
    (RingBuffer.write
       (fst (RingBufferCalls.exec
               (RingBuffer.Build 3%Z [0; 0; 0; 0] 0%Z)
               [RingBufferCalls.Write 1; RingBufferCalls.Write 2;
                RingBufferCalls.Write 3; RingBufferCalls.Write 4;
                RingBufferCalls.Write 5]))
       0.75)
    0%Z = 0.75.
Proof.
  apply (read_0_after_write (T:=float) 2%Z
           (RingBuffer.Build 3%Z [0; 0; 0; 0] 0%Z)).
  - reflexivity.
  - reflexivity.
Defined.
End RingBufferWitnesses.

(** ** SlidingDFT: the structure of [process] *)

Section EngineFacts.
Context {T : Type} `{Arith T}.
Local Open Scope Z_scope.

Lemma length_upto (n : Z) : length (upto n) = Z.to_nat n.
Proof. unfold upto. rewrite length_map, length_seq. reflexivity. Qed.

Lemma core_eq_refl (a : SlidingDFT.SlidingDFT T) : core_eq a a.
Proof. repeat split. Qed.

Lemma core_eq_trans (a b c : SlidingDFT.SlidingDFT T) :
  core_eq a b -> core_eq b c -> core_eq a c.
Proof.
  unfold core_eq. intros (?&?&?&?&?&?&?) (?&?&?&?&?&?&?).
  repeat split; congruence.
Qed.

Lemma update_core_eq (a b : SlidingDFT.SlidingDFT T) (c : T) :
  core_eq a b -> core_eq (SlidingDFT.update a c) (SlidingDFT.update b c).
Proof.
  unfold core_eq, SlidingDFT.update. intros (Hu&Hr&Hk&HN&Hc&Hd&Hp); simpl.
  rewrite Hu, Hr, Hk, HN, Hc, Hd, Hp. repeat split.
Qed.

Lemma fold_update_core_eq (cs : list T) (a b : SlidingDFT.SlidingDFT T) :
  core_eq a b ->
  core_eq (fold_left SlidingDFT.update cs a) (fold_left SlidingDFT.update cs b).
Proof.
  revert a b; induction cs as [|c cs IH]; intros a b Hab; simpl; auto.
  apply IH, update_core_eq, Hab.
Qed.

(** One call of [process] runs the loop body over [currentSamples input];
    what else it changes is the throttle. *)
Lemma process_core (this : SlidingDFT.SlidingDFT T) (input : AudioInput T) :
  core_eq (SlidingDFT.self (SlidingDFT.process this input))
          (fold_left SlidingDFT.update (SlidingDFT.currentSamples input) this).
Proof.
  unfold SlidingDFT.process, SlidingDFT.currentSamples, SlidingDFT.feed.
  destruct (SlidingDFT.mix_down input) as [samples count].
  generalize (fold_left SlidingDFT.update
                (SlidingDFT.normalized
                   (ofZ count / ofZ SlidingDFT.windowSize)%js samples) this).
  intros this1.
  destruct (SlidingDFT.nextUpdateFrame this1 - ofZ SlidingDFT.windowSize
            <? ofZ 0)%js; unfold core_eq; simpl; repeat split.
Qed.

(** Successive calls run the loop body over the concatenation. *)
Lemma run_core (blocks : list (AudioInput T)) (this : SlidingDFT.SlidingDFT T) :
  core_eq (SlidingDFT.run this blocks)
          (fold_left SlidingDFT.update (stream blocks) this).
Proof.
  unfold SlidingDFT.run, stream.
  revert this; induction blocks as [|input blocks IH]; intros this; simpl.
  - apply core_eq_refl.
  - rewrite fold_left_app.
    eapply core_eq_trans; [apply IH|].
    apply fold_update_core_eq, process_core.
Qed.

Lemma run_app (b1 b2 : list (AudioInput T)) (this : SlidingDFT.SlidingDFT T) :
  SlidingDFT.run this (b1 ++ b2) = SlidingDFT.run (SlidingDFT.run this b1) b2.
Proof. unfold SlidingDFT.run. apply fold_left_app. Qed.

Lemma length_currentSamples (input : AudioInput T) :
  length (SlidingDFT.currentSamples input) = 128%nat.
Proof.
  unfold SlidingDFT.currentSamples, SlidingDFT.normalized.
  destruct (SlidingDFT.mix_down input) as [samples count].
  rewrite length_map, length_upto. reflexivity.
Qed.

Lemma fold_update_index (cs : list T) (this : SlidingDFT.SlidingDFT T) :
  RingBuffer.index (SlidingDFT.ringBuffer (fold_left SlidingDFT.update cs this))
  = RingBuffer.index (SlidingDFT.ringBuffer this) + Z.of_nat (length cs).
Proof.
  revert this; induction cs as [|c cs IH]; intros this; simpl.
  - lia.
  - rewrite IH. simpl. lia.
Qed.

(** The constructor never fails: the ring buffer is made with the default
    16 bits, and nothing is checked. *)
Lemma new_eq `{MathLib T} (sampleRate : Z) :
  SlidingDFT.new sampleRate =
  Some (SlidingDFT.Build
          (ofZ 1000 / ofZ 30)%js (ofZ 1000 / ofZ 30)%js
          (RingBuffer.Build 65535 (Float32Array 65536) 0)
          440 sampleRate
          (Complex.exp
             (Complex.new (ofZ 0)
                (ofZ 2 * Math_PI * (ofZ 440 / ofZ sampleRate))%js))
          (Complex.new (ofZ 0) (ofZ 0))
          (ofZ 0)).
Proof.
  unfold SlidingDFT.new.
  pose proof (new_Some (T:=T) 16) as Hrb.
  change (16 mod 32) with 16 in Hrb.
  change (2 ^ 16) with 65536 in Hrb.
  change (65536 - 1) with 65535 in Hrb.
  rewrite Hrb by lia.
  reflexivity.
Qed.
End EngineFacts.

(** ** Exact arithmetic: the sliding sums *)

Section ExactSums.
Local Open Scope R_scope.

Lemma Rsum_ext (f g : nat -> R) (n : nat) :
  (forall i, (i < n)%nat -> f i = g i) -> Rsum f n = Rsum g n.
Proof.
  induction n as [|n IH]; intros Hfg; simpl; auto.
  rewrite IH, Hfg by auto with arith. reflexivity.
Qed.

Lemma Rsum_zero (n : nat) : Rsum (fun _ => 0) n = 0.
Proof. induction n as [|n IH]; simpl; [|rewrite IH]; lra. Qed.

Lemma Rsum_plus (f g : nat -> R) (n : nat) :
  Rsum (fun i => f i + g i) n = Rsum f n + Rsum g n.
Proof. induction n as [|n IH]; simpl; [|rewrite IH]; lra. Qed.

Lemma Rsum_scal (a : R) (f : nat -> R) (n : nat) :
  Rsum (fun i => a * f i) n = a * Rsum f n.
Proof. induction n as [|n IH]; simpl; [|rewrite IH]; lra. Qed.

Lemma Rsum_const (a : R) (n : nat) : Rsum (fun _ => a) n = INR n * a.
Proof.
  induction n as [|n IH]; [simpl; lra|].
  rewrite S_INR. simpl. rewrite IH. lra.
Qed.

(** Moving the range of a sum one step up. *)
Lemma Rsum_shift (h : nat -> R) (n : nat) :
  Rsum h n + h n = h O + Rsum (fun i => h (S i)) n.
Proof.
  induction n as [|n IH]; simpl; [lra|].
  lra.
Qed.

(** Summing in the opposite order. *)
Lemma Rsum_rev (f : nat -> R) (n : nat) :
  Rsum f n = Rsum (fun m => f (n - 1 - m)%nat) n.
Proof.
  induction n as [|n IH]; [reflexivity|].
  pose proof (Rsum_shift (fun m => f (n - m)%nat) n) as Hs.
  cbv beta in Hs.
  replace (n - n)%nat with O in Hs by lia.
  replace (n - 0)%nat with n in Hs by lia.
  rewrite (Rsum_ext (fun i => f (n - S i)%nat)
                    (fun m => f (n - 1 - m)%nat)) in Hs
    by (intros; f_equal; lia).
  rewrite <- IH in Hs.
  simpl Rsum.
  rewrite (Rsum_ext (fun m => f (S n - 1 - m)%nat)
                    (fun m => f (n - m)%nat)) by (intros; f_equal; lia).
  replace (n - 0 - n)%nat with O by lia.
  lra.
Qed.

End ExactSums.

(** ** Exact arithmetic: the state of the processor *)

Section ExactEngine.
Local Open Scope R_scope.
Variable N : Z.
Hypothesis HN : (0 < N < 65536)%Z.

Lemma INR_to_nat_N : INR (Z.to_nat N) = IZR N.
Proof. rewrite INR_IZR_INZ, Z2Nat.id by lia. reflexivity. Qed.

Lemma IZR_N_neq_0 : IZR N <> 0.
Proof. apply not_0_IZR. lia. Qed.

(** [N] rotations by [theta N] are 440 full turns. *)
Lemma full_turn_angle : INR (Z.to_nat N) * theta N = 0 + 2 * INR 440 * PI.
Proof.
  rewrite INR_to_nat_N, (INR_IZR_INZ 440). change (Z.of_nat 440) with 440%Z.
  unfold theta. field. apply IZR_N_neq_0.
Qed.

Lemma cos_full_turn : cos (INR (Z.to_nat N) * theta N) = 1.
Proof. rewrite full_turn_angle, cos_period. apply cos_0. Qed.

Lemma sin_full_turn : sin (INR (Z.to_nat N) * theta N) = 0.
Proof. rewrite full_turn_angle, sin_period. apply sin_0. Qed.

Lemma cos_turn_plus (a : R) :
  cos (INR (Z.to_nat N) * theta N + a) = cos a.
Proof. rewrite cos_plus, cos_full_turn, sin_full_turn. ring. Qed.

Lemma sin_turn_plus (a : R) :
  sin (INR (Z.to_nat N) * theta N + a) = sin a.
Proof. rewrite sin_plus, cos_full_turn, sin_full_turn. ring. Qed.

Lemma lag_sample_0 (cs : list R) (c : R) : lag_sample (cs ++ [c]) 0 = c.
Proof.
  unfold lag_sample. rewrite length_app. simpl length.
  replace (Z.of_nat (length cs + 1) - 1 - Z.of_nat 0)%Z
    with (Z.of_nat (length cs)) by lia.
  exact (@history_at_last R Exact cs c).
Qed.

Lemma lag_sample_S (cs : list R) (c : R) (i : nat) :
  lag_sample (cs ++ [c]) (S i) = lag_sample cs i.
Proof.
  unfold lag_sample. rewrite length_app. simpl length.
  replace (Z.of_nat (length cs + 1) - 1 - Z.of_nat (S i))%Z
    with (Z.of_nat (length cs) - 1 - Z.of_nat i)%Z by lia.
  apply (@history_at_app R Exact). lia.
Qed.

Lemma lag_re_step (cs : list R) (c : R) :
  lag_re N (cs ++ [c]) =
  (lag_re N cs - lag_sample (cs ++ [c]) (Z.to_nat N) + c) * cos (theta N)
  - lag_im N cs * sin (theta N).
Proof.
  unfold lag_re, lag_im.
  pose proof (Rsum_shift
    (fun i => lag_sample (cs ++ [c]) i * cos (INR (S i) * theta N))
    (Z.to_nat N)) as Hs.
  cbv beta in Hs.
  rewrite lag_sample_0 in Hs.
  rewrite (Rsum_ext
    (fun i => lag_sample (cs ++ [c]) (S i) * cos (INR (S (S i)) * theta N))
    (fun i => cos (theta N) * (lag_sample cs i * cos (INR (S i) * theta N))
              + - sin (theta N) * (lag_sample cs i * sin (INR (S i) * theta N))))
    in Hs.
  2:{ intros i _. cbv beta. rewrite lag_sample_S.
      rewrite (S_INR (S i)), Rmult_plus_distr_r, Rmult_1_l, cos_plus. ring. }
  rewrite Rsum_plus, !Rsum_scal in Hs.
  rewrite S_INR, Rmult_plus_distr_r, Rmult_1_l, cos_turn_plus in Hs.
  change (INR 1) with 1 in Hs. rewrite Rmult_1_l in Hs.
  lra.
Qed.

Lemma lag_im_step (cs : list R) (c : R) :
  lag_im N (cs ++ [c]) =
  (lag_re N cs - lag_sample (cs ++ [c]) (Z.to_nat N) + c) * sin (theta N)
  + lag_im N cs * cos (theta N).
Proof.
  unfold lag_re, lag_im.
  pose proof (Rsum_shift
    (fun i => lag_sample (cs ++ [c]) i * sin (INR (S i) * theta N))
    (Z.to_nat N)) as Hs.
  cbv beta in Hs.
  rewrite lag_sample_0 in Hs.
  rewrite (Rsum_ext
    (fun i => lag_sample (cs ++ [c]) (S i) * sin (INR (S (S i)) * theta N))
    (fun i => cos (theta N) * (lag_sample cs i * sin (INR (S i) * theta N))
              + sin (theta N) * (lag_sample cs i * cos (INR (S i) * theta N))))
    in Hs.
  2:{ intros i _. cbv beta. rewrite lag_sample_S.
      rewrite (S_INR (S i)), Rmult_plus_distr_r, Rmult_1_l, sin_plus. ring. }
  rewrite Rsum_plus, !Rsum_scal in Hs.
  rewrite S_INR, Rmult_plus_distr_r, Rmult_1_l, sin_turn_plus in Hs.
  change (INR 1) with 1 in Hs. rewrite Rmult_1_l in Hs.
  lra.
Qed.

Lemma lag_power_step (cs : list R) (c : R) :
  lag_power N (cs ++ [c]) =
  lag_power N cs
  - lag_sample (cs ++ [c]) (Z.to_nat N) * lag_sample (cs ++ [c]) (Z.to_nat N)
  + c * c.
Proof.
  unfold lag_power.
  pose proof (Rsum_shift
    (fun i => lag_sample (cs ++ [c]) i * lag_sample (cs ++ [c]) i)
    (Z.to_nat N)) as Hs.
  cbv beta in Hs.
  rewrite lag_sample_0 in Hs.
  rewrite (Rsum_ext
    (fun i => lag_sample (cs ++ [c]) (S i) * lag_sample (cs ++ [c]) (S i))
    (fun i => lag_sample cs i * lag_sample cs i)) in Hs
    by (intros i _; cbv beta; rewrite lag_sample_S; reflexivity).
  lra.
Qed.

Lemma lag_sample_nil (i : nat) : lag_sample [] i = 0.
Proof.
  unfold lag_sample, history_at. simpl length.
  destruct (Z.ltb_spec (Z.of_nat 0 - 1 - Z.of_nat i) 0); [reflexivity|lia].
Qed.

Lemma tracks_new (e0 : SlidingDFT.SlidingDFT R) :
  SlidingDFT.new N = Some e0 -> tracks N e0 [].
Proof.
  rewrite new_eq. intros [= <-]. unfold tracks; simpl.
  split; [|split; [|split; [|split; [|split; [|split]]]]].
  - apply default_ringBuffer_holds.
  - reflexivity.
  - reflexivity.
  - unfold Complex.exp; simpl. rewrite exp_0, !Rmult_1_l. reflexivity.
  - unfold lag_re. rewrite (Rsum_ext _ (fun _ => 0)), Rsum_zero; auto.
    intros i _. rewrite lag_sample_nil. ring.
  - unfold lag_im. rewrite (Rsum_ext _ (fun _ => 0)), Rsum_zero; auto.
    intros i _. rewrite lag_sample_nil. ring.
  - unfold lag_power. rewrite (Rsum_ext _ (fun _ => 0)), Rsum_zero; auto.
    intros i _. rewrite lag_sample_nil. ring.
Qed.

Lemma tracks_update (e : SlidingDFT.SlidingDFT R) (cs : list R) (c : R) :
  tracks N e cs -> tracks N (SlidingDFT.update e c) (cs ++ [c]).
Proof.
  intros (Hh & Hcap & HNe & Hco & Hre & Him & Hpw).
  pose proof (write_holds _ _ c Hh) as Hh'.
  assert (Hcap' : capacity (RingBuffer.write (SlidingDFT.ringBuffer e) c)
                  = 65536%Z) by exact Hcap.
  assert (Hprev : RingBuffer.read
                    (RingBuffer.write (SlidingDFT.ringBuffer e) c) N
                  = lag_sample (cs ++ [c]) (Z.to_nat N)).
  { rewrite (read_holds _ _ N Hh') by lia.
    unfold lag_sample. rewrite Z2Nat.id by lia. reflexivity. }
  unfold tracks, SlidingDFT.update; simpl.
  rewrite HNe, Hprev, Hco; simpl.
  split; [|split; [|split; [|split; [|split; [|split]]]]]; auto.
  - rewrite Hre, Him, lag_re_step. ring.
  - rewrite Hre, Him, lag_im_step. ring.
  - rewrite Hpw, lag_power_step. reflexivity.
Qed.

Lemma tracks_fold (cs2 : list R) (e : SlidingDFT.SlidingDFT R) (cs : list R) :
  tracks N e cs -> tracks N (fold_left SlidingDFT.update cs2 e) (cs ++ cs2).
Proof.
  revert e cs; induction cs2 as [|c cs2 IH]; intros e cs Ht; simpl.
  - rewrite app_nil_r. assumption.
  - replace (cs ++ c :: cs2) with ((cs ++ [c]) ++ cs2)
      by (rewrite <- app_assoc; reflexivity).
    apply IH, tracks_update, Ht.
Qed.

Lemma tracks_core_eq (a b : SlidingDFT.SlidingDFT R) (cs : list R) :
  core_eq a b -> tracks N b cs -> tracks N a cs.
Proof.
  unfold core_eq, tracks. intros (Hu&Hr&Hk&HNe&Hc&Hd&Hp).
  rewrite Hr, HNe, Hc, Hd, Hp. auto.
Qed.

(** After any calls of [process] and any further turns of the loop, the
    state is the one of the samples consumed. *)
Lemma tracks_run (e0 : SlidingDFT.SlidingDFT R)
    (blocks : list (AudioInput R)) (cs : list R) :
  SlidingDFT.new N = Some e0 ->
  tracks N (fold_left SlidingDFT.update cs (SlidingDFT.run e0 blocks))
         (stream blocks ++ cs).
Proof.
  intros Hnew. apply tracks_fold.
  eapply tracks_core_eq; [apply run_core|].
  apply (tracks_fold (stream blocks) e0 []), tracks_new, Hnew.
Qed.
End ExactEngine.

(** ** Exact arithmetic: the window *)

Section ExactWindow.
Local Open Scope R_scope.

Lemma skipn_cons_nth (l : list R) (n : nat) :
  (n < length l)%nat -> skipn n l = nth n l 0 :: skipn (S n) l.
Proof.
  revert n; induction l as [|x l IH]; intros [|n] Hn; simpl in *;
    try lia; auto.
  apply IH. lia.
Qed.

Lemma lag_sample_nth (cs : list R) (i : nat) :
  (i < length cs)%nat -> lag_sample cs i = nth (length cs - 1 - i) cs 0.
Proof.
  intros Hi. unfold lag_sample, history_at.
  destruct (Z.ltb_spec (Z.of_nat (length cs) - 1 - Z.of_nat i) 0); [lia|].
  simpl. f_equal. lia.
Qed.

Lemma lag_sample_before (cs : list R) (i : nat) :
  (length cs <= i)%nat -> lag_sample cs i = 0.
Proof.
  intros Hi. unfold lag_sample, history_at.
  destruct (Z.ltb_spec (Z.of_nat (length cs) - 1 - Z.of_nat i) 0);
    [reflexivity|lia].
Qed.

Lemma lag_power_skipn (cs : list R) (n : nat) :
  Rsum (fun i => lag_sample cs i * lag_sample cs i) n
  = sum_squares (skipn (length cs - n) cs).
Proof.
  induction n as [|n IH].
  - rewrite Nat.sub_0_r, skipn_all. reflexivity.
  - simpl Rsum. rewrite IH.
    destruct (Nat.lt_ge_cases n (length cs)) as [Hlt|Hge].
    + rewrite (skipn_cons_nth cs (length cs - S n)) by lia.
      replace (S (length cs - S n)) with (length cs - n)%nat by lia.
      rewrite lag_sample_nth by lia.
      replace (length cs - 1 - n)%nat with (length cs - S n)%nat by lia.
      simpl. ring.
    + rewrite lag_sample_before by lia.
      replace (length cs - S n)%nat with (length cs - n)%nat by lia.
      ring.
Qed.

Lemma lag_power_window (N : Z) (cs : list R) :
  lag_power N cs = sum_squares (window N cs).
Proof. apply lag_power_skipn. Qed.

Lemma sum_squares_nonneg (y : list R) : 0 <= sum_squares y.
Proof.
  induction y as [|x y IH]; simpl; [lra|]. nra.
Qed.

Lemma Rsum_opp (f : nat -> R) (n : nat) :
  Rsum (fun i => - f i) n = - Rsum f n.
Proof. induction n as [|n IH]; simpl; [|rewrite IH]; lra. Qed.

(** The weight of lag [n - m] is the DFT weight of position [m]. *)
Lemma lag_angle (N : Z) (m : nat) :
  (0 < N < 65536)%Z -> (m < Z.to_nat N)%nat ->
  INR (S (Z.to_nat N - 1 - m)) * theta N
  = INR (Z.to_nat N) * theta N + - (2 * PI * IZR 440 * INR m / IZR N).
Proof.
  intros HN Hm.
  replace (S (Z.to_nat N - 1 - m)) with (Z.to_nat N - m)%nat by lia.
  rewrite minus_INR by lia. unfold theta. field.
  apply IZR_N_neq_0. assumption.
Qed.

Lemma lag_window_sample (N : Z) (cs : list R) (m : nat) :
  (Z.to_nat N <= length cs)%nat -> (m < Z.to_nat N)%nat ->
  lag_sample cs (Z.to_nat N - 1 - m) = nth m (window N cs) 0.
Proof.
  intros Hlen Hm. rewrite lag_sample_nth by lia.
  unfold window. rewrite nth_skipn. f_equal. lia.
Qed.

Lemma lag_re_DFT (N : Z) (cs : list R) :
  (0 < N < 65536)%Z -> (Z.to_nat N <= length cs)%nat ->
  lag_re N cs = Complex.re (DFT_coefficient 440 N (window N cs)).
Proof.
  intros HN Hlen. unfold lag_re, DFT_coefficient. rewrite Rsum_rev.
  cbn [Complex.re].
  apply Rsum_ext. intros m Hm.
  rewrite lag_window_sample, lag_angle by assumption.
  rewrite cos_turn_plus, cos_neg by assumption. reflexivity.
Qed.

Lemma lag_im_DFT (N : Z) (cs : list R) :
  (0 < N < 65536)%Z -> (Z.to_nat N <= length cs)%nat ->
  lag_im N cs = Complex.im (DFT_coefficient 440 N (window N cs)).
Proof.
  intros HN Hlen. unfold lag_im, DFT_coefficient. rewrite Rsum_rev.
  cbn [Complex.im].
  rewrite <- Rsum_opp.
  apply Rsum_ext. intros m Hm.
  rewrite lag_window_sample, lag_angle by assumption.
  rewrite sin_turn_plus, sin_neg by assumption. ring.
Qed.
End ExactWindow.

Section ExactClaims.
Local Open Scope R_scope.

(** C2. Over exact arithmetic, once at least [N] samples have been fed to
    a new processor (by calls of [process] on inputs that each hold a
    sample, and by any further turns of the loop of a call under way),
    the accumulated [dft] is the single-frequency DFT coefficient, at bin
    [k], of the window of the last [N] samples: the update
    [dft <- (dft - previous + current) * coeff] gives what recomputing
    over the new window gives. *)
Theorem dft_is_window_DFT (N : Z) (e0 : SlidingDFT.SlidingDFT R)
    (blocks : list (AudioInput R)) (cs : list R) :
  (0 < N < 65536)%Z ->
  SlidingDFT.new N = Some e0 ->
  Forall with_samples blocks ->
  (Z.to_nat N <= length (stream blocks ++ cs))%nat ->
  SlidingDFT.dft (fold_left SlidingDFT.update cs (SlidingDFT.run e0 blocks))
  = DFT_coefficient (SlidingDFT.k e0) (SlidingDFT.N e0)
                    (window N (stream blocks ++ cs)).
Proof.
  intros HN Hnew _ Hlen.
  destruct (tracks_run N HN e0 blocks cs Hnew)
    as (_ & _ & _ & _ & Hre & Him & _).
  rewrite new_eq in Hnew. injection Hnew as <-. simpl SlidingDFT.k.
  simpl SlidingDFT.N.
  rewrite lag_re_DFT in Hre by assumption.
  rewrite lag_im_DFT in Him by assumption.
  destruct (SlidingDFT.dft _) as [r i]. simpl in Hre, Him.
  rewrite Hre, Him. reflexivity.
Qed.

(** C4. Over exact arithmetic, from a new processor (zero power, zero
    history) and over calls of [process] on inputs that each hold a
    sample, after every update the running [totalPower] is the sum of
    the squares of the samples inside the window, and so is not
    negative. *)
Theorem totalPower_is_window_power (N : Z) (e0 : SlidingDFT.SlidingDFT R)
    (blocks : list (AudioInput R)) (cs : list R) :
  (0 < N < 65536)%Z ->
  SlidingDFT.new N = Some e0 ->
  Forall with_samples blocks ->
  SlidingDFT.totalPower
    (fold_left SlidingDFT.update cs (SlidingDFT.run e0 blocks))
  = sum_squares (window N (stream blocks ++ cs))
  /\ 0 <= SlidingDFT.totalPower
            (fold_left SlidingDFT.update cs (SlidingDFT.run e0 blocks)).
Proof.
  intros HN Hnew _.
  destruct (tracks_run N HN e0 blocks cs Hnew)
    as (_ & _ & _ & _ & _ & _ & Hpw).
  rewrite Hpw, lag_power_window.
  split; [reflexivity|apply sum_squares_nonneg].
Qed.
End ExactClaims.

(** ** The constructor and the window length *)

Section Construction.
Context {T : Type} `{Arith T}.
Local Open Scope Z_scope.

Lemma fold_update_holds (cs : list T) (e : SlidingDFT.SlidingDFT T)
    (hist : list T) :
  holds (SlidingDFT.ringBuffer e) hist ->
  holds (SlidingDFT.ringBuffer (fold_left SlidingDFT.update cs e)) (hist ++ cs).
Proof.
  revert e hist; induction cs as [|c cs IH]; intros e hist Hh; simpl.
  - rewrite app_nil_r. assumption.
  - replace (hist ++ c :: cs) with ((hist ++ [c]) ++ cs)
      by (rewrite <- app_assoc; reflexivity).
    apply IH. simpl. apply write_holds, Hh.
Qed.

Lemma fold_update_N (cs : list T) (e : SlidingDFT.SlidingDFT T) :
  SlidingDFT.N (fold_left SlidingDFT.update cs e) = SlidingDFT.N e.
Proof.
  revert e; induction cs as [|c cs IH]; intros e; simpl; auto.
  rewrite IH. reflexivity.
Qed.

(** A lookback is taken modulo the capacity. *)
Lemma read_aliases (rb : RingBuffer.RingBuffer T) (d : Z) :
  wf rb -> RingBuffer.read rb d = RingBuffer.read rb (d mod capacity rb).
Proof.
  intros (b & Hb & Hm & Hlen). unfold RingBuffer.read, capacity.
  rewrite Hm, !read_slot by lia.
  replace (2 ^ b - 1 + 1) with (2 ^ b) by lia.
  f_equal.
  rewrite (Zminus_mod (RingBuffer.index rb - d)),
          (Zminus_mod (RingBuffer.index rb - d mod 2 ^ b)).
  rewrite (Zminus_mod (RingBuffer.index rb) d),
          (Zminus_mod (RingBuffer.index rb) (d mod 2 ^ b)).
  rewrite Z.mod_mod by (pose proof (pow2_pos b); lia).
  reflexivity.
Qed.

Lemma fold_update_mask (cs : list T) (e : SlidingDFT.SlidingDFT T) :
  RingBuffer.mask (SlidingDFT.ringBuffer (fold_left SlidingDFT.update cs e))
  = RingBuffer.mask (SlidingDFT.ringBuffer e).
Proof.
  revert e; induction cs as [|c cs IH]; intros e; simpl; auto.
  rewrite IH. reflexivity.
Qed.

(** In a processor over a new ring buffer of 65536 slots, the lookback of
    the loop is the window length modulo 65536. *)
Lemma previous_sample_modulo (e : SlidingDFT.SlidingDFT T) (cs : list T) :
  holds (SlidingDFT.ringBuffer e) [] ->
  capacity (SlidingDFT.ringBuffer e) = 65536 ->
  RingBuffer.read
    (SlidingDFT.ringBuffer (fold_left SlidingDFT.update cs e))
    (SlidingDFT.N (fold_left SlidingDFT.update cs e))
  = history_at cs (Z.of_nat (length cs) - 1 - SlidingDFT.N e mod 65536).
Proof.
  intros Hh0 Hcap0.
  pose proof (fold_update_holds cs e [] Hh0) as Hh. simpl in Hh.
  assert (Hcap : capacity
            (SlidingDFT.ringBuffer (fold_left SlidingDFT.update cs e))
          = 65536).
  { unfold capacity in *. rewrite fold_update_mask. exact Hcap0. }
  rewrite fold_update_N, read_aliases by apply Hh.
  rewrite Hcap. apply (read_holds _ cs _ Hh).
  rewrite Hcap. apply Z.mod_pos_bound. lia.
Qed.

(** C7, as the code has it. The constructor checks nothing: for every
    sample rate it returns a processor whose window length [N] is that
    rate, over a ring buffer of 65536 slots. Whatever [N] is, the sample
    the loop reads as [previousSample] is the one [N mod 65536] writes
    before the current one (zero if there is none). *)
Theorem constructor_accepts_every_window `{MathLib T} (sampleRate : Z) :
  exists e : SlidingDFT.SlidingDFT T,
    SlidingDFT.new sampleRate = Some e /\
    SlidingDFT.N e = sampleRate /\
    capacity (SlidingDFT.ringBuffer e) = 65536 /\
    forall cs : list T,
      RingBuffer.read
        (SlidingDFT.ringBuffer (fold_left SlidingDFT.update cs e))
        (SlidingDFT.N (fold_left SlidingDFT.update cs e))
      = history_at cs (Z.of_nat (length cs) - 1 - sampleRate mod 65536).
Proof.
  eexists. split; [apply new_eq|].
  split; [reflexivity|]. split; [reflexivity|].
  intros cs. rewrite previous_sample_modulo.
  - reflexivity.
  - apply default_ringBuffer_holds.
  - reflexivity.
Qed.
End Construction.

(** C7 as stated fails: at a sample rate of 96000 the window is longer
    than the buffer, the constructor returns a processor all the same,
    and that processor reads the sample 30464 writes back as the one
    leaving its window. *)
Lemma constructor_accepts_96000 :
  exists e : SlidingDFT.SlidingDFT R,
    SlidingDFT.new 96000 = Some e /\
    (capacity (SlidingDFT.ringBuffer e) <= SlidingDFT.N e)%Z /\
    forall cs : list R,
      RingBuffer.read
        (SlidingDFT.ringBuffer (fold_left SlidingDFT.update cs e))
        (SlidingDFT.N (fold_left SlidingDFT.update cs e))
      = history_at cs (Z.of_nat (length cs) - 1 - 30464).
Proof.
  eexists. split; [apply new_eq|].
  split; [unfold capacity; simpl; lia|].
  intros cs. rewrite previous_sample_modulo.
  - reflexivity.
  - apply default_ringBuffer_holds.
  - reflexivity.
Qed.

(** ** PianolizerNode.process *)

Section PianolizerNodeFacts.
Context {T : Type} `{Arith T}.
Variable Engine : Type.
Variable Engine_process : Engine -> list T -> T -> Engine * list T.
Local Open Scope Z_scope.

Local Abbreviation Node := (PianolizerNode.PianolizerNode (T:=T) Engine).
Local Abbreviation process := (PianolizerNode.process Engine Engine_process).

Lemma length_mix_channel (channel : list T) (indices : list Z)
    (acc : list T * Z) :
  length (fst (PianolizerNode.mix_channel channel indices acc))
  = length (fst acc).
Proof.
  unfold PianolizerNode.mix_channel.
  revert acc; induction indices as [|i indices IH]; intros [samples count];
    simpl; auto.
  rewrite IH. simpl. apply length_typed_set.
Qed.

Lemma length_mix_down (input : AudioInput T) (windowSize : Z)
    (samples : list T) :
  length (fst (PianolizerNode.mix_down input windowSize samples))
  = length samples.
Proof.
  unfold PianolizerNode.mix_down.
  change samples with (fst (samples, 0)) at 2.
  generalize (samples, 0). clear samples.
  induction input as [|port input IH]; intros acc; simpl; auto.
  rewrite IH. clear IH.
  revert acc; induction port as [|channel port IH]; intros acc; simpl; auto.
  rewrite IH. apply length_mix_channel.
Qed.

Lemma length_normalize (samples : list T) (windowSize : Z) (n : T) :
  length (PianolizerNode.normalize samples windowSize n) = length samples.
Proof.
  unfold PianolizerNode.normalize.
  revert samples; induction (upto windowSize) as [|i l IH]; intros samples;
    simpl; auto.
  rewrite IH. apply length_typed_set.
Qed.

(** With a channel in the first port, a call hands the engine a block of
    as many values as that channel has samples, whatever that number and
    whatever it was in the call before. *)
Lemma process_hands_block (this : Node) (input00 : list T)
    (input0 : list (list T)) (ports : AudioInput T)
    (parameters : PianolizerNode.Parameters) (currentTime : T) :
  exists (block : list T) (out : PianolizerNode.Outcome (T:=T) Engine),
    process this ((input00 :: input0) :: ports) parameters currentTime
    = Some out /\
    length block = length input00 /\
    PianolizerNode.samples (PianolizerNode.self out) = Some block /\
    PianolizerNode.slidingDFT (PianolizerNode.self out)
    = fst (Engine_process (PianolizerNode.slidingDFT this) block
             (typed_get (PianolizerNode.smooth parameters) 0)).
Proof.
  unfold PianolizerNode.process.
  cbn [length Z.of_nat Z.eqb].
  destruct (Z.eqb_spec (Z.of_nat (length (input00 :: input0))) 0) as [E|_];
    [simpl in E; lia|].
  set (windowSize := Z.of_nat (length input00)).
  set (samples0 := match PianolizerNode.samples this with
                   | None => Float32Array windowSize
                   | Some samples =>
                       if negb (Z.of_nat (length samples) =? windowSize)
                       then Float32Array windowSize else samples
                   end).
  assert (Hlen0 : length samples0 = length input00).
  { subst samples0.
    assert (Hnew : length (Float32Array (T:=T) windowSize) = length input00).
    { unfold Float32Array, windowSize. rewrite repeat_length. lia. }
    destruct (PianolizerNode.samples this) as [samples|]; auto.
    destruct (Z.eqb_spec (Z.of_nat (length samples)) windowSize); simpl; auto.
    unfold windowSize in *. lia. }
  pose proof (length_mix_down ((input00 :: input0) :: ports) windowSize
                              samples0) as Hmix.
  destruct (PianolizerNode.mix_down ((input00 :: input0) :: ports)
                                    windowSize samples0) as [samples1 count].
  simpl in Hmix.
  set (samples2 := PianolizerNode.normalize samples1 windowSize
                     (ofZ count / ofZ windowSize)%js).
  assert (Hlen2 : length samples2 = length input00).
  { subst samples2. rewrite length_normalize. congruence. }
  destruct (Engine_process (PianolizerNode.slidingDFT this) samples2
              (typed_get (PianolizerNode.smooth parameters) 0))
    as [engine' levels] eqn:HE.
  destruct (PianolizerNode.nextUpdateFrame this <=? currentTime)%js;
    eexists samples2, _; (split; [reflexivity|]); simpl;
    (split; [exact Hlen2|split; [reflexivity|rewrite HE; reflexivity]]).
Qed.

(** C10. With no channel in the first input port, [process] returns [true]
    at once: the node it leaves is the node it was given, scratch buffer
    and engine included (the engine is not called, whatever it is), and
    nothing is posted. *)
Theorem process_without_channels (this : Node) (ports : AudioInput T)
    (parameters : PianolizerNode.Parameters) (currentTime : T) :
  process this ([] :: ports) parameters currentTime
  = Some (PianolizerNode.Done this None true).
Proof.
  unfold PianolizerNode.process.
  destruct (Z.eqb_spec (Z.of_nat (length (@nil (list T)))) 0) as [_|E].
  - reflexivity.
  - simpl in E. lia.
Qed.
End PianolizerNodeFacts.

(** ** SlidingDFT.process: the mix-down and the fixed block of 128 *)

Section MixDown.
Context {T : Type} `{Arith T}.
Local Open Scope Z_scope.

Lemma set_nth_beyond (l : list T) (n : nat) (v : T) :
  (length l <= n)%nat -> set_nth l n v = l.
Proof.
  revert n; induction l as [|x l IH]; intros [|n] Hn; simpl in *;
    try lia; auto.
  rewrite IH by lia. reflexivity.
Qed.

Lemma set_nth_app (pre post : list T) (a v : T) :
  set_nth (pre ++ a :: post) (length pre) v = pre ++ v :: post.
Proof.
  induction pre as [|x pre IH]; simpl; [reflexivity|].
  rewrite IH. reflexivity.
Qed.

(** Past the end of the scratch array only the count moves. *)
Lemma mix_channel_beyond (channel samples : list T) (i count : Z) :
  Z.of_nat (length samples) <= i ->
  SlidingDFT.mix_channel channel i (samples, count)
  = (samples, count + Z.of_nat (length channel)).
Proof.
  revert i count; induction channel as [|x channel IH]; intros i count Hi.
  - simpl. f_equal. lia.
  - cbn [SlidingDFT.mix_channel].
    unfold typed_set at 1.
    destruct (Z.ltb_spec i 0); [lia|].
    rewrite set_nth_beyond by lia.
    rewrite IH by lia. f_equal. simpl length. lia.
Qed.

Lemma mix_channel_accumulate (channel pre post : list T) (count : Z) :
  SlidingDFT.mix_channel channel (Z.of_nat (length pre)) (pre ++ post, count)
  = (pre ++ accumulate post channel, count + Z.of_nat (length channel)).
Proof.
  revert pre post count; induction channel as [|x channel IH];
    intros pre post count.
  - simpl. destruct post; f_equal; lia.
  - destruct post as [|a post].
    + rewrite mix_channel_beyond by (rewrite app_nil_r; lia).
      reflexivity.
    + cbn [SlidingDFT.mix_channel accumulate].
      unfold typed_set, typed_get.
      destruct (Z.ltb_spec (Z.of_nat (length pre)) 0); [lia|].
      rewrite Nat2Z.id, nth_middle, set_nth_app.
      replace (pre ++ fround (a + x)%js :: post)
        with ((pre ++ [fround (a + x)%js]) ++ post)
        by (rewrite <- app_assoc; reflexivity).
      replace (Z.of_nat (length pre) + 1)
        with (Z.of_nat (length (pre ++ [fround (a + x)%js])))
        by (rewrite length_app; simpl; lia).
      rewrite IH. rewrite <- app_assoc. simpl.
      f_equal. lia.
Qed.

Lemma accumulate_repeat (z : T) (n : nat) (channel : list T) :
  accumulate (repeat z n) channel
  = map (fun x => fround (z + x)%js) (firstn n channel)
    ++ repeat z (n - length channel).
Proof.
  revert channel; induction n as [|n IH]; intros [|x channel]; simpl; auto.
  rewrite IH. reflexivity.
Qed.

(** The mix-down of one channel: its first 128 samples, each added to
    zero in single precision, then zeros up to 128; every sample of the
    channel is counted. *)
Lemma mix_down_single (channel : list T) :
  SlidingDFT.mix_down [[channel]]
  = (map (fun x => fround (ofZ 0 + x)%js) (firstn 128 channel)
     ++ repeat (ofZ 0) (128 - length channel),
     Z.of_nat (length channel)).
Proof.
  unfold SlidingDFT.mix_down. cbn [fold_left].
  pose proof (mix_channel_accumulate channel []
                (Float32Array SlidingDFT.windowSize) 0) as Hm.
  cbn [length Z.of_nat app] in Hm. rewrite Hm.
  unfold Float32Array. rewrite accumulate_repeat.
  reflexivity.
Qed.

Lemma map_typed_get_upto (l : list T) :
  map (typed_get l) (upto (Z.of_nat (length l))) = l.
Proof.
  unfold upto. rewrite Nat2Z.id, map_map.
  apply (nth_ext _ _ NaN NaN).
  - rewrite length_map, length_seq. reflexivity.
  - intros n Hn. rewrite length_map, length_seq in Hn.
    rewrite (nth_indep _ NaN (typed_get l (Z.of_nat 0)))
      by (rewrite length_map, length_seq; exact Hn).
    rewrite (map_nth (fun i => typed_get l (Z.of_nat i))).
    rewrite seq_nth by exact Hn. unfold typed_get.
    destruct (Z.ltb_spec (Z.of_nat (0 + n)) 0); [lia|].
    rewrite Nat2Z.id. reflexivity.
Qed.

Lemma normalized_map (n : T) (samples : list T) :
  length samples = 128%nat ->
  SlidingDFT.normalized n samples = map (fun s => (s / n)%js) samples.
Proof.
  intros Hlen. unfold SlidingDFT.normalized.
  transitivity (map (fun s => (s / n)%js)
                    (map (typed_get samples)
                         (upto (Z.of_nat (length samples))))).
  - rewrite map_map, Hlen. reflexivity.
  - rewrite map_typed_get_upto. reflexivity.
Qed.

(** What one call makes of a single channel, of any length. *)
Lemma currentSamples_single (channel : list T) :
  SlidingDFT.currentSamples [[channel]]
  = map (fun s => (s / (ofZ (Z.of_nat (length channel))
                        / ofZ SlidingDFT.windowSize))%js)
        (map (fun x => fround (ofZ 0 + x)%js) (firstn 128 channel)
         ++ repeat (ofZ 0) (128 - length channel)).
Proof.
  unfold SlidingDFT.currentSamples. rewrite mix_down_single.
  apply normalized_map.
  rewrite length_app, length_map, length_firstn, repeat_length. lia.
Qed.

Lemma process_index (this : SlidingDFT.SlidingDFT T) (input : AudioInput T) :
  RingBuffer.index
    (SlidingDFT.ringBuffer (SlidingDFT.self (SlidingDFT.process this input)))
  = RingBuffer.index (SlidingDFT.ringBuffer this) + 128.
Proof.
  destruct (process_core this input) as (_ & Hrb & _).
  rewrite Hrb, fold_update_index, length_currentSamples. reflexivity.
Qed.

(** C8 on [src/sdft.js]. Whatever the length of the block, one call of
    [process] runs the loop 128 times, over the first 128 samples of the
    block (zeros where the block is shorter), each divided by
    [length / 128]: it consumes the block sample by sample only when the
    block has 128 samples. *)
Theorem process_runs_128_updates (this : SlidingDFT.SlidingDFT T)
    (channel : list T) :
  core_eq (SlidingDFT.self (SlidingDFT.process this [[channel]]))
          (fold_left SlidingDFT.update
                     (SlidingDFT.currentSamples [[channel]]) this) /\
  length (SlidingDFT.currentSamples [[channel]]) = 128%nat /\
  SlidingDFT.currentSamples [[channel]]
  = map (fun s => (s / (ofZ (Z.of_nat (length channel)) / ofZ 128))%js)
        (map (fun x => fround (ofZ 0 + x)%js) (firstn 128 channel)
         ++ repeat (ofZ 0) (128 - length channel)) /\
  RingBuffer.index
    (SlidingDFT.ringBuffer (SlidingDFT.self (SlidingDFT.process this [[channel]])))
  = RingBuffer.index (SlidingDFT.ringBuffer this) + 128.
Proof.
  split; [apply process_core|].
  split; [apply length_currentSamples|].
  split; [apply currentSamples_single|apply process_index].
Qed.

(** C5 on [src/sdft.js]. A stream handed over in one call and the same
    stream split over two calls do not leave the same state: the single
    call writes 128 samples to the ring buffer, the two calls 256. *)
Theorem process_split_differs (this : SlidingDFT.SlidingDFT T)
    (xs ys : list T) :
  RingBuffer.index
    (SlidingDFT.ringBuffer
       (SlidingDFT.self (SlidingDFT.process this [[xs ++ ys]])))
  = RingBuffer.index (SlidingDFT.ringBuffer this) + 128 /\
  RingBuffer.index
    (SlidingDFT.ringBuffer (SlidingDFT.run this [[[xs]]; [[ys]]]))
  = RingBuffer.index (SlidingDFT.ringBuffer this) + 256.
Proof.
  split; [apply process_index|].
  unfold SlidingDFT.run. cbn [fold_left].
  rewrite !process_index. lia.
Qed.
End MixDown.

(** ** IEEE arithmetic: silence *)

Section Silence.
Local Open Scope float_scope.

Lemma zero_or_nan_0 : zero_or_nan 0.
Proof. exact I. Qed.

Lemma zero_or_nan_mul (x c : float) : zero_or_nan x -> zero_or_nan (x * c).
Proof.
  unfold zero_or_nan. rewrite mul_spec. unfold SF64mul, SFmul.
  destruct (Prim2SF x), (Prim2SF c); simpl; tauto.
Qed.

Lemma zero_or_nan_sub (x y : float) :
  zero_or_nan x -> zero_or_nan y -> zero_or_nan (x - y).
Proof.
  unfold zero_or_nan. rewrite sub_spec. unfold SF64sub, SFsub.
  destruct (Prim2SF x) as [[]| | |], (Prim2SF y) as [[]| | |]; simpl; tauto.
Qed.

Lemma zero_or_nan_add (x y : float) :
  zero_or_nan x -> zero_or_nan y -> zero_or_nan (x + y).
Proof.
  unfold zero_or_nan. rewrite add_spec. unfold SF64add, SFadd.
  destruct (Prim2SF x) as [[]| | |], (Prim2SF y) as [[]| | |]; simpl; tauto.
Qed.

Lemma zero_or_nan_sqrt (x : float) : zero_or_nan x -> zero_or_nan (sqrt x).
Proof.
  unfold zero_or_nan. rewrite sqrt_spec. unfold SF64sqrt, SFsqrt.
  destruct (Prim2SF x) as [[]| | |]; simpl; tauto.
Qed.

Lemma zero_or_nan_div_l (x y : float) : zero_or_nan x -> zero_or_nan (x / y).
Proof.
  unfold zero_or_nan. rewrite div_spec. unfold SF64div, SFdiv.
  destruct (Prim2SF x) as [[]| | |], (Prim2SF y) as [[]|[]| |]; simpl; tauto.
Qed.

(** Zero or NaN divided by zero or NaN is NaN. *)
Lemma zero_or_nan_div (x y : float) :
  zero_or_nan x -> zero_or_nan y -> x / y = nan.
Proof.
  unfold zero_or_nan. intros Hx Hy.
  rewrite <- (SF2Prim_Prim2SF (x / y)), div_spec. unfold SF64div, SFdiv.
  destruct (Prim2SF x) as [[]| | |], (Prim2SF y) as [[]|[]| |];
    simpl in *; try contradiction; reflexivity.
Qed.

Lemma set_nth_repeat (v : float) (n i : nat) :
  set_nth (repeat v n) i v = repeat v n.
Proof.
  revert i; induction n as [|n IH]; intros [|i]; simpl; auto.
  rewrite IH. reflexivity.
Qed.

Lemma typed_set_zeros (n i : Z) :
  typed_set (Float32Array (T:=float) n) i 0 = Float32Array n.
Proof.
  unfold typed_set, Float32Array. destruct (i <? 0)%Z; [reflexivity|].
  apply set_nth_repeat.
Qed.

Lemma quiet_update (e : SlidingDFT.SlidingDFT float) :
  quiet e -> quiet (SlidingDFT.update e 0).
Proof.
  intros ((i & Hrb) & Hre & Him & Hpw).
  assert (Hprev : RingBuffer.read
                    (RingBuffer.write (SlidingDFT.ringBuffer e) 0)
                    (SlidingDFT.N e) = 0).
  { rewrite Hrb. unfold RingBuffer.read, RingBuffer.write. simpl.
    rewrite typed_set_zeros.
    change 65535%Z with (2 ^ 16 - 1)%Z. rewrite int32_and_mask by lia.
    rewrite (typed_get_Float32Array (T:=float));
      [reflexivity|apply Z.mod_pos_bound; lia]. }
  unfold quiet, SlidingDFT.update. simpl. rewrite Hprev, Hpw.
  split; [|split; [|split]].
  - exists (i + 1)%Z. rewrite Hrb. unfold RingBuffer.write. simpl.
    rewrite typed_set_zeros. reflexivity.
  - apply zero_or_nan_sub; apply zero_or_nan_mul;
      repeat first [apply zero_or_nan_add | apply zero_or_nan_sub
                   | exact zero_or_nan_0 | assumption].
  - apply zero_or_nan_add; apply zero_or_nan_mul;
      repeat first [apply zero_or_nan_add | apply zero_or_nan_sub
                   | exact zero_or_nan_0 | assumption].
  - reflexivity.
Qed.

Lemma quiet_fold (cs : list float) (e : SlidingDFT.SlidingDFT float) :
  Forall (fun c => c = 0) cs -> quiet e ->
  quiet (fold_left SlidingDFT.update cs e).
Proof.
  revert e; induction cs as [|c cs IH]; intros e Hcs He; simpl; auto.
  inversion Hcs as [|? ? -> Hcs']; subst.
  apply IH; [assumption|]. apply quiet_update, He.
Qed.

Lemma quiet_core_eq (a b : SlidingDFT.SlidingDFT float) :
  core_eq a b -> quiet b -> quiet a.
Proof.
  unfold core_eq, quiet. intros (Hu&Hr&Hk&HNe&Hc&Hd&Hp).
  rewrite Hr, Hd, Hp. auto.
Qed.

Lemma currentSamples_silence :
  SlidingDFT.currentSamples silence = repeat 0 128.
Proof. vm_compute. reflexivity. Qed.

Lemma stream_silence (b : nat) :
  Forall (fun c => c = 0) (stream (repeat silence b)).
Proof.
  unfold stream. induction b as [|b IH]; cbn [repeat map concat];
    [constructor|].
  apply Forall_app. split; [|exact IH].
  rewrite currentSamples_silence. apply Forall_forall.
  intros c Hc. apply repeat_spec in Hc. exact Hc.
Qed.

Lemma quiet_new `{MathLib float} (sampleRate : Z)
    (e0 : SlidingDFT.SlidingDFT float) :
  SlidingDFT.new sampleRate = Some e0 -> quiet e0.
Proof.
  rewrite new_eq. intros [= <-]. unfold quiet. simpl.
  split; [exists 0%Z; reflexivity|].
  split; [exact zero_or_nan_0|]. split; [exact zero_or_nan_0|reflexivity].
Qed.

(** With an all-zero history the level is 0/0. *)
Lemma quiet_level (e : SlidingDFT.SlidingDFT float) :
  quiet e -> SlidingDFT.level e = nan.
Proof.
  intros (_ & Hre & Him & Hpw).
  unfold SlidingDFT.level, Complex.magnitude. simpl. rewrite Hpw.
  apply zero_or_nan_div.
  - apply zero_or_nan_sqrt, zero_or_nan_add; apply zero_or_nan_mul;
      assumption.
  - apply zero_or_nan_sqrt, zero_or_nan_div_l, zero_or_nan_0.
Qed.

(** The level a call posts, when it posts one, is the level of the state
    after the loop. *)
Lemma process_posted {T : Type} `{Arith T} (this : SlidingDFT.SlidingDFT T)
    (input : AudioInput T) (v : T) :
  SlidingDFT.posted (SlidingDFT.process this input) = Some v ->
  v = SlidingDFT.level
        (fold_left SlidingDFT.update (SlidingDFT.currentSamples input) this).
Proof.
  unfold SlidingDFT.process, SlidingDFT.currentSamples, SlidingDFT.feed.
  destruct (SlidingDFT.mix_down input) as [samples count].
  generalize (fold_left SlidingDFT.update
                (SlidingDFT.normalized
                   (ofZ count / ofZ SlidingDFT.windowSize)%js samples) this).
  intros this1.
  destruct (SlidingDFT.nextUpdateFrame this1 - ofZ SlidingDFT.windowSize
            <? ofZ 0)%js; simpl; congruence.
Qed.

Lemma quiet_run `{MathLib float} (sampleRate : Z)
    (e0 : SlidingDFT.SlidingDFT float) (b : nat) :
  SlidingDFT.new sampleRate = Some e0 ->
  quiet (SlidingDFT.run e0 (repeat silence b)).
Proof.
  intros Hnew.
  eapply quiet_core_eq; [apply run_core|].
  apply quiet_fold; [apply stream_silence|].
  apply (quiet_new sampleRate), Hnew.
Qed.

(** C1, as the code has it. Whatever the implementation of [Math.cos],
    [Math.sin] and [Math.exp] and whatever the sample rate, a new
    processor fed any number of blocks of silence has the level NaN:
    the window holds only zeros, [dft] and [totalPower] are zero, and
    [|dft| / sqrt(totalPower / N)] is 0/0, the denominator not being
    clamped. A level posted to the port on a further block of silence is
    NaN. *)
Theorem silence_level_is_NaN `{MathLib float} (sampleRate : Z) (b : nat) :
  exists e0 : SlidingDFT.SlidingDFT float,
    SlidingDFT.new sampleRate = Some e0 /\
    SlidingDFT.level (SlidingDFT.run e0 (repeat silence b)) = nan /\
    forall v : float,
      SlidingDFT.posted
        (SlidingDFT.process (SlidingDFT.run e0 (repeat silence b)) silence)
      = Some v ->
      v = nan.
Proof.
  eexists. split; [apply new_eq|].
  match goal with |- context [SlidingDFT.run ?e _] => set (e0 := e) end.
  assert (Hq : quiet (SlidingDFT.run e0 (repeat silence b)))
    by (apply (quiet_run sampleRate), new_eq).
  split; [apply quiet_level, Hq|].
  intros v Hv. apply process_posted in Hv. rewrite Hv.
  apply quiet_level, quiet_fold; [|exact Hq].
  rewrite currentSamples_silence. apply Forall_forall.
  intros c Hc. apply repeat_spec in Hc. exact Hc.
Qed.

(** C1 as stated fails: at 48 kHz, a processor that has seen only silence
    has the level NaN, not 0, and a call of [process] on a block of
    silence posts NaN to the port. *)
Lemma silence_posts_NaN :
  SlidingDFT.level silent_48000 = nan /\
  SlidingDFT.posted (SlidingDFT.process silent_48000 silence) = Some nan.
Proof. split; vm_compute; reflexivity. Qed.
End Silence.

(** ** Exact arithmetic: a sine wave at the frequency of the bin *)

Section TrigSums.
Local Open Scope R_scope.
Variable th : R.
Variable n : nat.
Hypothesis Hturn : INR n * th = 2 * INR 440 * PI.
Hypothesis Hsin : sin th <> 0.

Lemma Rsum_telescope (F : nat -> R) (m : nat) :
  Rsum (fun i => F i - F (S i)) m = F O - F m.
Proof. induction m as [|m IH]; simpl; [|rewrite IH]; lra. Qed.

Lemma sin_two_turns (w : R) : sin (w - 2 * (INR n * th)) = sin w.
Proof.
  rewrite Hturn.
  replace w with ((w - 2 * (2 * INR 440 * PI)) + 2 * INR 880 * PI) at 2.
  - rewrite sin_period. reflexivity.
  - rewrite !INR_IZR_INZ. change (Z.of_nat 440) with 440%Z.
    change (Z.of_nat 880) with 880%Z. lra.
Qed.

Lemma cos_two_turns (w : R) : cos (w - 2 * (INR n * th)) = cos w.
Proof.
  rewrite Hturn.
  replace w with ((w - 2 * (2 * INR 440 * PI)) + 2 * INR 880 * PI) at 2.
  - rewrite cos_period. reflexivity.
  - rewrite !INR_IZR_INZ. change (Z.of_nat 440) with 440%Z.
    change (Z.of_nat 880) with 880%Z. lra.
Qed.

(** Over a whole number of periods the cosines of equally spaced angles
    cancel, and so do the sines. *)
Lemma Rsum_cos_cancel (g : R) :
  Rsum (fun i => cos (g - 2 * INR i * th)) n = 0.
Proof.
  pose proof (Rsum_telescope (fun i => sin (g - 2 * INR i * th + th)) n) as Ht.
  cbv beta in Ht.
  rewrite (Rsum_ext _ (fun i => (2 * sin th) * cos (g - 2 * INR i * th)))
    in Ht.
  2:{ intros i _. cbv beta. rewrite S_INR.
      replace (g - 2 * (INR i + 1) * th + th)
        with ((g - 2 * INR i * th) - th) by ring.
      rewrite (sin_plus (g - 2 * INR i * th) th),
              (sin_minus (g - 2 * INR i * th) th). ring. }
  rewrite Rsum_scal in Ht.
  replace (g - 2 * INR n * th + th) with ((g + th) - 2 * (INR n * th))
    in Ht by ring.
  rewrite sin_two_turns in Ht.
  replace (g - 2 * INR 0 * th + th) with (g + th) in Ht by (simpl; ring).
  apply (Rmult_eq_reg_l (2 * sin th)); [lra|].
  intros E. apply Hsin. lra.
Qed.

Lemma Rsum_sin_cancel (g : R) :
  Rsum (fun i => sin (g - 2 * INR i * th)) n = 0.
Proof.
  pose proof (Rsum_telescope (fun i => cos (g - 2 * INR i * th + th)) n) as Ht.
  cbv beta in Ht.
  rewrite (Rsum_ext _ (fun i => (- (2 * sin th)) * sin (g - 2 * INR i * th)))
    in Ht.
  2:{ intros i _. cbv beta. rewrite S_INR.
      replace (g - 2 * (INR i + 1) * th + th)
        with ((g - 2 * INR i * th) - th) by ring.
      rewrite (cos_plus (g - 2 * INR i * th) th),
              (cos_minus (g - 2 * INR i * th) th). ring. }
  rewrite Rsum_scal in Ht.
  replace (g - 2 * INR n * th + th) with ((g + th) - 2 * (INR n * th))
    in Ht by ring.
  rewrite cos_two_turns in Ht.
  replace (g - 2 * INR 0 * th + th) with (g + th) in Ht by (simpl; ring).
  apply (Rmult_eq_reg_l (- (2 * sin th))); [lra|].
  intros E. apply Hsin. lra.
Qed.

(** The three sums of the window over [n] samples of the wave
    [A sin (j th + phi)] that end before sample [t]. *)
Lemma sine_power_sum (A phi : R) (t : nat) :
  (n <= t)%nat ->
  Rsum (fun i => (A * sin (INR (t - 1 - i) * th + phi))
                 * (A * sin (INR (t - 1 - i) * th + phi))) n
  = A * A * INR n / 2.
Proof.
  intros Hnt.
  rewrite (Rsum_ext _
    (fun i => A * A / 2
              + (- (A * A / 2))
                * cos ((2 * INR (t - 1) * th + 2 * phi) - 2 * INR i * th))).
  2:{ intros i Hi. cbv beta. rewrite minus_INR by lia.
      replace (2 * INR (t - 1) * th + 2 * phi - 2 * INR i * th)
        with (2 * ((INR (t - 1) - INR i) * th + phi)) by ring.
      rewrite cos_2a_sin. field. }
  rewrite Rsum_plus, Rsum_const, Rsum_scal, Rsum_cos_cancel. field.
Qed.

Lemma sine_re_sum (A phi : R) (t : nat) :
  (n <= t)%nat -> (0 < n)%nat ->
  Rsum (fun i => (A * sin (INR (t - 1 - i) * th + phi))
                 * cos (INR (S i) * th)) n
  = A * INR n / 2 * sin (INR t * th + phi).
Proof.
  intros Hnt Hn.
  rewrite (Rsum_ext _
    (fun i => A / 2 * sin (INR t * th + phi)
              + (A / 2) * sin ((INR (t - 1) * th - th + phi) - 2 * INR i * th))).
  2:{ intros i Hi. cbv beta.
      rewrite minus_INR, S_INR by lia.
      replace (INR t) with (INR (t - 1) + 1)
        by (rewrite minus_INR by lia; simpl; ring).
      replace ((INR (t - 1) + 1) * th + phi)
        with (((INR (t - 1) - INR i) * th + phi) + (INR i + 1) * th) by ring.
      replace (INR (t - 1) * th - th + phi - 2 * INR i * th)
        with (((INR (t - 1) - INR i) * th + phi) - (INR i + 1) * th) by ring.
      rewrite (sin_plus ((INR (t - 1) - INR i) * th + phi) ((INR i + 1) * th)),
              (sin_minus ((INR (t - 1) - INR i) * th + phi) ((INR i + 1) * th)).
      field. }
  rewrite Rsum_plus, Rsum_const, Rsum_scal, Rsum_sin_cancel. field.
Qed.

Lemma sine_im_sum (A phi : R) (t : nat) :
  (n <= t)%nat -> (0 < n)%nat ->
  Rsum (fun i => (A * sin (INR (t - 1 - i) * th + phi))
                 * sin (INR (S i) * th)) n
  = - (A * INR n / 2 * cos (INR t * th + phi)).
Proof.
  intros Hnt Hn.
  rewrite (Rsum_ext _
    (fun i => - (A / 2 * cos (INR t * th + phi))
              + (A / 2) * cos ((INR (t - 1) * th - th + phi) - 2 * INR i * th))).
  2:{ intros i Hi. cbv beta.
      rewrite minus_INR, S_INR by lia.
      replace (INR t) with (INR (t - 1) + 1)
        by (rewrite minus_INR by lia; simpl; ring).
      replace ((INR (t - 1) + 1) * th + phi)
        with (((INR (t - 1) - INR i) * th + phi) + (INR i + 1) * th) by ring.
      replace (INR (t - 1) * th - th + phi - 2 * INR i * th)
        with (((INR (t - 1) - INR i) * th + phi) - (INR i + 1) * th) by ring.
      rewrite (cos_plus ((INR (t - 1) - INR i) * th + phi) ((INR i + 1) * th)),
              (cos_minus ((INR (t - 1) - INR i) * th + phi) ((INR i + 1) * th)).
      field. }
  rewrite Rsum_plus, Rsum_const, Rsum_scal, Rsum_cos_cancel. field.
Qed.
End TrigSums.

Section SineLevel.
Local Open Scope R_scope.
Local Abbreviation sqrt := R_sqrt.sqrt.

(** Over exact arithmetic a block of one channel of 128 samples is
    consumed as it is. *)
Lemma currentSamples_block (channel : list R) :
  length channel = 128%nat ->
  SlidingDFT.currentSamples [[channel]] = channel.
Proof.
  intros Hlen. rewrite currentSamples_single, Hlen.
  rewrite <- Hlen at 1. rewrite firstn_all.
  change (repeat (ofZ 0) (128 - 128)) with (@nil R).
  rewrite app_nil_r, map_map.
  rewrite <- (map_id channel) at 2. apply map_ext.
  intros x. simpl. unfold SlidingDFT.windowSize. field.
Qed.

Lemma stream_app {T : Type} `{Arith T} (b1 b2 : list (AudioInput T)) :
  stream (b1 ++ b2) = stream b1 ++ stream b2.
Proof. unfold stream. rewrite map_app, concat_app. reflexivity. Qed.

Lemma stream_sine_blocks (A phi : R) (N : Z) (n : nat) :
  stream (sine_blocks A phi N n) = map (sine A phi N) (seq 0 (128 * n)).
Proof.
  unfold sine_blocks. induction n as [|n IH].
  - reflexivity.
  - rewrite seq_S, map_app, stream_app, IH.
    replace (128 * S n)%nat with (128 * n + 128)%nat by lia.
    rewrite seq_app, map_app. f_equal.
    unfold stream. cbn [map concat]. rewrite app_nil_r.
    unfold sine_block. rewrite currentSamples_block; [reflexivity|].
    rewrite length_map, length_seq. reflexivity.
Qed.

Lemma lag_sample_map (x : nat -> R) (t i : nat) :
  (i < t)%nat -> lag_sample (map x (seq 0 t)) i = x (t - 1 - i)%nat.
Proof.
  intros Hi. rewrite lag_sample_nth by (rewrite length_map, length_seq; lia).
  rewrite length_map, length_seq.
  rewrite (nth_indep _ 0 (x O)) by (rewrite length_map, length_seq; lia).
  rewrite map_nth, seq_nth by lia. reflexivity.
Qed.

Lemma theta_range (N : Z) : (880 < N)%Z -> 0 < theta N < PI.
Proof.
  intros HN. unfold theta.
  assert (HN' : 880 < IZR N) by (apply IZR_lt; lia).
  pose proof PI_RGT_0 as Hpi.
  split.
  - apply Rmult_lt_0_compat; [lra|].
    apply Rdiv_lt_0_compat; lra.
  - replace (2 * PI * (440 / IZR N)) with (PI * (880 / IZR N))
      by (field; lra).
    rewrite <- (Rmult_1_r PI) at 2.
    apply Rmult_lt_compat_l; [lra|].
    apply (Rmult_lt_reg_r (IZR N)); [lra|].
    unfold Rdiv. rewrite Rmult_assoc, Rinv_l by lra. lra.
Qed.

(** The level of a pure tone at the frequency of the bin, once the window
    is full: [N / sqrt 2]. *)
Lemma level_of_sine (N : Z) (A phi : R) (n : nat)
    (e0 : SlidingDFT.SlidingDFT R) :
  (880 < N < 65536)%Z -> 0 < A -> (Z.to_nat N <= 128 * n)%nat ->
  SlidingDFT.new N = Some e0 ->
  SlidingDFT.level (SlidingDFT.run e0 (sine_blocks A phi N n))
  = IZR N * sqrt 2 / 2.
Proof.
  intros HN HA Hlen Hnew.
  assert (HN0 : (0 < N < 65536)%Z) by lia.
  pose proof (tracks_run N HN0 e0 (sine_blocks A phi N n) [] Hnew) as Ht.
  cbn [fold_left] in Ht. rewrite app_nil_r, stream_sine_blocks in Ht.
  destruct Ht as (_ & _ & HNe & _ & Hre & Him & Hpw).
  pose proof (full_turn_angle N HN0) as Hturn. rewrite Rplus_0_l in Hturn.
  assert (Hsin : sin (theta N) <> 0).
  { pose proof (theta_range N ltac:(lia)) as [H0 H1].
    pose proof (sin_gt_0 _ H0 H1). lra. }
  set (t := (128 * n)%nat) in *.
  assert (Hpos : (0 < Z.to_nat N)%nat) by lia.
  unfold lag_re in Hre. unfold lag_im in Him. unfold lag_power in Hpw.
  rewrite (Rsum_ext _
    (fun i => (A * sin (INR (t - 1 - i) * theta N + phi))
              * cos (INR (S i) * theta N))) in Hre
    by (intros i Hi; cbv beta; rewrite lag_sample_map by lia; reflexivity).
  rewrite (Rsum_ext _
    (fun i => (A * sin (INR (t - 1 - i) * theta N + phi))
              * sin (INR (S i) * theta N))) in Him
    by (intros i Hi; cbv beta; rewrite lag_sample_map by lia; reflexivity).
  rewrite (Rsum_ext _
    (fun i => (A * sin (INR (t - 1 - i) * theta N + phi))
              * (A * sin (INR (t - 1 - i) * theta N + phi)))) in Hpw
    by (intros i Hi; cbv beta; rewrite lag_sample_map by lia; reflexivity).
  rewrite (sine_re_sum (theta N) (Z.to_nat N) Hturn Hsin) in Hre by lia.
  rewrite (sine_im_sum (theta N) (Z.to_nat N) Hturn Hsin) in Him by lia.
  rewrite (sine_power_sum (theta N) (Z.to_nat N) Hturn Hsin) in Hpw by lia.
  rewrite INR_to_nat_N in Hre, Him, Hpw by lia.
  unfold SlidingDFT.level, Complex.magnitude. simpl.
  rewrite Hre, Him, Hpw, HNe.
  assert (HNR : 0 < IZR N) by (apply IZR_lt; lia).
  set (bt := INR t * theta N + phi).
  replace (A * IZR N / 2 * sin bt * (A * IZR N / 2 * sin bt)
           + - (A * IZR N / 2 * cos bt) * - (A * IZR N / 2 * cos bt))
    with ((A * IZR N / 2) * (A * IZR N / 2) * (Rsqr (sin bt) + Rsqr (cos bt)))
    by (unfold Rsqr; ring).
  rewrite sin2_cos2, Rmult_1_r.
  rewrite sqrt_square by nra.
  replace (A * A * IZR N / 2 / IZR N) with (A * A / 2) by (field; lra).
  rewrite sqrt_div_alt by lra.
  rewrite sqrt_square by lra.
  pose proof (sqrt_lt_R0 2 ltac:(lra)) as Hs2.
  field. lra.
Qed.

(** C6, as the code has it. Over exact arithmetic, at a sample rate [N]
    above 880 (and below the 65536 of the ring buffer) a new processor
    fed a sine wave at 440 Hz, the frequency of its bin, of any amplitude
    and phase, in blocks of 128 samples, has after every block from the
    [N]-th sample on the same level, the window length over the square
    root of two: the magnitude [A N / 2] of the unnormalized [dft] over
    the root mean square [A / sqrt 2] of the window. *)
Theorem sine_level_is_N_over_sqrt2 (N : Z) (A phi : R) (n : nat)
    (e0 : SlidingDFT.SlidingDFT R) :
  (880 < N < 65536)%Z -> 0 < A -> (Z.to_nat N <= 128 * n)%nat ->
  SlidingDFT.new N = Some e0 ->
  SlidingDFT.level (SlidingDFT.run e0 (sine_blocks A phi N n))
  = IZR N / sqrt 2.
Proof.
  intros HN HA Hlen Hnew.
  rewrite (level_of_sine N A phi n e0 HN HA Hlen Hnew).
  pose proof (sqrt_lt_R0 2 ltac:(lra)) as Hs2.
  pose proof (sqrt_sqrt 2 ltac:(lra)) as Hsq.
  apply (Rmult_eq_reg_r (sqrt 2)); [|lra].
  unfold Rdiv. rewrite (Rmult_assoc (IZR N) (/ sqrt 2)), Rinv_l by lra.
  replace (IZR N * sqrt 2 * / 2 * sqrt 2)
    with (IZR N * (sqrt 2 * sqrt 2) * / 2) by ring.
  rewrite Hsq. field.
Qed.

(** C6 as stated fails: at 48 kHz, after 375 blocks (48000 samples, one
    full window) of a sine wave of amplitude 1 at 440 Hz, the level is
    above 30000, nowhere near 1. *)
Lemma sine_level_48000 :
  exists e0 : SlidingDFT.SlidingDFT R,
    SlidingDFT.new 48000 = Some e0 /\
    30000 < SlidingDFT.level (SlidingDFT.run e0 (sine_blocks 1 0 48000 375)).
Proof.
  eexists. split; [apply new_eq|].
  rewrite (level_of_sine 48000 1 0 375); try lia; try lra; [|apply new_eq].
  pose proof (sqrt_lt_R0 2 ltac:(lra)) as Hs2.
  assert (H1 : 5 / 4 < sqrt 2).
  { rewrite <- (sqrt_square (5 / 4)) at 1 by lra. apply sqrt_lt_1; lra. }
  lra.
Qed.
End SineLevel.

(** ** The claims at concrete inputs *)

Section Witnesses.
Local Open Scope R_scope.

Lemma length_stream {T : Type} `{Arith T} (blocks : list (AudioInput T)) :
  length (stream blocks) = (128 * length blocks)%nat.
Proof.
  unfold stream. induction blocks as [|input blocks IH]; [reflexivity|].
  cbn [map concat length]. rewrite length_app, length_currentSamples, IH.
  lia.
Qed.

(** C2 at a sample rate of 1000: eight calls of [process] on a channel of
    three samples (1024 turns of the loop), then two turns of the loop of
    the next call. *)
Lemma dft_is_window_DFT_witness :
  exists e0 : SlidingDFT.SlidingDFT R,
    SlidingDFT.new 1000 = Some e0 /\
    SlidingDFT.dft
      (fold_left SlidingDFT.update [4; 5]
                 (SlidingDFT.run e0 (repeat [[[1; 2; 3]]] 8)))
    = DFT_coefficient (SlidingDFT.k e0) (SlidingDFT.N e0)
        (window 1000 (stream (repeat [[[1; 2; 3]]] 8) ++ [4; 5])).
Proof.
  eexists. split; [apply new_eq|].
  apply (dft_is_window_DFT 1000 _ (repeat [[[1; 2; 3]]] 8) [4; 5]).
  - lia.
  - apply new_eq.
  - apply Forall_forall. intros input Hin. apply repeat_spec in Hin.
    subst input. discriminate.
  - rewrite length_app, length_stream, repeat_length. simpl. lia.
Defined.

(** C4 at 48 kHz: one call on a channel of three samples, then two turns
    of the loop. *)
Lemma totalPower_is_window_power_witness :
  exists e0 : SlidingDFT.SlidingDFT R,
    SlidingDFT.new 48000 = Some e0 /\
    SlidingDFT.totalPower
      (fold_left SlidingDFT.update [4; 5]
                 (SlidingDFT.run e0 [[[[1; 2; 3]]]]))
    = sum_squares (window 48000 (stream [[[[1; 2; 3]]]] ++ [4; 5])) /\
    0 <= SlidingDFT.totalPower
           (fold_left SlidingDFT.update [4; 5]
                      (SlidingDFT.run e0 [[[[1; 2; 3]]]])).
Proof.
  eexists. split; [apply new_eq|].
  apply (totalPower_is_window_power 48000 _ [[[[1; 2; 3]]]] [4; 5]).
  - lia.
  - apply new_eq.
  - repeat constructor. discriminate.
Defined.

(** C6 at 48 kHz: amplitude 1, phase 0, 375 blocks. *)
Lemma sine_level_is_N_over_sqrt2_witness :
  exists e0 : SlidingDFT.SlidingDFT R,
    SlidingDFT.new 48000 = Some e0 /\
    SlidingDFT.level (SlidingDFT.run e0 (sine_blocks 1 0 48000 375))
    = 48000 / R_sqrt.sqrt 2.
Proof.
  eexists. split; [apply new_eq|].
  apply (sine_level_is_N_over_sqrt2 48000 1 0 375).
  - lia.
  - lra.
  - lia.
  - apply new_eq.
Defined.
End Witnesses.

(** ** Blocks that are not 128 samples long, in IEEE arithmetic *)

Section BlockLengths.
Local Open Scope float_scope.

(** [SlidingDFT.process] on a block of 256 samples consumes the first 128,
    each divided by two. *)
Lemma currentSamples_256 :
  SlidingDFT.currentSamples [[repeat 0.5 256]] = repeat 0.25 128.
Proof. vm_compute. reflexivity. Qed.

(** On a block of 64 samples it consumes 128 values: the samples doubled,
    then 64 zeros. *)
Lemma currentSamples_64 :
  SlidingDFT.currentSamples [[repeat 0.5 64]] = repeat 1 64 ++ repeat 0 64.
Proof. vm_compute. reflexivity. Qed.

(** [PianolizerNode.process] keeps its scratch array from one call to the
    next when the block length stays the same, and adds the new block to
    what the array holds: with an engine that leaves the array as it is,
    a block of 0.25s after a block of 0.5s is handed over as 0.75s. *)
Lemma process_adds_to_scratch :
  let engine_process := fun (e : unit) (_ : list float) (_ : float) => (e, @nil float) in
  let parameters := PianolizerNode.Build_Parameters [0.0625] in
  forall node1 : PianolizerNode.Outcome unit,
    PianolizerNode.process unit engine_process (PianolizerNode.new unit tt)
      [[[0.5; 0.5]]] parameters 0 = Some node1 ->
    PianolizerNode.samples (PianolizerNode.self node1) = Some [0.5; 0.5] /\
    option_map (fun o => PianolizerNode.samples (PianolizerNode.self o))
      (PianolizerNode.process unit engine_process (PianolizerNode.self node1)
         [[[0.25; 0.25]]] parameters 0)
    = Some (Some [0.75; 0.75]).
Proof.
  intros engine_process parameters node1 H1.
  vm_compute in H1. injection H1 as <-.
  split; vm_compute; reflexivity.
Qed.
End BlockLengths.

(** * Further properties of the code *)

(** ** RingBuffer: construction, wrap-around, shifting *)

Section RingBufferMore.
Context {T : Type} `{Arith T}.
Local Open Scope Z_scope.

Lemma exec_mask (calls : list (RingBufferCalls.Call (T:=T)))
    (rb : RingBuffer.RingBuffer T) :
  RingBuffer.mask (fst (RingBufferCalls.exec rb calls)) = RingBuffer.mask rb.
Proof.
  revert rb; induction calls as [|[v|d] calls IH]; intros rb; simpl; auto.
  - rewrite IH. reflexivity.
  - specialize (IH rb). destruct (RingBufferCalls.exec rb calls); auto.
Qed.

(** The constructor of [RingBuffer] takes the number of bits modulo 32: it
    throws when that is 31 (the size [1 << 31] is negative), and otherwise
    makes a buffer of [2 ^ (bits mod 32)] slots, every lookback of which
    reads zero. With 32 bits the buffer has a single slot. *)
Theorem RingBuffer_new_cases (bits : Z) :
  (bits mod 32 = 31 -> RingBuffer.new (T:=T) bits = None) /\
  (bits mod 32 <> 31 ->
   exists rb : RingBuffer.RingBuffer T,
     RingBuffer.new bits = Some rb /\
     capacity rb = 2 ^ (bits mod 32) /\
     Z.of_nat (length (RingBuffer.buffer rb)) = 2 ^ (bits mod 32) /\
     RingBuffer.index rb = 0 /\
     forall d : Z, RingBuffer.read rb d = ofZ 0).
Proof.
  split; [apply new_None|].
  intros Hb. eexists. split; [apply new_Some, Hb|].
  pose proof (Z.mod_pos_bound bits 32 ltac:(lia)) as Hm.
  pose proof (pow2_pos (bits mod 32) ltac:(lia)) as Hp.
  split; [unfold capacity; simpl; lia|].
  split; [simpl; apply length_Float32Array; lia|].
  split; [reflexivity|].
  intros d. unfold RingBuffer.read.
  cbn [RingBuffer.buffer RingBuffer.index RingBuffer.mask].
  rewrite read_slot by lia.
  apply typed_get_Float32Array, Z.mod_pos_bound. lia.
Qed.

(** [read] takes its lookback modulo the capacity: on a buffer reached
    from the constructor by any calls, a lookback at or beyond the
    capacity (or a negative one) returns what the lookback reduced modulo
    the capacity returns; nothing fails. *)
Theorem read_wraps_around (bits : Z) (rb0 : RingBuffer.RingBuffer T)
    (calls : list (RingBufferCalls.Call (T:=T))) (d : Z) :
  RingBuffer.new bits = Some rb0 ->
  RingBuffer.read (fst (RingBufferCalls.exec rb0 calls)) d
  = RingBuffer.read (fst (RingBufferCalls.exec rb0 calls))
                    (d mod capacity rb0).
Proof.
  intros Hnew.
  pose proof (exec_holds calls rb0 [] (new_holds bits rb0 Hnew)) as Hh.
  rewrite (read_aliases _ d) by apply Hh.
  unfold capacity. rewrite exec_mask. reflexivity.
Qed.

(** A write moves every sample one step back: after [write(v)], the
    lookback [d + 1] returns what the lookback [d] returned before, as
    long as [d + 1] is below the capacity. *)
Theorem write_shifts_lookback (bits : Z) (rb0 : RingBuffer.RingBuffer T)
    (calls : list (RingBufferCalls.Call (T:=T))) (v : T) (d : Z) :
  RingBuffer.new bits = Some rb0 ->
  0 <= d -> d + 1 < capacity rb0 ->
  RingBuffer.read
    (RingBuffer.write (fst (RingBufferCalls.exec rb0 calls)) v) (d + 1)
  = RingBuffer.read (fst (RingBufferCalls.exec rb0 calls)) d.
Proof.
  intros Hnew Hd0 Hd1.
  pose proof (exec_holds calls rb0 [] (new_holds bits rb0 Hnew)) as Hh.
  pose proof (exec_mask calls rb0) as Hmask.
  set (rb := fst (RingBufferCalls.exec rb0 calls)) in *.
  destruct Hh as ((b & Hb & Hm & Hlen) & _ & _).
  unfold capacity in Hd1. rewrite <- Hmask, Hm in Hd1.
  unfold RingBuffer.read, RingBuffer.write. simpl.
  rewrite Hm, !read_slot, int32_and_mask by lia.
  replace (RingBuffer.index rb + 1 - (d + 1) - 1)
    with (RingBuffer.index rb - d - 1) by lia.
  apply typed_get_set_neq.
  apply not_eq_sym, mod_neq_near. lia.
Qed.
End RingBufferMore.

Section RingBufferMoreWitnesses.
Local Open Scope float_scope.

(** A lookback of 6 on a buffer of four slots is a lookback of 2. *)
Lemma read_wraps_around_witness :
  RingBuffer.read
    (fst (RingBufferCalls.exec
            (RingBuffer.Build 3%Z [0; 0; 0; 0] 0%Z)
            [RingBufferCalls.Write 1; RingBufferCalls.Write 2;
             RingBufferCalls.Write 3]))
    6%Z
  = RingBuffer.read
      (fst (RingBufferCalls.exec
              (RingBuffer.Build 3%Z [0; 0; 0; 0] 0%Z)
              [RingBufferCalls.Write 1; RingBufferCalls.Write 2;
               RingBufferCalls.Write 3]))
      2%Z.
Proof.
  apply (read_wraps_around (T:=float) 2%Z). reflexivity.
Defined.

Lemma write_shifts_lookback_witness :
  RingBuffer.read
    (RingBuffer.write
       (fst (RingBufferCalls.exec
               (RingBuffer.Build 3%Z [0; 0; 0; 0] 0%Z)
               [RingBufferCalls.Write 1; RingBufferCalls.Write 2]))
       3)
    (1 + 1)%Z
  = RingBuffer.read
      (fst (RingBufferCalls.exec
              (RingBuffer.Build 3%Z [0; 0; 0; 0] 0%Z)
              [RingBufferCalls.Write 1; RingBufferCalls.Write 2]))
      1%Z.
Proof.
  apply (write_shifts_lookback (T:=float) 2%Z).
  - reflexivity.
  - lia.
  - unfold capacity; simpl; lia.
Defined.
End RingBufferMoreWitnesses.

(** ** Complex: magnitude, over exact arithmetic *)

Section ComplexMore.
Local Open Scope R_scope.
Local Abbreviation sqrt := R_sqrt.sqrt.

(** The magnitude of a product is the product of the magnitudes. *)
Lemma magnitude_of_mul (z w : Complex.Complex R) :
  Complex.magnitude (Complex.mul z w)
  = Complex.magnitude z * Complex.magnitude w.
Proof.
  destruct z as [a b], w as [c d].
  unfold Complex.magnitude, Complex.mul. simpl.
  rewrite <- sqrt_mult by nra.
  f_equal. ring.
Qed.

(** The magnitude of [z.exp()] is [Math.exp] of the real part of [z]; an
    imaginary [z] gives a number of magnitude 1. *)
Lemma magnitude_of_exp (z : Complex.Complex R) :
  Complex.magnitude (Complex.exp z) = Rtrigo_def.exp (Complex.re z).
Proof.
  destruct z as [a b].
  unfold Complex.magnitude, Complex.exp. simpl.
  pose proof (exp_pos a) as He.
  replace (Rtrigo_def.exp a * cos b * (Rtrigo_def.exp a * cos b)
           + Rtrigo_def.exp a * sin b * (Rtrigo_def.exp a * sin b))
    with (Rtrigo_def.exp a * Rtrigo_def.exp a
          * (Rsqr (sin b) + Rsqr (cos b)))
    by (unfold Rsqr; ring).
  rewrite sin2_cos2, Rmult_1_r. apply sqrt_square. lra.
Qed.

(** [magnitude] is multiplicative, and [exp] has the magnitude that the
    real part of its argument gives: [|z w| = |z| |w|] and
    [|z.exp()| = Math.exp(z.re)], so an imaginary [z] gives a number of
    magnitude 1. *)
Theorem magnitude_laws (z w : Complex.Complex R) :
  Complex.magnitude (Complex.mul z w)
  = Complex.magnitude z * Complex.magnitude w /\
  Complex.magnitude (Complex.exp z) = Rtrigo_def.exp (Complex.re z).
Proof. split; [apply magnitude_of_mul|apply magnitude_of_exp]. Qed.

(** The algebra of [add], [sub] and [mul]: multiplication commutes, is
    associative and distributes over addition, and [sub] undoes [add]. *)
Theorem Complex_algebra (x y z : Complex.Complex R) :
  Complex.mul x y = Complex.mul y x /\
  Complex.mul (Complex.mul x y) z = Complex.mul x (Complex.mul y z) /\
  Complex.mul (Complex.add x y) z
  = Complex.add (Complex.mul x z) (Complex.mul y z) /\
  Complex.sub (Complex.add x y) y = x.
Proof.
  destruct x as [a b], y as [c d], z as [e f].
  unfold Complex.mul, Complex.add, Complex.sub; simpl.
  repeat split; f_equal; ring.
Qed.

Lemma fold_update_coeff {T : Type} `{Arith T} (cs : list T)
    (e : SlidingDFT.SlidingDFT T) :
  SlidingDFT.coeff (fold_left SlidingDFT.update cs e) = SlidingDFT.coeff e.
Proof.
  revert e; induction cs as [|c cs IH]; intros e; simpl; auto.
  rewrite IH. reflexivity.
Qed.

(** The rotation coefficient of a constructed processor has magnitude 1
    at every sample rate, so one turn of the loop changes the magnitude
    of [dft] only by the sample that leaves and the sample that enters:
    the new magnitude is that of [dft - previousSample + currentSample]. *)
Theorem update_rotates (sampleRate : Z) (e0 : SlidingDFT.SlidingDFT R)
    (cs : list R) (c : R) :
  SlidingDFT.new sampleRate = Some e0 ->
  Complex.magnitude (SlidingDFT.coeff e0) = 1 /\
  Complex.magnitude
    (SlidingDFT.dft (SlidingDFT.update (fold_left SlidingDFT.update cs e0) c))
  = Complex.magnitude
      (Complex.add
         (Complex.sub
            (SlidingDFT.dft (fold_left SlidingDFT.update cs e0))
            (Complex.new
               (RingBuffer.read
                  (RingBuffer.write
                     (SlidingDFT.ringBuffer (fold_left SlidingDFT.update cs e0))
                     c)
                  sampleRate)
               0))
         (Complex.new c 0)).
Proof.
  rewrite new_eq. intros [= <-].
  match goal with |- context [fold_left SlidingDFT.update cs ?e] =>
    set (e0 := e) end.
  assert (Hc : Complex.magnitude (SlidingDFT.coeff e0) = 1).
  { subst e0. cbn [SlidingDFT.coeff]. rewrite magnitude_of_exp. simpl.
    apply exp_0. }
  split; [exact Hc|].
  unfold SlidingDFT.update at 1. cbn [SlidingDFT.dft].
  rewrite magnitude_of_mul, fold_update_coeff, Hc, Rmult_1_r, fold_update_N.
  reflexivity.
Qed.
End ComplexMore.

Section ComplexMoreWitnesses.
Local Open Scope R_scope.

Lemma update_rotates_witness :
  exists e0 : SlidingDFT.SlidingDFT R,
    SlidingDFT.new 48000 = Some e0 /\
    Complex.magnitude (SlidingDFT.coeff e0) = 1 /\
    Complex.magnitude
      (SlidingDFT.dft
         (SlidingDFT.update (fold_left SlidingDFT.update [1; 2] e0) 3))
    = Complex.magnitude
        (Complex.add
           (Complex.sub
              (SlidingDFT.dft (fold_left SlidingDFT.update [1; 2] e0))
              (Complex.new
                 (RingBuffer.read
                    (RingBuffer.write
                       (SlidingDFT.ringBuffer
                          (fold_left SlidingDFT.update [1; 2] e0))
                       3)
                    48000)
                 0))
           (Complex.new 3 0)).
Proof.
  eexists. split; [apply new_eq|].
  apply (update_rotates 48000 _ [1; 2] 3). apply new_eq.
Defined.
End ComplexMoreWitnesses.

(** ** SlidingDFT.process: the mix-down of several channels *)

Section MixDownMore.
Context {T : Type} `{Arith T}.
Local Open Scope Z_scope.

Lemma length_accumulate (samples channel : list T) :
  length (accumulate samples channel) = length samples.
Proof.
  revert channel; induction samples as [|a samples IH]; intros [|x channel];
    simpl; auto.
Qed.

Lemma fold_mix_channels (port : list (list T)) (samples : list T) (count : Z) :
  fold_left (fun acc channel => SlidingDFT.mix_channel channel 0 acc) port
            (samples, count)
  = (fold_left accumulate port samples,
     count + Z.of_nat (length (concat port))).
Proof.
  revert samples count; induction port as [|channel port IH];
    intros samples count; simpl.
  - f_equal. lia.
  - pose proof (mix_channel_accumulate channel [] samples count) as Hm.
    cbn [length Z.of_nat app] in Hm. rewrite Hm, IH.
    f_equal. rewrite length_app. lia.
Qed.

Lemma fold_mix_ports (input : AudioInput T) (samples : list T) (count : Z) :
  fold_left
    (fun acc port =>
       fold_left (fun acc channel => SlidingDFT.mix_channel channel 0 acc)
                 port acc)
    input (samples, count)
  = (fold_left accumulate (concat input) samples,
     count + Z.of_nat (length (concat (concat input)))).
Proof.
  revert samples count; induction input as [|port input IH];
    intros samples count; simpl.
  - f_equal. lia.
  - rewrite fold_mix_channels, IH. f_equal.
    + rewrite fold_left_app. reflexivity.
    + rewrite concat_app, length_app. lia.
Qed.

(** The mix-down adds channel after channel onto a scratch array of 128
    zeros and counts every sample of the input. *)
Lemma mix_down_accumulate (input : AudioInput T) :
  SlidingDFT.mix_down input
  = (fold_left accumulate (concat input)
               (Float32Array SlidingDFT.windowSize),
     Z.of_nat (length (concat (concat input)))).
Proof.
  unfold SlidingDFT.mix_down. rewrite fold_mix_ports. reflexivity.
Qed.

(** The number the loop divides by is the number of samples of the input
    over 128; [with_samples] says that it is not [0 / 128]. *)
Lemma count_with_samples (input : AudioInput T) :
  with_samples input <-> snd (SlidingDFT.mix_down input) <> 0%Z.
Proof.
  rewrite mix_down_accumulate. cbn [snd]. unfold with_samples.
  destruct (concat (concat input)); simpl; split; intros Hne;
    try congruence; lia.
Qed.

Lemma length_fold_accumulate (channels : list (list T)) (samples : list T) :
  length (fold_left accumulate channels samples) = length samples.
Proof.
  revert samples; induction channels as [|ch channels IH]; intros samples;
    simpl; auto.
  rewrite IH. apply length_accumulate.
Qed.

Lemma map_nth_seq (l : list T) (d : T) :
  map (fun i => nth i l d) (seq 0 (length l)) = l.
Proof.
  apply (nth_ext _ _ d d).
  - rewrite length_map, length_seq. reflexivity.
  - intros n Hn. rewrite length_map, length_seq in Hn.
    rewrite (nth_indep _ d (nth 0 l d))
      by (rewrite length_map, length_seq; exact Hn).
    rewrite (map_nth (fun i => nth i l d)), seq_nth by exact Hn.
    reflexivity.
Qed.
End MixDownMore.

Section MixDownMean.
Local Open Scope R_scope.

Lemma nth_accumulate (samples channel : list R) (i : nat) :
  length samples = length channel ->
  nth i (accumulate samples channel) 0
  = nth i samples 0 + nth i channel 0.
Proof.
  revert channel i; induction samples as [|a samples IH];
    intros [|x channel] [|i] Hlen; simpl in *; try lia; try lra;
    try reflexivity.
  apply IH. lia.
Qed.

Lemma nth_fold_accumulate (channels : list (list R)) (samples : list R)
    (i : nat) :
  Forall (fun channel => length channel = length samples) channels ->
  nth i (fold_left accumulate channels samples) 0
  = nth i samples 0 + sum_at channels i.
Proof.
  revert samples; induction channels as [|ch channels IH];
    intros samples Hall; simpl.
  - unfold sum_at. simpl. lra.
  - inversion Hall as [|? ? Hch Hrest]; subst.
    rewrite IH.
    + rewrite nth_accumulate by congruence. unfold sum_at. simpl. lra.
    + rewrite length_accumulate. exact Hrest.
Qed.

Lemma length_concat_uniform {A : Type} (n : nat) (l : list (list A)) :
  Forall (fun x => length x = n) l -> length (concat l) = (n * length l)%nat.
Proof.
  induction 1 as [|x l Hx Hl IH]; simpl; [lia|].
  rewrite length_app, IH, Hx. lia.
Qed.

(** With every channel 128 samples long, what the loop consumes is the
    mean of the channels, sample by sample: the sum over the channels of
    all ports, divided by their number. *)
Theorem mix_down_is_mean (input : AudioInput R) :
  concat input <> [] ->
  Forall (fun channel => length channel = 128%nat) (concat input) ->
  SlidingDFT.currentSamples input
  = map (fun i => sum_at (concat input) i / INR (length (concat input)))
        (seq 0 128).
Proof.
  intros Hne Hall.
  unfold SlidingDFT.currentSamples. rewrite mix_down_accumulate.
  set (samples := fold_left accumulate (concat input)
                            (Float32Array SlidingDFT.windowSize)).
  assert (Hlen : length samples = 128%nat).
  { subst samples. rewrite length_fold_accumulate. reflexivity. }
  rewrite normalized_map by exact Hlen.
  rewrite <- (map_nth_seq samples 0) at 1. rewrite Hlen, map_map.
  apply map_ext_in. intros i Hi. apply in_seq in Hi.
  subst samples. rewrite nth_fold_accumulate by exact Hall.
  unfold Float32Array. rewrite nth_repeat_lt by (simpl; lia).
  rewrite (length_concat_uniform 128) by exact Hall.
  assert (Hc : (0 < length (concat input))%nat)
    by (destruct (concat input); [congruence|simpl; lia]).
  assert (HcR : 0 < INR (length (concat input))) by (apply lt_0_INR; lia).
  change (@ofZ R Exact) with IZR. change (@ndiv R Exact) with Rdiv.
  unfold SlidingDFT.windowSize.
  rewrite Nat2Z.inj_mul, mult_IZR.
  rewrite <- (INR_IZR_INZ (length (concat input))).
  change (Z.of_nat 128) with 128%Z.
  field. lra.
Qed.
End MixDownMean.

Section MixDownMeanWitness.
Local Open Scope R_scope.

(** Two ports, three channels in all. *)
Lemma mix_down_is_mean_witness :
  SlidingDFT.currentSamples
    [[repeat 1 128; repeat 2 128]; [repeat 6 128]]
  = map (fun i =>
           sum_at (concat [[repeat 1 128; repeat 2 128]; [repeat 6 128]]) i
           / INR (length
                    (concat [[repeat 1 128; repeat 2 128]; [repeat 6 128]])))
        (seq 0 128).
Proof.
  apply mix_down_is_mean.
  - discriminate.
  - repeat constructor.
Defined.
End MixDownMeanWitness.

(** ** The level: bounds and independence of loudness, over exact arithmetic *)

Section LevelBounds.
Local Open Scope R_scope.
Local Abbreviation sqrt := R_sqrt.sqrt.

Lemma Rsum_squares_nonneg (f : nat -> R) (n : nat) :
  0 <= Rsum (fun i => f i * f i) n.
Proof.
  induction n as [|n IH]; simpl; [lra|]. nra.
Qed.

(** The inequality of Cauchy and Schwarz for finite sums. *)
Lemma Rsum_Cauchy_Schwarz (f g : nat -> R) (n : nat) :
  Rsum (fun i => f i * g i) n * Rsum (fun i => f i * g i) n
  <= Rsum (fun i => f i * f i) n * Rsum (fun i => g i * g i) n.
Proof.
  induction n as [|n IH]; simpl; [lra|].
  pose proof (Rsum_squares_nonneg f n) as Hf.
  pose proof (Rsum_squares_nonneg g n) as Hg.
  revert IH Hf Hg.
  generalize (Rsum (fun i => f i * g i) n) as A.
  generalize (Rsum (fun i => f i * f i) n) as SA.
  generalize (Rsum (fun i => g i * g i) n) as SB.
  generalize (f n) as a. generalize (g n) as b.
  intros b a SB SA A IH Hf Hg.
  assert (Hx : 0 <= SA * (b * b) + SB * (a * a)).
  { apply Rplus_le_le_0_compat; apply Rmult_le_pos; nra. }
  assert (H1 : 0 <= (SA * (b * b) - SB * (a * a))
                    * (SA * (b * b) - SB * (a * a)))
    by exact (Rle_0_sqr (SA * (b * b) - SB * (a * a))).
  assert (H2 : 0 <= (a * b) * (a * b) * (SA * SB - A * A)).
  { apply Rmult_le_pos; [exact (Rle_0_sqr (a * b))|lra]. }
  assert (Hsq : (2 * A * a * b) * (2 * A * a * b)
                <= (SA * (b * b) + SB * (a * a))
                   * (SA * (b * b) + SB * (a * a))).
  { replace ((SA * (b * b) + SB * (a * a)) * (SA * (b * b) + SB * (a * a)))
      with ((SA * (b * b) - SB * (a * a)) * (SA * (b * b) - SB * (a * a))
            + 4 * ((a * b) * (a * b) * (SA * SB - A * A))
            + (2 * A * a * b) * (2 * A * a * b)) by ring.
    lra. }
  assert (Hle : 2 * A * a * b <= SA * (b * b) + SB * (a * a)).
  { destruct (Rle_dec (2 * A * a * b) (SA * (b * b) + SB * (a * a)))
      as [Hok|Hno]; [exact Hok|].
    exfalso. apply Rnot_le_lt in Hno.
    assert (0 <= 2 * A * a * b) by lra.
    assert ((SA * (b * b) + SB * (a * a)) * (SA * (b * b) + SB * (a * a))
            < (2 * A * a * b) * (2 * A * a * b)).
    { apply Rmult_le_0_lt_compat; lra. }
    lra. }
  replace ((A + a * b) * (A + a * b))
    with (A * A + 2 * A * a * b + (a * b) * (a * b)) by ring.
  replace ((SA + a * a) * (SB + b * b))
    with (SA * SB + (SA * (b * b) + SB * (a * a)) + (a * b) * (a * b))
    by ring.
  lra.
Qed.

Lemma lag_power_nonneg (N : Z) (cs : list R) : 0 <= lag_power N cs.
Proof. apply Rsum_squares_nonneg. Qed.

(** The squared magnitude of the windowed sums is at most [N] times the
    power of the window. *)
Lemma lag_magnitude_bound (N : Z) (cs : list R) :
  (0 < N)%Z ->
  lag_re N cs * lag_re N cs + lag_im N cs * lag_im N cs
  <= lag_power N cs * IZR N.
Proof.
  intros HN. unfold lag_re, lag_im, lag_power.
  pose proof (Rsum_Cauchy_Schwarz (lag_sample cs)
                (fun i => cos (INR (S i) * theta N)) (Z.to_nat N)) as Hc.
  pose proof (Rsum_Cauchy_Schwarz (lag_sample cs)
                (fun i => sin (INR (S i) * theta N)) (Z.to_nat N)) as Hs.
  cbv beta in Hc, Hs.
  assert (Hone : Rsum (fun i => cos (INR (S i) * theta N)
                                * cos (INR (S i) * theta N)) (Z.to_nat N)
                 + Rsum (fun i => sin (INR (S i) * theta N)
                                  * sin (INR (S i) * theta N)) (Z.to_nat N)
                 = IZR N).
  { rewrite <- Rsum_plus.
    rewrite (Rsum_ext _ (fun _ => 1)).
    - rewrite Rsum_const, INR_IZR_INZ, Z2Nat.id by lia. ring.
    - intros i _. cbv beta.
      pose proof (sin2_cos2 (INR (S i) * theta N)) as E.
      unfold Rsqr in E. lra. }
  pose proof (Rsum_squares_nonneg (lag_sample cs) (Z.to_nat N)) as Hp.
  nra.
Qed.

(** The level lies between 0 and the window length [N] whenever the
    window is not silent. *)
Theorem level_between_0_and_N (N : Z) (e0 : SlidingDFT.SlidingDFT R)
    (blocks : list (AudioInput R)) :
  (0 < N < 65536)%Z ->
  SlidingDFT.new N = Some e0 ->
  0 < SlidingDFT.totalPower (SlidingDFT.run e0 blocks) ->
  0 <= SlidingDFT.level (SlidingDFT.run e0 blocks) <= IZR N.
Proof.
  intros HN Hnew Hpos.
  pose proof (tracks_run N HN e0 blocks [] Hnew) as Ht.
  cbn [fold_left] in Ht. rewrite app_nil_r in Ht.
  destruct Ht as (_ & _ & HNe & _ & Hre & Him & Hpw).
  pose proof (lag_magnitude_bound N (stream blocks) ltac:(lia)) as Hb.
  unfold SlidingDFT.level, Complex.magnitude. simpl.
  rewrite Hre, Him, HNe. rewrite Hpw in *.
  assert (HNR : 0 < IZR N) by (apply IZR_lt; lia).
  set (X := lag_re N (stream blocks) * lag_re N (stream blocks)
            + lag_im N (stream blocks) * lag_im N (stream blocks)) in *.
  set (P := lag_power N (stream blocks)) in *.
  assert (HX : 0 <= X) by (subst X; nra).
  assert (Hq : 0 < P / IZR N) by (apply Rdiv_lt_0_compat; lra).
  pose proof (sqrt_lt_R0 _ Hq) as Hsq.
  split.
  - apply Rmult_le_pos; [apply sqrt_pos|].
    apply Rlt_le, Rinv_0_lt_compat, Hsq.
  - apply (Rmult_le_reg_r (sqrt (P / IZR N))); [exact Hsq|].
    unfold Rdiv at 1. rewrite Rmult_assoc, Rinv_l, Rmult_1_r by lra.
    rewrite <- (sqrt_square (IZR N)) at 1 by lra.
    rewrite <- sqrt_mult by nra.
    apply sqrt_le_1; [exact HX|nra|].
    replace (IZR N * IZR N * (P / IZR N)) with (P * IZR N) by (field; lra).
    exact Hb.
Qed.
End LevelBounds.

Section LevelScaling.
Local Open Scope R_scope.
Local Abbreviation sqrt := R_sqrt.sqrt.

Lemma accumulate_scale (a : R) (samples channel : list R) :
  accumulate (map (Rmult a) samples) (map (Rmult a) channel)
  = map (Rmult a) (accumulate samples channel).
Proof.
  revert channel; induction samples as [|s samples IH]; intros [|x channel];
    simpl; auto.
  rewrite IH. f_equal. ring.
Qed.

Lemma fold_accumulate_scale (a : R) (channels : list (list R))
    (samples : list R) :
  fold_left accumulate (map (map (Rmult a)) channels) (map (Rmult a) samples)
  = map (Rmult a) (fold_left accumulate channels samples).
Proof.
  revert samples; induction channels as [|ch channels IH]; intros samples;
    simpl; auto.
  rewrite accumulate_scale. apply IH.
Qed.

(** Scaling the input scales what the loop consumes. *)
Lemma currentSamples_scale (a : R) (input : AudioInput R) :
  SlidingDFT.currentSamples (scale_input a input)
  = map (Rmult a) (SlidingDFT.currentSamples input).
Proof.
  unfold SlidingDFT.currentSamples, scale_input.
  rewrite !mix_down_accumulate.
  rewrite <- !concat_map, length_map.
  replace (Float32Array (T:=R) SlidingDFT.windowSize)
    with (map (Rmult a) (Float32Array (T:=R) SlidingDFT.windowSize)) at 1.
  2:{ unfold Float32Array. generalize (Z.to_nat SlidingDFT.windowSize).
      intros n. induction n as [|n IH]; cbn [repeat map]; [reflexivity|].
      rewrite IH. f_equal. simpl. ring. }
  rewrite fold_accumulate_scale.
  rewrite !normalized_map
    by (rewrite ?length_map, length_fold_accumulate; reflexivity).
  rewrite !map_map.
  apply map_ext. intros x. simpl. unfold Rdiv. ring.
Qed.

Lemma stream_scale (a : R) (blocks : list (AudioInput R)) :
  stream (map (scale_input a) blocks) = map (Rmult a) (stream blocks).
Proof.
  unfold stream. induction blocks as [|input blocks IH]; simpl; auto.
  rewrite map_app, IH, currentSamples_scale. reflexivity.
Qed.

Lemma lag_sample_scale (a : R) (cs : list R) (i : nat) :
  lag_sample (map (Rmult a) cs) i = a * lag_sample cs i.
Proof.
  unfold lag_sample, history_at. rewrite length_map.
  destruct (Z.ltb_spec (Z.of_nat (length cs) - 1 - Z.of_nat i) 0).
  - simpl. ring.
  - simpl. replace 0 with (a * 0) at 1 by ring.
    apply (map_nth (Rmult a)).
Qed.

(** The level does not depend on the loudness of the input: multiplying
    every sample by the same positive factor leaves it as it is. *)
Theorem level_independent_of_loudness (N : Z) (a : R)
    (e0 : SlidingDFT.SlidingDFT R) (blocks : list (AudioInput R)) :
  (0 < N < 65536)%Z -> 0 < a ->
  SlidingDFT.new N = Some e0 ->
  SlidingDFT.level (SlidingDFT.run e0 (map (scale_input a) blocks))
  = SlidingDFT.level (SlidingDFT.run e0 blocks).
Proof.
  intros HN Ha Hnew.
  pose proof (tracks_run N HN e0 blocks [] Hnew) as Ht.
  pose proof (tracks_run N HN e0 (map (scale_input a) blocks) [] Hnew) as Hs.
  cbn [fold_left] in Ht, Hs. rewrite app_nil_r in Ht, Hs.
  rewrite stream_scale in Hs.
  destruct Ht as (_ & _ & HNt & _ & Hret & Himt & Hpwt).
  destruct Hs as (_ & _ & HNs & _ & Hres & Hims & Hpws).
  pose proof (lag_magnitude_bound N (stream blocks) ltac:(lia)) as Hb.
  pose proof (lag_power_nonneg N (stream blocks)) as Hp.
  unfold SlidingDFT.level, Complex.magnitude. simpl.
  rewrite Hret, Himt, Hpwt, HNt, Hres, Hims, Hpws, HNs.
  unfold lag_re, lag_im, lag_power in *.
  rewrite (Rsum_ext
    (fun i => lag_sample (map (Rmult a) (stream blocks)) i
              * cos (INR (S i) * theta N))
    (fun i => a * (lag_sample (stream blocks) i * cos (INR (S i) * theta N))))
    by (intros i _; cbv beta; rewrite lag_sample_scale; ring).
  rewrite (Rsum_ext
    (fun i => lag_sample (map (Rmult a) (stream blocks)) i
              * sin (INR (S i) * theta N))
    (fun i => a * (lag_sample (stream blocks) i * sin (INR (S i) * theta N))))
    by (intros i _; cbv beta; rewrite lag_sample_scale; ring).
  rewrite (Rsum_ext
    (fun i => lag_sample (map (Rmult a) (stream blocks)) i
              * lag_sample (map (Rmult a) (stream blocks)) i)
    (fun i => (a * a)
              * (lag_sample (stream blocks) i * lag_sample (stream blocks) i)))
    by (intros i _; cbv beta; rewrite !lag_sample_scale; ring).
  rewrite !Rsum_scal.
  revert Hb Hp.
  generalize (Rsum (fun i => lag_sample (stream blocks) i
                             * cos (INR (S i) * theta N)) (Z.to_nat N)) as re.
  generalize (Rsum (fun i => lag_sample (stream blocks) i
                             * sin (INR (S i) * theta N)) (Z.to_nat N)) as im.
  generalize (Rsum (fun i => lag_sample (stream blocks) i
                             * lag_sample (stream blocks) i) (Z.to_nat N)) as P.
  intros P im re Hb Hp.
  assert (HNR : 0 < IZR N) by (apply IZR_lt; lia).
  replace (a * re * (a * re) + a * im * (a * im))
    with ((a * a) * (re * re + im * im)) by ring.
  replace (a * a * P / IZR N) with ((a * a) * (P / IZR N))
    by (unfold Rdiv; ring).
  assert (HX : 0 <= re * re + im * im) by nra.
  assert (HPN : 0 <= P / IZR N).
  { apply Rmult_le_pos; [exact Hp|]. apply Rlt_le, Rinv_0_lt_compat, HNR. }
  rewrite (sqrt_mult (a * a) (re * re + im * im)) by nra.
  rewrite (sqrt_mult (a * a) (P / IZR N)) by nra.
  rewrite sqrt_square by lra.
  destruct (Req_dec P 0) as [HP0|HP0].
  - assert (HX0 : re * re + im * im = 0) by nra.
    rewrite HX0, sqrt_0. unfold Rdiv. ring.
  - assert (Hq : 0 < P / IZR N) by (apply Rdiv_lt_0_compat; lra).
    pose proof (sqrt_lt_R0 _ Hq) as Hsq.
    field. lra.
Qed.

Lemma totalPower_run (N : Z) (e0 : SlidingDFT.SlidingDFT R)
    (blocks : list (AudioInput R)) :
  (0 < N < 65536)%Z -> SlidingDFT.new N = Some e0 ->
  SlidingDFT.totalPower (SlidingDFT.run e0 blocks)
  = sum_squares (window N (stream blocks)).
Proof.
  intros HN Hnew.
  pose proof (tracks_run N HN e0 blocks [] Hnew) as Ht.
  cbn [fold_left] in Ht. rewrite app_nil_r in Ht.
  destruct Ht as (_ & _ & _ & _ & _ & _ & Hpw).
  rewrite Hpw. apply lag_power_window.
Qed.
End LevelScaling.

Section LevelWitnesses.
Local Open Scope R_scope.

Lemma level_between_0_and_N_witness :
  exists e0 : SlidingDFT.SlidingDFT R,
    SlidingDFT.new 48000 = Some e0 /\
    0 <= SlidingDFT.level (SlidingDFT.run e0 [[[repeat 1 128]]]) <= 48000.
Proof.
  eexists. split; [apply new_eq|].
  apply (level_between_0_and_N 48000 _ [[[repeat 1 128]]]).
  - lia.
  - apply new_eq.
  - rewrite (totalPower_run 48000) by (try lia; apply new_eq).
    unfold stream. cbn [map concat]. rewrite app_nil_r.
    rewrite currentSamples_block by apply repeat_length.
    unfold window. rewrite repeat_length.
    change (128 - Z.to_nat 48000)%nat with O.
    cbn [skipn repeat sum_squares fold_right].
    pose proof (sum_squares_nonneg (repeat 1 127)) as Hn.
    unfold sum_squares in Hn. lra.
Defined.

Lemma level_independent_of_loudness_witness :
  exists e0 : SlidingDFT.SlidingDFT R,
    SlidingDFT.new 48000 = Some e0 /\
    SlidingDFT.level
      (SlidingDFT.run e0 (map (scale_input 3) [[[repeat 1 128]]]))
    = SlidingDFT.level (SlidingDFT.run e0 [[[repeat 1 128]]]).
Proof.
  eexists. split; [apply new_eq|].
  apply (level_independent_of_loudness 48000 3 _ [[[repeat 1 128]]]).
  - lia.
  - lra.
  - apply new_eq.
Defined.
End LevelWitnesses.

(** ** SlidingDFT.process: the cadence of the messages *)

Section Cadence.
Local Open Scope R_scope.

Lemma fold_update_throttle {T : Type} `{Arith T} (cs : list T)
    (e : SlidingDFT.SlidingDFT T) :
  SlidingDFT.nextUpdateFrame (fold_left SlidingDFT.update cs e)
  = SlidingDFT.nextUpdateFrame e /\
  SlidingDFT.updateIntervalInMS (fold_left SlidingDFT.update cs e)
  = SlidingDFT.updateIntervalInMS e.
Proof.
  revert e; induction cs as [|c cs IH]; intros e; simpl; auto.
  destruct (IH (SlidingDFT.update e c)) as [H1 H2].
  rewrite H1, H2. split; reflexivity.
Qed.

(** One call: 128 frames are taken off the countdown; when it falls below
    zero a level is posted and the interval is added. *)
Lemma process_countdown (this : SlidingDFT.SlidingDFT R)
    (input : AudioInput R) :
  SlidingDFT.updateIntervalInMS (SlidingDFT.self (SlidingDFT.process this input))
  = SlidingDFT.updateIntervalInMS this /\
  SlidingDFT.N (SlidingDFT.self (SlidingDFT.process this input))
  = SlidingDFT.N this /\
  ((SlidingDFT.nextUpdateFrame this - 128 < 0 /\
    SlidingDFT.nextUpdateFrame (SlidingDFT.self (SlidingDFT.process this input))
    = SlidingDFT.nextUpdateFrame this - 128
      + SlidingDFT.intervalInFrames this /\
    posts this [input] = 1%nat)
   \/
   (0 <= SlidingDFT.nextUpdateFrame this - 128 /\
    SlidingDFT.nextUpdateFrame (SlidingDFT.self (SlidingDFT.process this input))
    = SlidingDFT.nextUpdateFrame this - 128 /\
    posts this [input] = O)).
Proof.
  unfold posts, SlidingDFT.process, SlidingDFT.feed.
  destruct (SlidingDFT.mix_down input) as [samples count].
  destruct (fold_update_throttle
              (SlidingDFT.normalized
                 (ofZ count / ofZ SlidingDFT.windowSize)%js samples) this)
    as [Hnuf Hint].
  pose proof (fold_update_N
                (SlidingDFT.normalized
                   (ofZ count / ofZ SlidingDFT.windowSize)%js samples) this)
    as HN.
  revert Hnuf Hint HN.
  generalize (fold_left SlidingDFT.update
                (SlidingDFT.normalized
                   (ofZ count / ofZ SlidingDFT.windowSize)%js samples) this).
  intros this1 Hnuf Hint HN.
  unfold SlidingDFT.intervalInFrames. rewrite Hnuf, Hint, HN.
  change (@ofZ R Exact SlidingDFT.windowSize) with 128.
  change (@ofZ R Exact 0) with 0.
  change (@nltb R Exact) with (fun x y : R => if Rlt_dec x y then true else false).
  change (@nsub R Exact) with Rminus. change (@nadd R Exact) with Rplus.
  cbv beta.
  destruct (Rlt_dec (SlidingDFT.nextUpdateFrame this - 128) 0) as [Hlt|Hge];
    cbn [SlidingDFT.self SlidingDFT.posted SlidingDFT.updateIntervalInMS
         SlidingDFT.N SlidingDFT.nextUpdateFrame].
  - split; [reflexivity|]. split; [reflexivity|]. left.
    split; [exact Hlt|]. split; reflexivity.
  - split; [reflexivity|]. split; [reflexivity|]. right.
    split; [lra|]. split; reflexivity.
Qed.

Lemma posts_cons {T : Type} `{Arith T} (this : SlidingDFT.SlidingDFT T)
    (input : AudioInput T) (rest : list (AudioInput T)) :
  posts this (input :: rest)
  = (posts this [input]
     + posts (SlidingDFT.self (SlidingDFT.process this input)) rest)%nat.
Proof.
  cbn [posts]. lia.
Qed.

Lemma countdown_invariant (N : Z) (blocks : list (AudioInput R))
    (e : SlidingDFT.SlidingDFT R) :
  (3840 <= N)%Z ->
  SlidingDFT.updateIntervalInMS e = 1000 / 30 ->
  SlidingDFT.N e = N ->
  0 <= SlidingDFT.nextUpdateFrame e < IZR N / 30 ->
  SlidingDFT.nextUpdateFrame (SlidingDFT.run e blocks)
  = SlidingDFT.nextUpdateFrame e - 128 * INR (length blocks)
    + INR (posts e blocks) * (IZR N / 30) /\
  0 <= SlidingDFT.nextUpdateFrame (SlidingDFT.run e blocks) < IZR N / 30.
Proof.
  intros HN. revert e.
  assert (HNR : 3840 <= IZR N) by (apply IZR_le; lia).
  induction blocks as [|input blocks IH]; intros e Hint HNe Hrange.
  - simpl. split; lra.
  - unfold SlidingDFT.run. cbn [fold_left]. fold (SlidingDFT.run
      (SlidingDFT.self (SlidingDFT.process e input)) blocks).
    rewrite posts_cons, plus_INR.
    cbn [length]. rewrite S_INR.
    destruct (process_countdown e input) as (Hint' & HN' & Hstep).
    assert (Hival : SlidingDFT.intervalInFrames e = IZR N / 30).
    { unfold SlidingDFT.intervalInFrames. rewrite Hint, HNe. simpl. field. }
    specialize (IH (SlidingDFT.self (SlidingDFT.process e input))).
    rewrite Hint', HN' in IH. specialize (IH Hint HNe).
    destruct Hstep as [(Hlt & Hnuf & Hp)|(Hge & Hnuf & Hp)];
      rewrite Hnuf, ?Hival in IH; rewrite Hp;
      (destruct IH as [IH1 IH2]; [lra|]); rewrite IH1; simpl INR;
      split; lra.
Qed.

(** The cadence of the messages, at a sample rate [N] of at least 3840
    (an interval [N / 30] of at least one block): after any [m] calls the
    number [p] of levels posted is the one that keeps the countdown
    [1000/30 - 128 m + p N / 30] in [0, N / 30), that is one level each
    [N / 30] frames, thirty a second. *)
Theorem posts_every_interval (N : Z) (e0 : SlidingDFT.SlidingDFT R)
    (blocks : list (AudioInput R)) :
  (3840 <= N)%Z ->
  SlidingDFT.new N = Some e0 ->
  SlidingDFT.nextUpdateFrame (SlidingDFT.run e0 blocks)
  = 1000 / 30 - 128 * INR (length blocks)
    + INR (posts e0 blocks) * (IZR N / 30) /\
  0 <= SlidingDFT.nextUpdateFrame (SlidingDFT.run e0 blocks) < IZR N / 30.
Proof.
  intros HN. rewrite new_eq. intros [= <-].
  assert (HNR : 3840 <= IZR N) by (apply IZR_le; lia).
  apply (countdown_invariant N blocks); try assumption; try reflexivity.
  simpl. lra.
Qed.
End Cadence.

Section CadenceWitness.
Local Open Scope R_scope.

Lemma posts_every_interval_witness :
  exists e0 : SlidingDFT.SlidingDFT R,
    SlidingDFT.new 48000 = Some e0 /\
    SlidingDFT.nextUpdateFrame
      (SlidingDFT.run e0 [[[repeat 1 128]]; [[repeat 0 128]]])
    = 1000 / 30
      - 128 * INR (length [[[repeat 1 128]]; [[repeat 0 128]]])
      + INR (posts e0 [[[repeat 1 128]]; [[repeat 0 128]]])
        * (48000 / 30) /\
    0 <= SlidingDFT.nextUpdateFrame
           (SlidingDFT.run e0 [[[repeat 1 128]]; [[repeat 0 128]]])
      < 48000 / 30.
Proof.
  eexists. split; [apply new_eq|].
  apply (posts_every_interval 48000 _ [[[repeat 1 128]]; [[repeat 0 128]]]).
  - lia.
  - apply new_eq.
Defined.
End CadenceWitness.

(** ** PianolizerNode.process: the block handed to the engine *)

Section ScratchLoops.
Context {T : Type} `{Arith T}.
Local Open Scope Z_scope.

(** A loop that updates the slots of a typed array in turn, each from its
    own content, is a map over the array. *)
Lemma fold_typed_set_from (g : Z -> T -> T) (post pre : list T) :
  fold_left (fun s i => typed_set s i (g i (typed_get s i)))
            (map Z.of_nat (seq (length pre) (length post))) (pre ++ post)
  = pre ++ map (fun i => fround (g (Z.of_nat i) (nth i (pre ++ post) NaN)))
               (seq (length pre) (length post)).
Proof.
  revert pre; induction post as [|x post IH]; intros pre.
  - simpl. reflexivity.
  - cbn [length seq map fold_left].
    unfold typed_set at 2, typed_get at 2.
    destruct (Z.ltb_spec (Z.of_nat (length pre)) 0); [lia|].
    rewrite Nat2Z.id, nth_middle, set_nth_app.
    set (y := fround (g (Z.of_nat (length pre)) x)).
    replace (pre ++ y :: post) with ((pre ++ [y]) ++ post)
      by (rewrite <- app_assoc; reflexivity).
    replace (S (length pre)) with (length (pre ++ [y]))
      by (rewrite length_app; simpl; lia).
    rewrite IH. rewrite <- app_assoc. cbn [app]. f_equal. f_equal.
    apply map_ext_in. intros i Hi. apply in_seq in Hi.
    rewrite length_app in Hi. simpl in Hi.
    rewrite <- app_assoc. cbn [app].
    rewrite !app_nth2 by lia.
    replace (i - length pre)%nat with (S (i - S (length pre))) by lia.
    reflexivity.
Qed.

Lemma fold_typed_set_map (g : Z -> T -> T) (samples : list T) :
  fold_left (fun s i => typed_set s i (g i (typed_get s i)))
            (upto (Z.of_nat (length samples))) samples
  = map (fun i => fround (g (Z.of_nat i) (nth i samples NaN)))
        (seq 0 (length samples)).
Proof.
  unfold upto. rewrite Nat2Z.id.
  exact (fold_typed_set_from g samples []).
Qed.

Lemma mix_channel_count (channel : list T) (indices : list Z)
    (samples : list T) (count : Z) :
  PianolizerNode.mix_channel channel indices (samples, count)
  = (fold_left
       (fun s i => typed_set s i (typed_get s i + typed_get channel i)%js)
       indices samples,
     count + Z.of_nat (length indices)).
Proof.
  unfold PianolizerNode.mix_channel.
  revert samples count; induction indices as [|i indices IH];
    intros samples count; simpl.
  - f_equal. lia.
  - rewrite IH. f_equal. lia.
Qed.

(** Lines 76-81 for one channel: every slot of the scratch array gets the
    sample of the channel at its index added. *)
Lemma mix_channel_map (channel samples : list T) (count : Z) :
  PianolizerNode.mix_channel channel (upto (Z.of_nat (length samples)))
                             (samples, count)
  = (map (fun i => fround (nth i samples NaN
                           + typed_get channel (Z.of_nat i))%js)
         (seq 0 (length samples)),
     count + Z.of_nat (length samples)).
Proof.
  rewrite mix_channel_count.
  rewrite (fold_typed_set_map (fun i x => (x + typed_get channel i)%js)).
  rewrite length_upto, Nat2Z.id. reflexivity.
Qed.

(** Lines 86-89: every slot divided by [n]. *)
Lemma normalize_map (samples : list T) (n : T) :
  PianolizerNode.normalize samples (Z.of_nat (length samples)) n
  = map (fun x => fround (x / n)%js) samples.
Proof.
  unfold PianolizerNode.normalize.
  rewrite (fold_typed_set_map (fun _ x => (x / n)%js)).
  rewrite <- (map_map (fun i => nth i samples NaN)
                      (fun x => fround (x / n)%js)).
  rewrite map_nth_seq. reflexivity.
Qed.
End ScratchLoops.

Section NodeBlock.
Variable Engine : Type.
Variable Engine_process : Engine -> list R -> R -> Engine * list R.
Local Open Scope R_scope.

Lemma typed_get_nth_R (l : list R) (i : nat) :
  typed_get l (Z.of_nat i) = nth i l 0.
Proof.
  unfold typed_get. destruct (Z.ltb_spec (Z.of_nat i) 0); [lia|].
  rewrite Nat2Z.id. reflexivity.
Qed.

Lemma fold_concat {A B : Type} (f : A -> B -> A) (l : list (list B)) (a : A) :
  fold_left (fun acc x => fold_left f x acc) l a = fold_left f (concat l) a.
Proof.
  revert a; induction l as [|x l IH]; intros a; simpl; auto.
  rewrite fold_left_app. apply IH.
Qed.

Lemma node_mix_channels (L : nat) (channels : list (list R))
    (samples : list R) (count : Z) :
  length samples = L ->
  fold_left
    (fun acc channel =>
       PianolizerNode.mix_channel channel (upto (Z.of_nat L)) acc)
    channels (samples, count)
  = (map (fun i => nth i samples 0 + sum_at channels i) (seq 0 L),
     (count + Z.of_nat (L * length channels))%Z).
Proof.
  revert samples count; induction channels as [|ch channels IH];
    intros samples count Hlen.
  - simpl. f_equal.
    + rewrite <- (map_nth_seq samples 0) at 1. rewrite Hlen.
      apply map_ext. intros i. unfold sum_at. simpl. lra.
    + lia.
  - cbn [fold_left]. rewrite <- Hlen at 1. rewrite mix_channel_map.
    rewrite IH by (rewrite length_map, length_seq; exact Hlen).
    f_equal.
    + apply map_ext_in. intros i Hi. apply in_seq in Hi.
      rewrite (nth_indep _ 0 ((fun i0 => fround (nth i0 samples NaN
                                + typed_get ch (Z.of_nat i0))%js) O))
        by (rewrite length_map, length_seq; lia).
      rewrite (map_nth (fun i0 => fround (nth i0 samples NaN
                                + typed_get ch (Z.of_nat i0))%js)).
      rewrite seq_nth by lia. rewrite typed_get_nth_R.
      unfold sum_at. simpl. lra.
    + rewrite Hlen. cbn [length]. lia.
Qed.

Lemma length_scratch_before (this : PianolizerNode.PianolizerNode (T:=R) Engine)
    (L : nat) :
  length (scratch_before Engine this L) = L.
Proof.
  unfold scratch_before.
  assert (Hz : length (Float32Array (T:=R) (Z.of_nat L)) = L)
    by (unfold Float32Array; rewrite repeat_length; lia).
  destruct (PianolizerNode.samples this) as [s|]; [|exact Hz].
  destruct (Nat.eqb_spec (length s) L); [assumption|exact Hz].
Qed.

(** What the engine is handed, over exact arithmetic, when no channel of
    the input is shorter than the first one, of [L > 0] samples: slot by
    slot, the content of the scratch array the call starts from plus the
    sum of the channels, divided by the number of channels. The scratch
    array is new (all zeros, so the block is the mean of the channels) on
    the first call and when the block length has changed; otherwise the
    call does not clear it, and what [this.samples] holds when the call
    begins is mixed into the block. *)
Theorem node_block (this : PianolizerNode.PianolizerNode (T:=R) Engine)
    (input00 : list R) (input0 : list (list R)) (ports : AudioInput R)
    (parameters : PianolizerNode.Parameters) (currentTime : R) :
  input00 <> [] ->
  Forall (fun channel => (length input00 <= length channel)%nat)
         (concat ((input00 :: input0) :: ports)) ->
  exists out : PianolizerNode.Outcome (T:=R) Engine,
    PianolizerNode.process Engine Engine_process this
      ((input00 :: input0) :: ports) parameters currentTime = Some out /\
    PianolizerNode.slidingDFT (PianolizerNode.self out)
    = fst (Engine_process (PianolizerNode.slidingDFT this)
             (map (fun i =>
                     (nth i (scratch_before Engine this (length input00)) 0
                      + sum_at (concat ((input00 :: input0) :: ports)) i)
                     / INR (length (concat ((input00 :: input0) :: ports))))
                  (seq 0 (length input00)))
             (typed_get (PianolizerNode.smooth parameters) 0)).
Proof.
  intros Hne Hall.
  set (input := (input00 :: input0) :: ports) in *.
  set (L := length input00) in *.
  assert (HL : (0 < L)%nat)
    by (subst L; destruct input00; [congruence|simpl; lia]).
  unfold PianolizerNode.process. subst input. cbv beta iota zeta.
  destruct (Z.eqb_spec (Z.of_nat (length (input00 :: input0))) 0) as [E|_];
    [simpl in E; lia|].
  set (input := (input00 :: input0) :: ports) in *.
  fold L.
  assert (Hs0 : match PianolizerNode.samples this with
                | None => Float32Array (Z.of_nat L)
                | Some samples =>
                    if negb (Z.of_nat (length samples) =? Z.of_nat L)%Z
                    then Float32Array (Z.of_nat L) else samples
                end = scratch_before Engine this L).
  { unfold scratch_before.
    destruct (PianolizerNode.samples this) as [s|]; auto.
    destruct (Z.eqb_spec (Z.of_nat (length s)) (Z.of_nat L)),
             (Nat.eqb_spec (length s) L); simpl; auto; lia. }
  rewrite Hs0.
  pose proof (length_scratch_before this L) as Hlen0.
  unfold PianolizerNode.mix_down. rewrite fold_concat.
  rewrite (node_mix_channels L) by exact Hlen0.
  set (samples1 := map (fun i => nth i (scratch_before Engine this L) 0
                                 + sum_at (concat input) i) (seq 0 L)).
  assert (Hlen1 : length samples1 = L)
    by (subst samples1; rewrite length_map, length_seq; reflexivity).
  cbv beta iota zeta.
  rewrite <- Hlen1. rewrite !normalize_map. rewrite Hlen1.
  set (c := length (concat input)) in *.
  assert (Hc : (0 < c)%nat) by (subst c input; simpl; lia).
  assert (Hblock :
    map (fun x => fround (x / (ofZ (0 + Z.of_nat (L * c)) / ofZ (Z.of_nat L)))%js)
        samples1
    = map (fun i => (nth i (scratch_before Engine this L) 0
                     + sum_at (concat input) i) / INR c) (seq 0 L)).
  { subst samples1. rewrite map_map. apply map_ext. intros i.
    change (@fround R Exact) with (fun x : R => x).
    change (@ofZ R Exact) with IZR. change (@ndiv R Exact) with Rdiv.
    cbv beta. rewrite Z.add_0_l, Nat2Z.inj_mul, mult_IZR, <- !INR_IZR_INZ.
    assert (0 < INR L) by (apply lt_0_INR; lia).
    assert (0 < INR c) by (apply lt_0_INR; lia).
    field. lra. }
  rewrite Hblock.
  destruct (Engine_process _ _ _) as [engine' levels].
  destruct (_ <=? _)%js;
    eexists; (split; [reflexivity|]);
    cbn [PianolizerNode.self PianolizerNode.slidingDFT fst]; reflexivity.
Qed.
End NodeBlock.

Section NodeBlockWitness.
Local Open Scope R_scope.

Lemma node_block_witness :
  exists out : PianolizerNode.Outcome (T:=R) (list R),
    PianolizerNode.process (list R) (fun _ block _ => (block, block))
      (PianolizerNode.new (list R) []) [[[1; 3]; [3; 5]]]
      {| PianolizerNode.smooth := [0] |} 0
    = Some out /\
    PianolizerNode.slidingDFT (PianolizerNode.self out) = [2; 4].
Proof.
  destruct (node_block (list R) (fun _ block _ => (block, block))
              (PianolizerNode.new (list R) []) [1; 3] [[3; 5]] []
              {| PianolizerNode.smooth := [0] |} 0)
    as [out [H1 H2]].
  - discriminate.
  - repeat constructor.
  - exists out. split; [exact H1|]. rewrite H2.
    unfold scratch_before, sum_at. simpl.
    f_equal; [|f_equal]; lra.
Defined.
End NodeBlockWitness.

(** ** The throttle of [PianolizerNode.process] *)

Section NodeThrottle.
Context {T : Type} `{Arith T}.
Variable Engine : Type.
Variable Engine_process : Engine -> list T -> T -> Engine * list T.

(** The times at which a node posts are spaced by its update interval, and
    the first of them is not before the time it was waiting for. *)
Lemma post_times_spaced (calls : list (AudioInput T * PianolizerNode.Parameters * T))
    (this : PianolizerNode.PianolizerNode Engine) (times : list T) :
  post_times Engine Engine_process this calls = Some times ->
  spaced (PianolizerNode.updateInterval this) times /\
  match times with
  | [] => True
  | t :: _ => (PianolizerNode.nextUpdateFrame this <=? t)%js = true
  end.
Proof.
  revert this times.
  induction calls as [|[[input parameters] currentTime] calls IH];
    intros this times Hrun.
  - injection Hrun as <-. simpl. auto.
  - cbn [post_times] in Hrun.
    destruct (PianolizerNode.process Engine Engine_process this input
                parameters currentTime) as [out|] eqn:Hcall; [|discriminate].
    destruct (post_times Engine Engine_process (PianolizerNode.self out) calls)
      as [rest|] eqn:Hrest; [|discriminate].
    injection Hrun as <-.
    specialize (IH _ _ Hrest).
    unfold PianolizerNode.process in Hcall.
    destruct input as [|input0 ports]; [discriminate|].
    destruct (Z.of_nat (length input0) =? 0)%Z.
    { injection Hcall as <-. exact IH. }
    destruct input0 as [|input00 input0]; [discriminate|].
    cbv zeta in Hcall.
    destruct (PianolizerNode.mix_down _ _ _) as [samples1 count].
    destruct (Engine_process _ _ _) as [engine' levels].
    destruct (PianolizerNode.nextUpdateFrame this <=? currentTime)%js eqn:Hdue;
      injection Hcall as <-;
      cbn [PianolizerNode.self PianolizerNode.posted
           PianolizerNode.updateInterval PianolizerNode.nextUpdateFrame] in *.
    + destruct IH as [IH1 IH2]. split; [|exact Hdue].
      destruct rest as [|t' rest]; [exact I|].
      split; [exact IH2|exact IH1].
    + exact IH.
Qed.

(** A node posts at most once per sixtieth of a second of [currentTime]:
    of the times at which successive calls of a new node post the levels,
    each is at least [1 / 60] after the one before. This holds for any
    inputs, and whether or not [currentTime] advances between the calls. *)
Theorem posts_are_spaced (engine : Engine)
    (calls : list (AudioInput T * PianolizerNode.Parameters * T))
    (times : list T) :
  post_times Engine Engine_process (PianolizerNode.new Engine engine) calls
  = Some times ->
  spaced (ofZ 1 / ofZ 60)%js times.
Proof.
  intros Hrun. apply post_times_spaced in Hrun. exact (proj1 Hrun).
Qed.
End NodeThrottle.

Section NodeThrottleWitness.
Local Open Scope float_scope.

Lemma posts_are_spaced_witness :
  spaced (T:=float) (ofZ 1 / ofZ 60)%js [0; 0.03125].
Proof.
  apply (posts_are_spaced (T:=float) unit (fun engine _ _ => (engine, [])) tt
           [([[[0.5]]], {| PianolizerNode.smooth := [0] |}, 0);
            ([[[0.5]]], {| PianolizerNode.smooth := [0] |}, 0.015625);
            ([[[0.5]]], {| PianolizerNode.smooth := [0] |}, 0.03125)]).
  vm_compute. reflexivity.
Defined.
End NodeThrottleWitness.

(** ** The display *)

(** *** Bytes of a 32-bit integer *)

Section Bytes.
Local Open Scope Z_scope.

Lemma ToInt32_testbit (x i : Z) :
  0 <= i < 32 -> Z.testbit (ToInt32 x) i = Z.testbit x i.
Proof.
  intros Hi.
  rewrite <- (Z.mod_pow2_bits_low (ToInt32 x) 32 i) by lia.
  rewrite (ToInt32_mod x 32) by lia.
  apply Z.mod_pow2_bits_low. lia.
Qed.

Lemma ToInt32_range (x : Z) : - 2 ^ 31 <= ToInt32 x < 2 ^ 31.
Proof.
  unfold ToInt32.
  pose proof (Z.mod_pos_bound (x + 2 ^ 31) (2 ^ 32) ltac:(lia)). lia.
Qed.

(** The bits [k .. k + n - 1] of an integer, in place. *)
Lemma land_field (x k n : Z) :
  0 <= k -> 0 <= n ->
  Z.land x (Z.shiftl (Z.ones n) k) = (x / 2 ^ k) mod 2 ^ n * 2 ^ k.
Proof.
  intros Hk Hn.
  rewrite <- Z.shiftl_mul_pow2, <- Z.shiftr_div_pow2 by lia.
  apply Z.bits_inj'. intros i Hi.
  rewrite Z.land_spec, !Z.shiftl_spec by lia.
  destruct (Z.ltb_spec i k) as [Hlt|Hge].
  - rewrite !(Z.testbit_neg_r _ (i - k)) by lia. apply andb_false_r.
  - rewrite Z.testbit_mod_pow2 by lia.
    rewrite Z.shiftr_spec by lia.
    replace (i - k + k) with i by lia.
    destruct (Z.ltb_spec (i - k) n).
    + rewrite Z.ones_spec_low by lia. apply andb_true_r.
    + rewrite Z.ones_spec_high by lia. apply andb_false_r.
Qed.

Lemma ToInt32_field (x k n : Z) :
  0 <= k -> 0 <= n -> k + n <= 32 ->
  (ToInt32 x / 2 ^ k) mod 2 ^ n = (x / 2 ^ k) mod 2 ^ n.
Proof.
  intros Hk Hn Hkn.
  rewrite <- !Z.shiftr_div_pow2 by lia.
  apply Z.bits_inj'. intros i Hi.
  rewrite !Z.testbit_mod_pow2 by lia.
  destruct (Z.ltb_spec i n); [|reflexivity].
  rewrite !Z.shiftr_spec by lia.
  cbn [andb]. apply ToInt32_testbit. lia.
Qed.

Lemma byte_range (c k : Z) : 0 <= byte c k < 256.
Proof. unfold byte. apply Z.mod_pos_bound. lia. Qed.

(** [c & (255 << 8 k)] is byte [k] of [c], in place. *)
Lemma int32_and_byte (c k : Z) :
  0 <= k <= 2 ->
  int32_and c (255 * 256 ^ k) = byte c k * 256 ^ k.
Proof.
  intros Hk. unfold int32_and, byte.
  assert (Hpow : 256 ^ k = 2 ^ (8 * k))
    by (change 256 with (2 ^ 8); rewrite <- Z.pow_mul_r by lia; reflexivity).
  rewrite Hpow.
  assert (Hmask : 255 * 2 ^ (8 * k) = Z.shiftl (Z.ones 8) (8 * k))
    by (rewrite Z.shiftl_mul_pow2 by lia; reflexivity).
  assert (Hsmall : 0 <= 255 * 2 ^ (8 * k) < 2 ^ 31).
  { assert (Hc : k = 0 \/ k = 1 \/ k = 2) by lia.
    destruct Hc as [-> | [-> | ->]]; simpl; lia. }
  rewrite (ToInt32_small (255 * 2 ^ (8 * k))) by lia.
  rewrite Hmask, land_field by lia.
  rewrite (ToInt32_field c (8 * k) 8) by lia. reflexivity.
Qed.

Lemma lor_disjoint (a b : Z) : Z.land a b = 0 -> Z.lor a b = a + b.
Proof. intros Hd. pose proof (Z.add_lor_land a b). lia. Qed.

Lemma land_above_below (x y k : Z) :
  0 <= k -> 0 <= y < 2 ^ k -> Z.land (x * 2 ^ k) y = 0.
Proof.
  intros Hk Hy. apply Z.bits_inj'. intros i Hi.
  rewrite Z.land_spec, Z.bits_0.
  destruct (Z.ltb_spec i k).
  - rewrite Z.mul_pow2_bits_low by lia. reflexivity.
  - rewrite <- (Z.mod_small y (2 ^ k)) by lia.
    rewrite Z.mod_pow2_bits_high by lia. apply andb_false_r.
Qed.

(** Three bytes packed by [<<] and [|]. *)
Lemma pack_bytes (b2 b1 b0 : Z) :
  0 <= b2 < 256 -> 0 <= b1 < 256 -> 0 <= b0 < 256 ->
  int32_or (int32_or (int32_shl b2 16) (int32_shl b1 8)) b0
  = b2 * 65536 + b1 * 256 + b0.
Proof.
  intros H2 H1 H0.
  assert (Hshl : forall b k, 0 <= b < 256 -> k = 8 \/ k = 16 ->
                 int32_shl b k = b * 2 ^ k).
  { intros b k Hb Hk. unfold int32_shl.
    rewrite (ToInt32_small b) by lia.
    assert (Hc : Z.land k 31 = k) by (destruct Hk as [-> | ->]; reflexivity).
    rewrite Hc, Z.shiftl_mul_pow2 by lia.
    apply ToInt32_small. destruct Hk as [-> | ->]; simpl; lia. }
  rewrite !Hshl by (auto; lia).
  change (2 ^ 16) with 65536. change (2 ^ 8) with 256.
  unfold int32_or.
  rewrite (ToInt32_small (b2 * 65536)), (ToInt32_small (b1 * 256)) by lia.
  assert (Hhi : Z.lor (b2 * 65536) (b1 * 256) = b2 * 65536 + b1 * 256).
  { apply lor_disjoint. change 65536 with (2 ^ 16).
    apply land_above_below; lia. }
  rewrite Hhi.
  rewrite (ToInt32_small (b2 * 65536 + b1 * 256)), (ToInt32_small b0) by lia.
  apply lor_disjoint.
  replace (b2 * 65536 + b1 * 256) with ((b2 * 256 + b1) * 2 ^ 8)
    by (change (2 ^ 8) with 256; ring).
  apply land_above_below; change (2 ^ 8) with 256; lia.
Qed.

(** Lines 198-202: the bytes of the colour in reverse order, the fourth
    one dropped. *)
Lemma rgbInteger_bytes (c : Z) :
  PianoKeyboard.rgbInteger c
  = byte c 0 * 65536 + byte c 1 * 256 + byte c 2.
Proof.
  unfold PianoKeyboard.rgbInteger.
  pose proof (byte_range c 0) as H0.
  pose proof (byte_range c 1) as H1.
  pose proof (byte_range c 2) as H2.
  change 255 with (255 * 256 ^ 0) at 1.
  change 65280 with (255 * 256 ^ 1).
  change 16711680 with (255 * 256 ^ 2).
  rewrite !int32_and_byte by lia.
  change (256 ^ 0) with 1. change (256 ^ 1) with 256.
  change (256 ^ 2) with 65536.
  rewrite Z.mul_1_r.
  assert (Hshr : int32_shr (byte c 2 * 65536) 16 = byte c 2).
  { unfold int32_shr. rewrite ToInt32_small by lia.
    change (Z.land 16 31) with 16.
    rewrite Z.shiftr_div_pow2 by lia. change (2 ^ 16) with 65536.
    apply Z.div_mul. lia. }
  rewrite Hshr.
  assert (Hshl : int32_shl (byte c 0) 16 = byte c 0 * 65536).
  { unfold int32_shl. rewrite (ToInt32_small (byte c 0)) by lia.
    change (Z.land 16 31) with 16.
    rewrite Z.shiftl_mul_pow2 by lia. change (2 ^ 16) with 65536.
    apply ToInt32_small. lia. }
  rewrite Hshl.
  unfold int32_or.
  rewrite (ToInt32_small (byte c 0 * 65536)),
          (ToInt32_small (byte c 1 * 256)) by lia.
  assert (Hhi : Z.lor (byte c 0 * 65536) (byte c 1 * 256)
                = byte c 0 * 65536 + byte c 1 * 256).
  { apply lor_disjoint. change 65536 with (2 ^ 16).
    apply land_above_below; lia. }
  rewrite Hhi.
  rewrite (ToInt32_small (byte c 0 * 65536 + byte c 1 * 256)),
          (ToInt32_small (byte c 2)) by lia.
  apply lor_disjoint.
  replace (byte c 0 * 65536 + byte c 1 * 256)
    with ((byte c 0 * 256 + byte c 1) * 2 ^ 8)
    by (change (2 ^ 8) with 256; ring).
  apply land_above_below; change (2 ^ 8) with 256; lia.
Qed.


End Bytes.

(** *** Loops over the slots of an array *)

Section SlotLoops.
Context {A : Type}.

Lemma upto_S (n : nat) :
  upto (Z.of_nat (S n)) = upto (Z.of_nat n) ++ [Z.of_nat n].
Proof.
  unfold upto. rewrite !Nat2Z.id, seq_S, map_app. reflexivity.
Qed.

Lemma skipn_uncons (l : list A) (n : nat) (d : A) :
  (n < length l)%nat -> skipn n l = nth n l d :: skipn (S n) l.
Proof.
  revert n; induction l as [|x l IH]; intros [|n] Hn; simpl in *;
    try lia; auto.
  apply IH. lia.
Qed.


(** A loop that stores [g key] into slot [key] for the first [n] keys, and
    throws at a slot the array does not have. *)
Lemma fold_set_or_throw (g : Z -> A) (n : nat) (l : list A) :
  fold_left
    (fun acc key =>
       match acc with
       | None => None
       | Some l' =>
           if (Z.to_nat key <? length l')%nat
           then Some (set_nth l' (Z.to_nat key) (g key))
           else None
       end)
    (upto (Z.of_nat n)) (Some l)
  = if (n <=? length l)%nat
    then Some (map g (upto (Z.of_nat n)) ++ skipn n l)
    else None.
Proof.
  induction n as [|n IH].
  - reflexivity.
  - rewrite upto_S, fold_left_app, IH. cbn [fold_left].
    destruct (Nat.leb_spec n (length l)) as [Hn|Hn].
    + rewrite Nat2Z.id.
      rewrite length_app, length_map, length_upto, Nat2Z.id, length_skipn.
      destruct (Nat.ltb_spec n (n + (length l - n))) as [Hlt|Hge];
        destruct (Nat.leb_spec (S n) (length l)) as [Hle|Hgt]; try lia.
      * f_equal. rewrite map_app. cbn [map]. rewrite <- app_assoc.
        cbn [app].
        rewrite (skipn_uncons l n (g (Z.of_nat n))) by lia.
        pose proof (set_nth_app (T:=A) (map g (upto (Z.of_nat n)))
                      (skipn (S n) l) (nth n l (g (Z.of_nat n)))
                      (g (Z.of_nat n))) as Hset.
        rewrite length_map, length_upto, Nat2Z.id in Hset. exact Hset.
      * reflexivity.
    + destruct (Nat.leb_spec (S n) (length l)); [lia|reflexivity].
Qed.

(** A loop that stores [g key] into slot [key] for every slot. *)
Lemma fold_set_all (g : Z -> A) (post pre : list A) :
  fold_left (fun l' key => set_nth l' (Z.to_nat key) (g key))
            (map Z.of_nat (seq (length pre) (length post))) (pre ++ post)
  = pre ++ map g (map Z.of_nat (seq (length pre) (length post))).
Proof.
  revert pre; induction post as [|x post IH]; intros pre.
  - reflexivity.
  - cbn [length seq map fold_left].
    rewrite Nat2Z.id, (set_nth_app (T:=A)).
    set (y := g (Z.of_nat (length pre))).
    replace (pre ++ y :: post) with ((pre ++ [y]) ++ post)
      by (rewrite <- app_assoc; reflexivity).
    replace (S (length pre)) with (length (pre ++ [y]))
      by (rewrite length_app; simpl; lia).
    rewrite IH, <- app_assoc. reflexivity.
Qed.
End SlotLoops.

(** *** [PianoKeyboard.update] *)

Section Hexadecimal.
Import Ascii String.
Local Open Scope string_scope.

Lemma append_nil_r (s : string) : s ++ "" = s.
Proof. induction s as [|c s IH]; simpl; [reflexivity|]. rewrite IH. reflexivity. Qed.

Lemma append_assoc (s t u : string) : s ++ t ++ u = (s ++ t) ++ u.
Proof. induction s as [|c s IH]; simpl; [reflexivity|]. rewrite IH. reflexivity. Qed.

Lemma length_append (s t : string) :
  length (s ++ t) = (length s + length t)%nat.
Proof. induction s as [|c s IH]; simpl; [reflexivity|]. rewrite IH. reflexivity. Qed.

Lemma repeat_string_snoc (c : string) (n : nat) :
  PianoKeyboard.repeat_string c n ++ c = c ++ PianoKeyboard.repeat_string c n.
Proof.
  induction n as [|n IH]; cbn [PianoKeyboard.repeat_string].
  - rewrite append_nil_r. reflexivity.
  - rewrite <- append_assoc, IH. reflexivity.
Qed.

Lemma fixed_hex_0 (k : nat) :
  fixed_hex k 0 = PianoKeyboard.repeat_string "0" k.
Proof.
  induction k as [|k IH]; [reflexivity|].
  cbn [fixed_hex PianoKeyboard.repeat_string].
  change (0 / 16)%Z with 0%Z. rewrite IH.
  change (String (PianoKeyboard.hex_digit (0 mod 16)) "") with "0".
  apply repeat_string_snoc.
Qed.

Lemma padStart_snoc (s : string) (c : ascii) (k : nat) :
  PianoKeyboard.padStart (s ++ String c "") (S k) "0"
  = PianoKeyboard.padStart s k "0" ++ String c "".
Proof.
  unfold PianoKeyboard.padStart.
  rewrite length_append. cbn [length].
  replace (S k - (length s + 1))%nat with (k - length s)%nat by lia.
  rewrite append_assoc. reflexivity.
Qed.

Lemma padStart_to_hex (fuel : nat) :
  forall (n : Z) (k : nat),
    (0 <= n < 2 ^ Z.of_nat fuel)%Z -> (1 <= fuel)%nat ->
    (1 <= k)%nat -> (n < 16 ^ Z.of_nat k)%Z ->
    PianoKeyboard.padStart (PianoKeyboard.to_hex fuel n) k "0"
    = fixed_hex k n.
Proof.
  induction fuel as [|fuel IH]; intros n k Hn Hfuel Hk Hnk; [lia|].
  destruct k as [|k]; [lia|].
  cbn [PianoKeyboard.to_hex fixed_hex].
  rewrite Nat2Z.inj_succ, Z.pow_succ_r in Hn, Hnk by lia.
  destruct (Z.ltb_spec n 16) as [Hsmall|Hbig].
  - rewrite Z.div_small, Z.mod_small by lia.
    rewrite fixed_hex_0.
    unfold PianoKeyboard.padStart. cbn [length].
    replace (S k - 1)%nat with k by lia. reflexivity.
  - rewrite padStart_snoc. f_equal.
    pose proof (Z.mul_div_le n 16 ltac:(lia)) as Hdiv.
    pose proof (Z.div_pos n 16 ltac:(lia) ltac:(lia)) as Hpos.
    assert (Hf : (1 <= fuel)%nat).
    { destruct fuel; [simpl in Hn; lia|lia]. }
    assert (Hk' : (1 <= k)%nat).
    { destruct k; [simpl in Hnk; lia|lia]. }
    apply IH; try assumption; lia.
Qed.

Lemma padStart_toString16 (n : Z) (k : nat) :
  (0 <= n < 16 ^ Z.of_nat k)%Z -> (1 <= k)%nat ->
  PianoKeyboard.padStart (PianoKeyboard.toString16 n) k "0" = fixed_hex k n.
Proof.
  intros Hn Hk. unfold PianoKeyboard.toString16.
  destruct (Z.ltb_spec n 0); [lia|].
  apply padStart_to_hex; try lia.
  rewrite Nat2Z.inj_succ, Z2Nat.id by apply Z.log2_nonneg.
  destruct (Z.eq_dec n 0) as [->|Hne]; [simpl; lia|].
  pose proof (Z.log2_spec n ltac:(lia)). lia.
Qed.

Lemma fixed_hex_byte (k : nat) (a b : Z) :
  (0 <= b < 256)%Z ->
  fixed_hex (S (S k)) (a * 256 + b) = fixed_hex k a ++ hex2 b.
Proof.
  intros Hb. cbn [fixed_hex]. unfold hex2.
  assert (H1 : ((a * 256 + b) / 16 = a * 16 + b / 16)%Z).
  { replace (a * 256 + b)%Z with (b + (a * 16) * 16)%Z by ring.
    rewrite Z.div_add by lia. lia. }
  assert (H2 : ((a * 256 + b) mod 16 = b mod 16)%Z).
  { replace (a * 256 + b)%Z with (b + (a * 16) * 16)%Z by ring.
    apply Z_mod_plus_full. }
  assert (Hb16 : (0 <= b / 16 < 16)%Z).
  { split; [apply Z.div_pos; lia|apply Z.div_lt_upper_bound; lia]. }
  assert (H3 : ((a * 16 + b / 16) / 16 = a)%Z).
  { replace (a * 16 + b / 16)%Z with (b / 16 + a * 16)%Z by ring.
    rewrite Z.div_add by lia. rewrite Z.div_small by lia. lia. }
  assert (H4 : ((a * 16 + b / 16) mod 16 = b / 16)%Z).
  { replace (a * 16 + b / 16)%Z with (b / 16 + a * 16)%Z by ring.
    rewrite Z_mod_plus_full. apply Z.mod_small. lia. }
  rewrite H1, H2, H3, H4. rewrite <- append_assoc. reflexivity.
Qed.

(** Lines 198-205: the six digits of the fill are the two of the lowest
    byte of the colour, the two of the second and the two of the third. *)
Lemma rgbString_bytes (c : Z) :
  PianoKeyboard.rgbString c
  = hex2 (byte c 0) ++ hex2 (byte c 1) ++ hex2 (byte c 2).
Proof.
  unfold PianoKeyboard.rgbString. rewrite rgbInteger_bytes.
  pose proof (byte_range c 0) as H0.
  pose proof (byte_range c 1) as H1.
  pose proof (byte_range c 2) as H2.
  rewrite padStart_toString16 by (change (16 ^ Z.of_nat 6)%Z with 16777216%Z; lia).
  replace (byte c 0 * 65536 + byte c 1 * 256 + byte c 2)%Z
    with (((0 * 256 + byte c 0) * 256 + byte c 1) * 256 + byte c 2)%Z by ring.
  rewrite !fixed_hex_byte by assumption.
  cbn [fixed_hex]. rewrite <- !append_assoc. reflexivity.
Qed.

(** [PianoKeyboard.update] gives each of the 88 keys a fill of the form
    [#rrggbb]: a number sign and six hexadecimal digits, two for the
    lowest byte of the colour of the key (red), two for the second byte
    (green) and two for the third (blue); the fourth byte of the colour
    plays no part, and a key without a colour becomes [#000000]. Fills
    beyond the 88th are kept. With fewer than 88 keys the call throws. *)
Theorem update_fills (keys : list string) (keyColors : list Z) :
  PianoKeyboard.update keys keyColors
  = if (88 <=? List.length keys)%nat
    then Some (List.app
                 (map (fun key =>
                         "#" ++ hex2 (byte (int_get keyColors key) 0)
                             ++ hex2 (byte (int_get keyColors key) 1)
                             ++ hex2 (byte (int_get keyColors key) 2))
                      (upto keysNum))
                 (skipn 88 keys))
    else None.
Proof.
  unfold PianoKeyboard.update.
  change keysNum with (Z.of_nat 88).
  rewrite (fold_set_or_throw
             (fun key => "#" ++ PianoKeyboard.rgbString (int_get keyColors key))
             88 keys).
  destruct (88 <=? List.length keys)%nat; [|reflexivity].
  f_equal. f_equal. apply map_ext. intros key.
  rewrite rgbString_bytes. reflexivity.
Qed.
End Hexadecimal.

(** *** [Palette.getKeyColors] *)

Section PaletteColors.
Local Open Scope R_scope.

Lemma round_range (x : R) :
  0 <= x <= 255 -> (0 <= Int_part (x + / 2) < 256)%Z.
Proof.
  intros Hx. destruct (base_Int_part (x + / 2)) as [Hle Hgt].
  split.
  - assert (Hlt : IZR (-1) < IZR (Int_part (x + / 2))) by lra.
    apply lt_IZR in Hlt. lia.
  - apply lt_IZR. lra.
Qed.

Lemma truncate_IZR (n : Z) : truncate (IZR n) = n.
Proof.
  cbn [truncate ExactIntegral].
  destruct (Rle_dec 0 (IZR n)) as [Hpos|Hneg].
  - symmetry. apply Int_part_spec. lra.
  - rewrite <- opp_IZR.
    rewrite <- (Int_part_spec (IZR (- n)) (- n)) by lra. lia.
Qed.

(** [Math.round(level * value) | 0] for a product between 0 and 255. *)
Lemma round_or_0 (level value : R) :
  0 <= level * value <= 255 ->
  int32_or (truncate (Math_round (level * value)%js)) 0
  = Int_part (level * value + / 2).
Proof.
  intros Hx. pose proof (round_range _ Hx) as Hn.
  change (Math_round (level * value)%js)
    with (IZR (Int_part (level * value + / 2))).
  rewrite truncate_IZR. unfold int32_or.
  rewrite ToInt32_small by lia.
  change (ToInt32 0) with 0%Z. apply Z.lor_0_r.
Qed.

Lemma product_range (level value : R) :
  0 <= level <= 1 -> 0 <= value <= 255 -> 0 <= level * value <= 255.
Proof. intros Hl Hv. split; nra. Qed.

Lemma shade_range (level : R) (row : list R) (i : nat) :
  0 <= level <= 1 -> Forall (fun value => 0 <= value <= 255) row ->
  (0 <= shade level row i < 256)%Z.
Proof.
  intros Hl Hrow. unfold shade.
  destruct (Nat.lt_ge_cases i (length row)) as [Hi|Hi].
  - rewrite (nth_indep _ 0%Z (Int_part (level * 0 + / 2)))
      by (rewrite length_map; exact Hi).
    rewrite (map_nth (fun value => Int_part (level * value + / 2))).
    apply round_range, product_range; [exact Hl|].
    rewrite Forall_forall in Hrow. apply Hrow, nth_In, Hi.
  - rewrite nth_overflow by (rewrite length_map; exact Hi). lia.
Qed.

Lemma key_color_range (palette : list (list R)) (levels : list R) (key : Z) :
  Forall (fun level => 0 <= level <= 1) levels ->
  Forall (Forall (fun value => 0 <= value <= 255)) palette ->
  (0 <= key_color palette levels key < 2 ^ 24)%Z /\
  byte (key_color palette levels key) 0
  = shade (typed_get levels key)
          (nth (Z.to_nat ((key + 9) mod 12)) palette []) 0 /\
  byte (key_color palette levels key) 1
  = shade (typed_get levels key)
          (nth (Z.to_nat ((key + 9) mod 12)) palette []) 1 /\
  byte (key_color palette levels key) 2
  = shade (typed_get levels key)
          (nth (Z.to_nat ((key + 9) mod 12)) palette []) 2.
Proof.
  intros Hlevels Hpalette. unfold key_color.
  set (level := typed_get levels key).
  set (row := nth (Z.to_nat ((key + 9) mod 12)) palette []).
  assert (Hl : 0 <= level <= 1).
  { subst level. unfold typed_get.
    destruct (key <? 0)%Z; [cbn; lra|].
    destruct (Nat.lt_ge_cases (Z.to_nat key) (length levels)) as [Hi|Hi].
    - rewrite Forall_forall in Hlevels. apply Hlevels, nth_In, Hi.
    - rewrite nth_overflow by exact Hi. cbn. lra. }
  assert (Hrow : Forall (fun value => 0 <= value <= 255) row).
  { subst row.
    destruct (Nat.lt_ge_cases (Z.to_nat ((key + 9) mod 12)) (length palette))
      as [Hi|Hi].
    - rewrite Forall_forall in Hpalette. apply Hpalette, nth_In, Hi.
    - rewrite nth_overflow by exact Hi. constructor. }
  pose proof (shade_range level row 0 Hl Hrow) as H0.
  pose proof (shade_range level row 1 Hl Hrow) as H1.
  pose proof (shade_range level row 2 Hl Hrow) as H2.
  generalize dependent (shade level row 0).
  generalize dependent (shade level row 1).
  generalize dependent (shade level row 2).
  intros b2 H2 b1 H1 b0 H0. unfold byte.
  change (2 ^ 24)%Z with 16777216%Z.
  change (256 ^ 0)%Z with 1%Z. change (256 ^ 1)%Z with 256%Z.
  change (256 ^ 2)%Z with 65536%Z.
  split; [lia|]. split; [|split].
  - rewrite Z.div_1_r.
    replace (b0 + 256 * b1 + 65536 * b2)%Z
      with (b0 + (b1 + 256 * b2) * 256)%Z by ring.
    rewrite Z_mod_plus_full. apply Z.mod_small. lia.
  - replace (b0 + 256 * b1 + 65536 * b2)%Z
      with (b0 + (b1 + 256 * b2) * 256)%Z by ring.
    rewrite Z.div_add, Z.div_small by lia.
    replace (0 + (b1 + 256 * b2))%Z with (b1 + b2 * 256)%Z by ring.
    rewrite Z_mod_plus_full. apply Z.mod_small. lia.
  - replace (b0 + 256 * b1 + 65536 * b2)%Z
      with ((b0 + 256 * b1) + b2 * 65536)%Z by ring.
    rewrite Z.div_add, Z.div_small by lia.
    apply Z.mod_small. lia.
Qed.

(** The body of the loop of [getKeyColors] for one key. *)
Lemma getKeyColor_packs (this : Palette.Palette R) (levels : list R)
    (key : Z) :
  length (Palette.palette this) = 12%nat ->
  Forall (fun level => 0 <= level <= 1) levels ->
  Forall (Forall (fun value => 0 <= value <= 255)) (Palette.palette this) ->
  (0 <= key)%Z ->
  Palette.getKeyColor this levels key
  = Some (Palette.Build (Palette.palette this)
            (set_nth (Palette.keyColors this) (Z.to_nat key)
                     (key_color (Palette.palette this) levels key))).
Proof.
  intros Hrows Hlevels Hpalette Hkey.
  destruct (key_color_range (Palette.palette this) levels key
              Hlevels Hpalette) as [Hrange _].
  unfold Palette.getKeyColor.
  rewrite Z.rem_mod_nonneg by lia.
  pose proof (Z.mod_pos_bound (key + 9) 12 ltac:(lia)) as Hidx.
  destruct (nth_error (Palette.palette this) (Z.to_nat ((key + 9) mod 12)))
    as [row|] eqn:Hrow.
  2:{ apply nth_error_None in Hrow. lia. }
  assert (Hnth : nth (Z.to_nat ((key + 9) mod 12)) (Palette.palette this) []
                 = row) by (apply nth_error_nth; exact Hrow).
  unfold key_color in *. rewrite Hnth in *.
  set (level := typed_get levels key) in *.
  assert (Hl : 0 <= level <= 1).
  { subst level. unfold typed_get.
    destruct (key <? 0)%Z; [cbn; lra|].
    destruct (Nat.lt_ge_cases (Z.to_nat key) (length levels)) as [Hi|Hi].
    - rewrite Forall_forall in Hlevels. apply Hlevels, nth_In, Hi.
    - rewrite nth_overflow by exact Hi. cbn. lra. }
  assert (Hr : Forall (fun value => 0 <= value <= 255) row).
  { rewrite Forall_forall in Hpalette.
    apply Hpalette. eapply nth_error_In. exact Hrow. }
  assert (Hmap :
    map (fun value => int32_or (truncate (Math_round (level * value)%js)) 0) row
    = map (fun value => Int_part (level * value + / 2)) row).
  { apply map_ext_in. intros value Hin. apply round_or_0.
    apply product_range; [exact Hl|].
    rewrite Forall_forall in Hr. apply Hr, Hin. }
  cbv zeta. rewrite Hmap.
  change (Palette.component
            (map (fun value => Int_part (level * value + / 2)) row))
    with (shade level row).
  rewrite pack_bytes by (apply shade_range; assumption).
  unfold uint32_set.
  destruct (Z.ltb_spec key 0); [lia|].
  f_equal. f_equal. f_equal. unfold ToUint32.
  replace (shade level row 2 * 65536 + shade level row 1 * 256
           + shade level row 0)%Z
    with (shade level row 0 + 256 * shade level row 1
          + 65536 * shade level row 2)%Z by ring.
  apply Z.mod_small. change (2 ^ 24)%Z with 16777216%Z in Hrange.
  change (2 ^ 32)%Z with 4294967296%Z. lia.
Qed.

Lemma getKeyColors_fold (levels : list R) (keys : list Z) :
  forall this : Palette.Palette R,
    length (Palette.palette this) = 12%nat ->
    Forall (fun level => 0 <= level <= 1) levels ->
    Forall (Forall (fun value => 0 <= value <= 255)) (Palette.palette this) ->
    Forall (fun key => (0 <= key)%Z) keys ->
    fold_left
      (fun acc key =>
         match acc with
         | None => None
         | Some this' => Palette.getKeyColor this' levels key
         end)
      keys (Some this)
    = Some (Palette.Build (Palette.palette this)
              (fold_left
                 (fun colors key =>
                    set_nth colors (Z.to_nat key)
                            (key_color (Palette.palette this) levels key))
                 keys (Palette.keyColors this))).
Proof.
  induction keys as [|key keys IH]; intros this Hrows Hlevels Hpalette Hkeys.
  - destruct this; reflexivity.
  - inversion Hkeys as [|? ? Hkey Hrest]; subst.
    cbn [fold_left]. rewrite getKeyColor_packs by assumption.
    rewrite IH by assumption. reflexivity.
Qed.

Lemma upto_nonneg (n : Z) : Forall (fun key => (0 <= key)%Z) (upto n).
Proof.
  unfold upto. apply Forall_forall. intros key Hin.
  apply in_map_iff in Hin. destruct Hin as [i [<- _]]. lia.
Qed.

Lemma getKeyColors_map (this : Palette.Palette R) (levels : list R) :
  length (Palette.palette this) = 12%nat ->
  length (Palette.keyColors this) = 88%nat ->
  Forall (fun level => 0 <= level <= 1) levels ->
  Forall (Forall (fun value => 0 <= value <= 255)) (Palette.palette this) ->
  Palette.getKeyColors this levels
  = Some (Palette.Build (Palette.palette this)
            (map (key_color (Palette.palette this) levels) (upto keysNum)),
          map (key_color (Palette.palette this) levels) (upto keysNum)).
Proof.
  intros Hrows Hcolors Hlevels Hpalette.
  unfold Palette.getKeyColors.
  rewrite getKeyColors_fold by (try assumption; apply upto_nonneg).
  pose proof (fold_set_all (key_color (Palette.palette this) levels)
                (Palette.keyColors this) []) as Hfold.
  cbn [length app] in Hfold. rewrite Hcolors in Hfold.
  change (upto keysNum) with (map Z.of_nat (seq 0 88)).
  rewrite Hfold. reflexivity.
Qed.

(** With a palette of twelve rows of components between 0 and 255 and
    levels between 0 and 1, [Palette.getKeyColors] succeeds and returns,
    for each of the 88 keys, the colour of the row of its pitch class
    (row [(key + 9) mod 12]), each component multiplied by the level of
    the key and rounded to the nearest integer, packed with red in the
    lowest byte, green in the second and blue in the third. The array
    returned is the one the object keeps. *)
Theorem getKeyColors_packs (this : Palette.Palette R) (levels : list R) :
  length (Palette.palette this) = 12%nat ->
  length (Palette.keyColors this) = 88%nat ->
  (88 <= length levels)%nat ->
  Forall (fun level => 0 <= level <= 1) levels ->
  Forall (Forall (fun value => 0 <= value <= 255)) (Palette.palette this) ->
  exists this' : Palette.Palette R,
    Palette.getKeyColors this levels
    = Some (this', Palette.keyColors this') /\
    Palette.palette this' = Palette.palette this /\
    Palette.keyColors this'
    = map (key_color (Palette.palette this) levels) (upto keysNum).
Proof.
  intros Hrows Hcolors _ Hlevels Hpalette.
  exists (Palette.Build (Palette.palette this)
            (map (key_color (Palette.palette this) levels) (upto keysNum))).
  split; [|split].
  - rewrite getKeyColors_map by assumption. reflexivity.
  - reflexivity.
  - reflexivity.
Qed.

Lemma getKeyColors_packs_witness :
  exists this' : Palette.Palette R,
    Palette.getKeyColors (Palette.new (repeat [255; 128; 0] 12))
                         (repeat (/ 2) 88)
    = Some (this', Palette.keyColors this') /\
    Palette.palette this' = repeat [255; 128; 0] 12 /\
    Palette.keyColors this'
    = map (key_color (repeat [255; 128; 0] 12) (repeat (/ 2) 88))
          (upto keysNum).
Proof.
  apply (getKeyColors_packs (Palette.new (repeat [255; 128; 0] 12))
                            (repeat (/ 2) 88)).
  - reflexivity.
  - reflexivity.
  - rewrite repeat_length. lia.
  - apply Forall_forall. intros x Hx. apply repeat_spec in Hx. lra.
  - apply Forall_forall. intros x Hx. apply repeat_spec in Hx. subst x.
    repeat constructor; lra.
Defined.
End PaletteColors.

(** *** From the levels to the keyboard *)

Section LevelsToKeyboard.
Import Ascii String.

Lemma int_get_map_upto (g : Z -> Z) (n key : Z) :
  In key (upto n) -> int_get (map g (upto n)) key = g key.
Proof.
  intros Hin. unfold upto in *.
  apply in_map_iff in Hin. destruct Hin as [i [<- Hi]].
  apply in_seq in Hi. unfold int_get.
  destruct (Z.ltb_spec (Z.of_nat i) 0); [lia|].
  rewrite Nat2Z.id, map_map.
  rewrite (nth_indep _ 0%Z (g (Z.of_nat O)))
    by (rewrite length_map, length_seq; lia).
  rewrite (map_nth (fun j => g (Z.of_nat j))).
  rewrite seq_nth by lia. reflexivity.
Qed.

(** The two classes in a row, as the page uses them: with a palette of
    twelve rows of components between 0 and 255, levels between 0 and 1
    and a keyboard of at least 88 keys, the fill of each key is [#rrggbb]
    where [rr], [gg] and [bb] are the hexadecimal digits of the red, green
    and blue component of the row of its pitch class, each multiplied by
    the level of the key and rounded. The byte order in which
    [getKeyColors] packs the colour and the one in which [update] unpacks
    it cancel out. *)
Theorem key_fill_of_level (this : Palette.Palette R) (levels : list R)
    (keys : list string) :
  List.length (Palette.palette this) = 12%nat ->
  List.length (Palette.keyColors this) = 88%nat ->
  (88 <= List.length levels)%nat ->
  Forall (fun level => (0 <= level <= 1)%R) levels ->
  Forall (Forall (fun value => (0 <= value <= 255)%R)) (Palette.palette this) ->
  (88 <= List.length keys)%nat ->
  exists (this' : Palette.Palette R) (keyColors : list Z),
    Palette.getKeyColors this levels = Some (this', keyColors) /\
    PianoKeyboard.update keys keyColors
    = Some (List.app
              (map (fun key =>
                      let level := typed_get levels key in
                      let row := nth (Z.to_nat ((key + 9) mod 12))
                                     (Palette.palette this) [] in
                      append "#"
                        (append (hex2 (shade level row 0))
                           (append (hex2 (shade level row 1))
                                   (hex2 (shade level row 2)))))
                   (upto keysNum))
              (skipn 88 keys)).
Proof.
  intros Hrows Hcolors _ Hlevels Hpalette Hkeys.
  eexists. eexists. split.
  - apply getKeyColors_map; assumption.
  - unfold PianoKeyboard.update.
    change keysNum with (Z.of_nat 88).
    rewrite (fold_set_or_throw
               (fun key =>
                  append "#"
                    (PianoKeyboard.rgbString
                       (int_get (map (key_color (Palette.palette this) levels)
                                     (upto (Z.of_nat 88))) key)))
               88 keys).
    destruct (Nat.leb_spec 88 (List.length keys)) as [_|Hlt]; [|lia].
    f_equal. f_equal. apply map_ext_in. intros key Hin.
    rewrite int_get_map_upto by exact Hin.
    rewrite rgbString_bytes.
    destruct (key_color_range (Palette.palette this) levels key
                Hlevels Hpalette) as [_ [H0 [H1 H2]]].
    rewrite H0, H1, H2. reflexivity.
Qed.

Lemma key_fill_of_level_witness :
  exists (this' : Palette.Palette R) (keyColors : list Z),
    Palette.getKeyColors (Palette.new (repeat [255; 128; 0]%R 12))
                         (repeat (/ 2)%R 88)
    = Some (this', keyColors) /\
    PianoKeyboard.update (repeat EmptyString 88) keyColors
    = Some (List.app
              (map (fun key =>
                      let level := typed_get (repeat (/ 2)%R 88) key in
                      let row := nth (Z.to_nat ((key + 9) mod 12))
                                     (repeat [255; 128; 0]%R 12) [] in
                      append "#"
                        (append (hex2 (shade level row 0))
                           (append (hex2 (shade level row 1))
                                   (hex2 (shade level row 2)))))
                   (upto keysNum))
              (skipn 88 (repeat EmptyString 88))).
Proof.
  apply (key_fill_of_level (Palette.new (repeat [255; 128; 0]%R 12))
                           (repeat (/ 2)%R 88) (repeat EmptyString 88)).
  - reflexivity.
  - reflexivity.
  - rewrite repeat_length. lia.
  - apply Forall_forall. intros x Hx. apply repeat_spec in Hx. lra.
  - apply Forall_forall. intros x Hx. apply repeat_spec in Hx. subst x.
    repeat constructor; lra.
  - rewrite repeat_length. lia.
Defined.
End LevelsToKeyboard.

(** *** [Spectrogram] *)

Section SpectrogramLines.

Lemma ToUint32_range (v : Z) : (0 <= ToUint32 v < 2 ^ 32)%Z.
Proof. unfold ToUint32. apply Z.mod_pos_bound. lia. Qed.









End SpectrogramLines.

Section SpectrogramHistory.








End SpectrogramHistory.

(** *** [Palette.getKeyColors] in any arithmetic *)

Section PaletteAny.
Context {T : Type} `{Arith T} `{Integral T}.

Lemma getKeyColor_palette (this this' : Palette.Palette T) (levels : list T)
    (key : Z) :
  Palette.getKeyColor this levels key = Some this' ->
  Palette.palette this' = Palette.palette this.
Proof.
  unfold Palette.getKeyColor.
  destruct (nth_error _ _); [|discriminate].
  intros Heq. injection Heq as <-. reflexivity.
Qed.

Lemma getKeyColor_row (this : Palette.Palette T) (levels : list T) (key : Z) :
  (0 <= key)%Z ->
  (Z.to_nat ((key + 9) mod 12) < length (Palette.palette this))%nat ->
  Palette.getKeyColor this levels key
  = Some (Palette.Build (Palette.palette this)
            (set_nth (Palette.keyColors this) (Z.to_nat key)
               (mixed (typed_get levels key)
                      (nth (Z.to_nat ((key + 9) mod 12))
                           (Palette.palette this) [])))).
Proof.
  intros Hkey Hrow. unfold Palette.getKeyColor.
  rewrite Z.rem_mod_nonneg by lia.
  destruct (nth_error (Palette.palette this) (Z.to_nat ((key + 9) mod 12)))
    as [row|] eqn:Hnth.
  2:{ apply nth_error_None in Hnth. lia. }
  rewrite (nth_error_nth _ _ [] Hnth).
  unfold uint32_set. destruct (Z.ltb_spec key 0); [lia|].
  unfold mixed. cbv zeta. reflexivity.
Qed.

Lemma getKeyColor_throws (this : Palette.Palette T) (levels : list T)
    (key : Z) :
  (0 <= key)%Z ->
  (length (Palette.palette this) <= Z.to_nat ((key + 9) mod 12))%nat ->
  Palette.getKeyColor this levels key = None.
Proof.
  intros Hkey Hrow. unfold Palette.getKeyColor.
  rewrite Z.rem_mod_nonneg by lia.
  destruct (nth_error (Palette.palette this) (Z.to_nat ((key + 9) mod 12)))
    as [row|] eqn:Hnth; [|reflexivity].
  assert (Hlt : (Z.to_nat ((key + 9) mod 12) < length (Palette.palette this))%nat)
    by (apply nth_error_Some; congruence).
  lia.
Qed.

Lemma fold_thrown {A B : Type} (f : A -> B -> option A) (l : list B) :
  fold_left (fun acc x => match acc with None => None | Some a => f a x end)
            l None = None.
Proof. induction l as [|x l IH]; simpl; auto. Qed.

Lemma getKeyColors_loop (levels : list T) (keys : list Z) :
  forall this : Palette.Palette T,
    (12 <= length (Palette.palette this))%nat ->
    Forall (fun key => (0 <= key)%Z) keys ->
    fold_left
      (fun acc key =>
         match acc with
         | None => None
         | Some this' => Palette.getKeyColor this' levels key
         end)
      keys (Some this)
    = Some (Palette.Build (Palette.palette this)
              (fold_left
                 (fun colors key =>
                    set_nth colors (Z.to_nat key)
                      (mixed (typed_get levels key)
                             (nth (Z.to_nat ((key + 9) mod 12))
                                  (Palette.palette this) [])))
                 keys (Palette.keyColors this))).
Proof.
  induction keys as [|key keys IH]; intros this Hrows Hkeys.
  - destruct this; reflexivity.
  - inversion Hkeys as [|? ? Hkey Hrest]; subst.
    cbn [fold_left].
    pose proof (Z.mod_pos_bound (key + 9) 12 ltac:(lia)) as Hidx.
    rewrite getKeyColor_row by lia.
    rewrite IH by assumption. reflexivity.
Qed.

(** With twelve rows in the palette and 88 slots in [keyColors] the call
    returns the mixed colour of every key. *)
Lemma getKeyColors_mixed (this : Palette.Palette T) (levels : list T) :
  (12 <= length (Palette.palette this))%nat ->
  length (Palette.keyColors this) = 88%nat ->
  Palette.getKeyColors this levels
  = Some (Palette.Build (Palette.palette this)
            (map (fun key =>
                    mixed (typed_get levels key)
                          (nth (Z.to_nat ((key + 9) mod 12))
                               (Palette.palette this) []))
                 (upto keysNum)),
          map (fun key =>
                 mixed (typed_get levels key)
                       (nth (Z.to_nat ((key + 9) mod 12))
                            (Palette.palette this) []))
              (upto keysNum)).
Proof.
  intros Hrows Hcolors. unfold Palette.getKeyColors.
  rewrite getKeyColors_loop by (try assumption; apply upto_nonneg).
  pose proof (fold_set_all
                (fun key =>
                   mixed (typed_get levels key)
                         (nth (Z.to_nat ((key + 9) mod 12))
                              (Palette.palette this) []))
                (Palette.keyColors this) []) as Hfold.
  cbn [length app] in Hfold. rewrite Hcolors in Hfold.
  change (upto keysNum) with (map Z.of_nat (seq 0 88)).
  rewrite Hfold. reflexivity.
Qed.

(** [Palette.getKeyColors] throws exactly when the palette has fewer than
    twelve rows, whatever the levels are (too few of them, NaN and
    infinities included) and whatever the rows hold. *)
Theorem getKeyColors_throws (this : Palette.Palette T) (levels : list T) :
  Palette.getKeyColors this levels = None
  <-> (length (Palette.palette this) < 12)%nat.
Proof.
  split.
  - intros Hnone.
    destruct (Nat.lt_ge_cases (length (Palette.palette this)) 12)
      as [Hlt|Hge]; [exact Hlt|].
    unfold Palette.getKeyColors in Hnone.
    rewrite getKeyColors_loop in Hnone
      by (try assumption; apply upto_nonneg).
    discriminate.
  - intros Hlt. unfold Palette.getKeyColors.
    change (upto keysNum)
      with ([0; 1]%Z ++ 2%Z :: map Z.of_nat (seq 3 85)).
    rewrite fold_left_app.
    set (step := fun (acc : option (Palette.Palette T)) (key : Z) =>
                   match acc with
                   | None => None
                   | Some this' => Palette.getKeyColor this' levels key
                   end).
    assert (Hpre : fold_left step [0; 1]%Z (Some this) = None \/
                   exists this', fold_left step [0; 1]%Z (Some this)
                                 = Some this' /\
                                 Palette.palette this' = Palette.palette this).
    { subst step. cbn [fold_left].
      destruct (Palette.getKeyColor this levels 0) as [this0|] eqn:Hkey0;
        [|left; reflexivity].
      destruct (Palette.getKeyColor this0 levels 1) as [this1|] eqn:Hkey1;
        [|left; reflexivity].
      right. exists this1. split; [reflexivity|].
      apply getKeyColor_palette in Hkey0, Hkey1. congruence. }
    destruct Hpre as [Hpre|[this' [Hpre Hpal]]]; rewrite Hpre; subst step.
    + rewrite (fold_thrown (fun this' key =>
                              Palette.getKeyColor this' levels key)).
      reflexivity.
    + cbn [fold_left].
      rewrite getKeyColor_throws
        by (rewrite ?Hpal; change (Z.to_nat ((2 + 9) mod 12)) with 11%nat; lia).
      rewrite (fold_thrown (fun this' key =>
                              Palette.getKeyColor this' levels key)).
      reflexivity.
Qed.
End PaletteAny.

(** *** Levels that are zero or NaN *)

Section DarkLevels.
Local Open Scope float_scope.

Lemma dark_component (level value : float) :
  zero_or_nan level ->
  int32_or (truncate (Math_round (level * value)%js)) 0 = 0%Z.
Proof.
  intros Hlevel.
  pose proof (zero_or_nan_mul level value Hlevel) as Hx.
  change (level * value)%js with (level * value).
  set (x := level * value) in *.
  unfold zero_or_nan in Hx.
  cbn [Math_round truncate DoubleIntegral].
  unfold float_round.
  destruct (Prim2SF x) as [s| | |s m e] eqn:Hsf; try contradiction.
  - unfold float_truncate. rewrite Hsf. reflexivity.
  - unfold float_truncate. rewrite Hsf. reflexivity.
Qed.

Lemma dark_mixed (level : float) (row : list float) :
  zero_or_nan level -> mixed level row = 0%Z.
Proof.
  intros Hlevel. unfold mixed.
  assert (Hmap :
    map (fun value => int32_or (truncate (Math_round (level * value)%js)) 0) row
    = map (fun _ => 0%Z) row).
  { apply map_ext. intros value. apply dark_component. exact Hlevel. }
  cbv zeta. rewrite Hmap.
  assert (Hc : forall i, Palette.component (map (fun _ : float => 0%Z) row) i
                         = 0%Z).
  { intros i. unfold Palette.component. clear.
    revert i; induction row as [|value row IH]; intros [|i]; simpl; auto. }
  rewrite !Hc. reflexivity.
Qed.

Section DarkKeys.
Import Ascii String.

(** In IEEE arithmetic, a key whose level is a zero or NaN (as the level
    of a silent input is, or that of a key the [levels] array does not
    reach) is painted black, whatever the palette holds: its colour is 0
    and the fill derived from it is [#000000]. *)
Theorem dark_level_is_black (this : Palette.Palette float)
    (levels : list float) (key : Z) :
  (12 <= List.length (Palette.palette this))%nat ->
  List.length (Palette.keyColors this) = 88%nat ->
  (0 <= key < 88)%Z ->
  zero_or_nan (typed_get levels key) ->
  exists (this' : Palette.Palette float) (keyColors : list Z),
    Palette.getKeyColors this levels = Some (this', keyColors) /\
    int_get keyColors key = 0%Z /\
    PianoKeyboard.rgbString (int_get keyColors key)
    = "000000"%string.
Proof.
  intros Hrows Hcolors Hkey Hlevel.
  eexists. eexists. split; [apply getKeyColors_mixed; assumption|].
  assert (Hin : In key (upto keysNum)).
  { unfold upto. apply in_map_iff. exists (Z.to_nat key).
    split; [lia|]. apply in_seq. change (Z.to_nat keysNum) with 88%nat. lia. }
  rewrite (int_get_map_upto _ keysNum key Hin).
  rewrite dark_mixed by exact Hlevel.
  split; reflexivity.
Qed.

Lemma dark_level_is_black_witness :
  exists (this' : Palette.Palette float) (keyColors : list Z),
    Palette.getKeyColors (Palette.new (repeat [255; 128; 0] 12)) [0.5; nan]
    = Some (this', keyColors) /\
    int_get keyColors 1 = 0%Z /\
    PianoKeyboard.rgbString (int_get keyColors 1)
    = "000000"%string.
Proof.
  apply (dark_level_is_black (Palette.new (repeat [255; 128; 0] 12))
                             [0.5; nan] 1).
  - simpl. lia.
  - reflexivity.
  - lia.
  - exact I.
Defined.
End DarkKeys.
End DarkLevels.

(** *** The keyboard *)

Section KeyboardAny.
Context {T : Type} `{Arith T} `{Integral T}.

(** What the constructor draws, in the arithmetic of the code. *)
Lemma new_keyboard (scale : T) :
  PianoKeyboard.keys (PianoKeyboard.new scale)
  = map (fun key => Some (drawn_key scale key)) (upto keysNum) /\
  PianoKeyboard.keySlices (PianoKeyboard.new scale)
  = Some (map (fun key =>
                 PianoKeyboard.ToUint8 (ofZ (slice_unit key) * scale)%js)
              (upto keysNum)) /\
  PianoKeyboard.svg_width (PianoKeyboard.new scale)
  = Some (scaled_sum scale (map white_unit (naturals_below keysNum)) (ofZ 0)) /\
  PianoKeyboard.svg_height (PianoKeyboard.new scale)
  = Some (ofZ 150 * scale)%js.
Proof.
  split; [|split; [|split]]; vm_compute; reflexivity.
Qed.
End KeyboardAny.

Section KeyboardKeys.
Context {T : Type} `{Arith T} `{Integral T}.


End KeyboardKeys.

Section KeyboardLayout.
Local Open Scope R_scope.

Lemma scaled_sum_R (scale : R) (units : list Z) (init : R) :
  scaled_sum scale units init
  = init + IZR (fold_right Z.add 0%Z units) * scale.
Proof.
  unfold scaled_sum. revert init.
  induction units as [|w units IH]; intros init; cbn [fold_left fold_right].
  - lra.
  - rewrite IH, plus_IZR.
    change (@nadd R Exact) with Rplus. change (@nmul R Exact) with Rmult.
    change (@ofZ R Exact) with IZR. ring.
Qed.

(** The [rect] of a key in units of the scale. *)
Lemma drawn_key_R (scale : R) (key : Z) :
  drawn_key scale key
  = PianoKeyboard.rect
      (IZR (left_unit key) * scale) 0 2 (IZR (width_unit key) * scale)
      ((if sharp key then 100 else 150) * scale)
      (if sharp key then PianoKeyboard.blackKeyGroup
       else PianoKeyboard.whiteKeyGroup).
Proof.
  unfold drawn_key, left_unit, width_unit.
  destruct (sharp key); rewrite scaled_sum_R;
    change (@nmul R Exact) with Rmult; change (@ofZ R Exact) with IZR;
    f_equal; rewrite ?plus_IZR; ring.
Qed.

Lemma keyboard_units :
  forallb
    (fun key =>
       (0 <? width_unit key)%Z &&
       (if sharp key then true
        else if sharp (key + 1)
             then negb (sharp (key + 2)) &&
                  (left_unit (key + 2) =? left_unit key + width_unit key)%Z &&
                  (left_unit (key + 1) <? left_unit (key + 2))%Z &&
                  (left_unit (key + 2)
                   <? left_unit (key + 1) + width_unit (key + 1))%Z
             else (left_unit (key + 1) =? left_unit key + width_unit key)%Z))
    (upto 87)
  = true /\
  left_unit 0 = 0%Z /\
  (left_unit 87 + width_unit 87 = 1218)%Z /\
  fold_right Z.add 0%Z (map white_unit (naturals_below keysNum)) = 1218%Z.
Proof. vm_compute. repeat split. Qed.

(** The layout of the keyboard at a positive scale. The white keys are
    150 units high and tile the width of the picture, 1218 units, from
    left to right without gap or overlap; the black keys are 100 units
    high, and each lies over the joint of the two white keys around it:
    it starts left of the joint and ends right of it. *)
Theorem keyboard_layout (scale : R) :
  0 < scale ->
  exists k : Z -> PianoKeyboard.Key (T:=R),
    PianoKeyboard.keys (PianoKeyboard.new scale)
    = map (fun key => Some (k key)) (upto keysNum) /\
    PianoKeyboard.svg_width (PianoKeyboard.new scale) = Some (1218 * scale) /\
    PianoKeyboard.svg_height (PianoKeyboard.new scale) = Some (150 * scale) /\
    PianoKeyboard.x (k 0%Z) = 0 /\
    PianoKeyboard.x (k 87%Z) + PianoKeyboard.width (k 87%Z) = 1218 * scale /\
    forall key : Z,
      (0 <= key < 87)%Z ->
      PianoKeyboard.y (k key) = 0 /\
      0 < PianoKeyboard.width (k key) /\
      PianoKeyboard.height (k key)
      = (if sharp key then 100 else 150) * scale /\
      (if sharp key then True
       else if sharp (key + 1)
            then sharp (key + 2) = false /\
                 PianoKeyboard.x (k (key + 2)%Z)
                 = PianoKeyboard.x (k key) + PianoKeyboard.width (k key) /\
                 PianoKeyboard.x (k (key + 1)%Z)
                 < PianoKeyboard.x (k (key + 2)%Z)
                 < PianoKeyboard.x (k (key + 1)%Z)
                   + PianoKeyboard.width (k (key + 1)%Z)
            else PianoKeyboard.x (k (key + 1)%Z)
                 = PianoKeyboard.x (k key) + PianoKeyboard.width (k key)).
Proof.
  intros Hscale.
  destruct (new_keyboard scale) as [Hkeys [_ [Hwidth Hheight]]].
  destruct keyboard_units as [Hunits [Hfirst [Hlast Htotal]]].
  exists (drawn_key scale).
  split; [exact Hkeys|].
  split.
  { rewrite Hwidth, scaled_sum_R, Htotal.
    change (@ofZ R Exact 0) with 0. f_equal. ring. }
  split; [exact Hheight|].
  split.
  { rewrite drawn_key_R. cbn [PianoKeyboard.x]. rewrite Hfirst. ring. }
  split.
  { rewrite drawn_key_R. cbn [PianoKeyboard.x PianoKeyboard.width].
    rewrite <- Rmult_plus_distr_r, <- plus_IZR, Hlast. reflexivity. }
  intros key Hkey.
  rewrite forallb_forall in Hunits.
  assert (Hin : In key (upto 87)).
  { unfold upto. apply in_map_iff. exists (Z.to_nat key).
    split; [lia|]. apply in_seq. change (Z.to_nat 87) with 87%nat. lia. }
  specialize (Hunits key Hin).
  apply andb_true_iff in Hunits. destruct Hunits as [Hpos Hnext].
  apply Z.ltb_lt in Hpos.
  rewrite !drawn_key_R.
  cbn [PianoKeyboard.x PianoKeyboard.y PianoKeyboard.width
       PianoKeyboard.height].
  split; [reflexivity|].
  split.
  { apply Rmult_lt_0_compat; [apply (IZR_lt 0); exact Hpos|exact Hscale]. }
  split; [reflexivity|].
  destruct (sharp key); [exact I|].
  destruct (sharp (key + 1)).
  - apply andb_true_iff in Hnext. destruct Hnext as [Hnext Hright].
    apply andb_true_iff in Hnext. destruct Hnext as [Hnext Hleft].
    apply andb_true_iff in Hnext. destruct Hnext as [Hwhite Hjoint].
    apply negb_true_iff in Hwhite.
    apply Z.eqb_eq in Hjoint. apply Z.ltb_lt in Hleft, Hright.
    split; [exact Hwhite|].
    split.
    + rewrite Hjoint, plus_IZR. ring.
    + apply IZR_lt in Hleft, Hright. rewrite plus_IZR in Hright.
      split; [apply Rmult_lt_compat_r; assumption|].
      rewrite <- Rmult_plus_distr_r.
      apply Rmult_lt_compat_r; assumption.
  - apply Z.eqb_eq in Hnext. rewrite Hnext, plus_IZR. ring.
Qed.

Lemma keyboard_layout_witness :
  exists k : Z -> PianoKeyboard.Key (T:=R),
    PianoKeyboard.keys (PianoKeyboard.new 2)
    = map (fun key => Some (k key)) (upto keysNum) /\
    PianoKeyboard.svg_width (PianoKeyboard.new 2) = Some (1218 * 2) /\
    PianoKeyboard.svg_height (PianoKeyboard.new 2) = Some (150 * 2) /\
    PianoKeyboard.x (k 0%Z) = 0 /\
    PianoKeyboard.x (k 87%Z) + PianoKeyboard.width (k 87%Z) = 1218 * 2 /\
    forall key : Z,
      (0 <= key < 87)%Z ->
      PianoKeyboard.y (k key) = 0 /\
      0 < PianoKeyboard.width (k key) /\
      PianoKeyboard.height (k key)
      = (if sharp key then 100 else 150) * 2 /\
      (if sharp key then True
       else if sharp (key + 1)
            then sharp (key + 2) = false /\
                 PianoKeyboard.x (k (key + 2)%Z)
                 = PianoKeyboard.x (k key) + PianoKeyboard.width (k key) /\
                 PianoKeyboard.x (k (key + 1)%Z)
                 < PianoKeyboard.x (k (key + 2)%Z)
                 < PianoKeyboard.x (k (key + 1)%Z)
                   + PianoKeyboard.width (k (key + 1)%Z)
            else PianoKeyboard.x (k (key + 1)%Z)
                 = PianoKeyboard.x (k key) + PianoKeyboard.width (k key)).
Proof.
  apply (keyboard_layout 2). lra.
Defined.
End KeyboardLayout.

(** *** The display in IEEE arithmetic: examples *)

Section DisplayExamples.
Local Open Scope float_scope.

(** [Math.round] on doubles: halves go up, a negative number that rounds
    to zero keeps its sign, and the largest double below one half rounds
    to 0. *)
Example Math_round_doubles :
  map Math_round [2.5; -2.5; 127.5; -0.25; 0x1.fffffffffffffp-2; infinity]
  = [3; -2; 128; -0; 0; infinity].
Proof. vm_compute. reflexivity. Qed.

(** Outside the range [0 .. 1] of the levels the components leave their
    bytes: at level 2 the green of one key runs into its blue, and a
    negative level sets the top byte. NaN and infinite levels, and keys
    without a level, are black. *)
Example getKeyColors_doubles :
  option_map (fun out => firstn 7 (snd out))
    (Palette.getKeyColors (Palette.new (repeat [255; 128; 0] 12))
                          [0.5; nan; infinity; 2; -1; 0.0009765625])
  = Some [16512; 0; 0; 66046; 4294967041; 0; 0]%Z.
Proof. vm_compute. reflexivity. Qed.
End DisplayExamples.
